(** * Inflectional hierarchy pipeline: a shallow embedding and its properties

    The development follows the Python sources module by module:
    [utils.py] (triphone encoder), [graph_builder.py] (tagging, duplicate
    indexing, edge weights), [community_detector.py] (projection of the
    clustering onto lexemes), [hierarchy_analyser.py] (hierarchy coefficient
    and report) and the standalone script [get_communities.py].

    Conventions of the embedding.
    - A Python [str] is a [string]; one character of the model stands for one
      code point of the source.
    - A Python [set] of node names is a [gset string]; the order in which the
      interpreter iterates over a set is a parameter [set_iter] of the
      development, constrained only to enumerate the set without repetition.
    - A [dict] that is only looked up is a [gmap]; a [dict] whose insertion
      order is observable is an association list with distinct keys.
    - A Python [float] that results from dividing two integers is the exact
      rational ([Q]); [NaN] is a separate constructor where the source can
      produce it. Sums and means are exact as well: a mean of the model can
      differ from the float of the source in its last place.
    - A cell of the formatives table is [NaN], a list of exponents, or a
      text that the loader left unparsed; the other literals that the
      loader can deliver (numbers, tuples) are outside the model.
    - Code that can raise returns a [result]. *)

From Stdlib Require Import Ascii QArith Qcanon Lqa DecimalString DecimalNat.
From stdpp Require Import gmap strings list sorting.

Local Open Scope nat_scope.

(** ** Python primitives used by the sources *)
Module Py.

Inductive pykey : Type :=
| KeyStr (s : string)
| KeyFloat (q : Qc).

Inductive exn : Type :=
| KeyError (k : pykey)
| ZeroDivisionError
| TypeError
| IndexError
| ValueError
| UnboundLocalError.

Inductive result (A : Type) : Type :=
| Ok (a : A)
| Raise (e : exn).
Arguments Ok {A} a.
Arguments Raise {A} e.

#[global] Instance result_ret : MRet result := λ A a, Ok a.
#[global] Instance result_bind : MBind result := λ A B f m,
  match m with
  | Ok a => f a
  | Raise e => Raise e
  end.
#[global] Instance result_fmap : FMap result := λ A B f m,
  match m with
  | Ok a => Ok (f a)
  | Raise e => Raise e
  end.

(** [d[k]] on a dictionary: [KeyError] when the key is missing. *)
Definition getitem `{Countable K} {V} (key : K → pykey)
    (d : gmap K V) (k : K) : result V :=
  match d !! k with
  | Some v => Ok v
  | None => Raise (KeyError (key k))
  end.

(** [l[i]] on a list: [IndexError] when out of range. *)
Definition list_getitem {A} (l : list A) (i : nat) : result A :=
  match l !! i with
  | Some v => Ok v
  | None => Raise IndexError
  end.

(** [a / b] on two integers (true division). *)
Definition truediv (a b : Z) : result Q :=
  match b with
  | Z0 => Raise ZeroDivisionError
  | Zpos p => Ok (a # p)
  | Zneg p => Ok ((- a) # p)
  end.

(** [s[i:j]] for [0 <= i <= j]; the slice is clamped to the string. *)
Definition str_slice (s : string) (i j : nat) : string :=
  String.substring i (j - i) s.

(** [s.split(sep)] for a one-character separator. *)
Fixpoint str_split (sep : ascii) (s : string) : list string :=
  match s with
  | EmptyString => [EmptyString]
  | String c s' =>
      if decide (c = sep) then EmptyString :: str_split sep s'
      else match str_split sep s' with
           | [] => [String c EmptyString]
           | w :: ws => String c w :: ws
           end
  end.

(** [sep in s] for a one-character [sep]. *)
Fixpoint str_contains (sep : ascii) (s : string) : bool :=
  match s with
  | EmptyString => false
  | String c s' => if decide (c = sep) then true else str_contains sep s'
  end.

(** [str(n)] for a non-negative integer. *)
Definition str_of_nat (n : nat) : string :=
  NilZero.string_of_uint (Nat.to_uint n).

(** [itertools.combinations(l, 2)]: pairs in index order. *)
Fixpoint combinations2 {A} (l : list A) : list (A * A) :=
  match l with
  | [] => []
  | x :: l' => (pair x <$> l') ++ combinations2 l'
  end.

End Py.
Export Py.

(** ** utils.py *)
Module Utils.

Definition generate_triphones (input_str : string) : list string :=
  let newstring := "#" +:+ input_str +:+ "#" in
  if decide (String.length newstring ≤ 3) then [newstring]
  else (λ i, str_slice newstring i (i + 3)) <$>
         seq 0 (String.length newstring - 2).

(** [process_cell] is only called with the list of triphones. *)
Definition process_cell (cell : list string) (column_name : string)
    : list string :=
  (λ exponent, exponent +:+ "-" +:+ column_name) <$> cell.

End Utils.

(** ** graph_builder.py *)
Module GraphBuilder.
Import Utils.

(** A cell of the loaded table that is not [NaN]: a list of exponents,
    or a text that the loader left as it found it. *)
Inductive Cell : Type :=
| CellList (exponents : list string)
| CellStr (text : string).

(** A row of the formatives table; a column missing from the map is a
    [NaN] cell. *)
Definition Row := gmap string Cell.

(** [str(cell) == 'nan'] on a cell that is not [NaN]: the text of a list
    starts with a bracket. *)
Definition is_nan_text (cell : Cell) : bool :=
  match cell with
  | CellList _ => false
  | CellStr text => bool_decide (text = "nan")
  end.

(** [for exponent in cell]: the entries of a list, the characters of a
    text. *)
Definition cell_exponents (cell : Cell) : list string :=
  match cell with
  | CellList exponents => exponents
  | CellStr text =>
      (λ c, String c EmptyString) <$> String.list_ascii_of_string text
  end.

(** [len(x["value"]) if isinstance(x["value"], (list, np.ndarray))
     else np.nan] *)
Definition cell_length (cell : Cell) : option nat :=
  match cell with
  | CellList exponents => Some (length exponents)
  | CellStr _ => None
  end.

(** The formatives [DataFrame]: column labels (distinct, as [read_csv]
    delivers them) and rows in file order, each with its index label. *)
Record DataFrame := {
  df_columns : list string;
  df_rows : list (string * Row)
}.

(** [df.drop(columns=["stem", "STEM"], errors='ignore')] *)
Definition drop_stem (df : DataFrame) : DataFrame :=
  {| df_columns :=
       filter (λ c, c ≠ "stem" ∧ c ≠ "STEM") (df_columns df);
     df_rows := df_rows df |}.

(** An insertion-ordered [dict] from lexeme to a list. *)
Definition Dict (V : Type) := list (string * V).

Fixpoint dict_get {V} (d : Dict V) (k : string) : option V :=
  match d with
  | [] => None
  | (k', v) :: d' => if decide (k' = k) then Some v else dict_get d' k
  end.

(** [d[k] = v] *)
Fixpoint dict_set {V} (d : Dict V) (k : string) (v : V) : Dict V :=
  match d with
  | [] => [(k, v)]
  | (k', v') :: d' =>
      if decide (k' = k) then (k', v) :: d'
      else (k', v') :: dict_set d' k v
  end.

(** [d[k] += vs] on a [defaultdict(list)] *)
Definition dict_iadd {A} (d : Dict (list A)) (k : string) (vs : list A)
    : Dict (list A) :=
  dict_set d k (default [] (dict_get d k) ++ vs).

(** The tagged triphones one cell contributes. *)
Definition cell_tagged (col : string) (cell : list string) : list string :=
  process_cell (exponent ← cell; generate_triphones exponent) col.

(** The inner loop of [build_lexeme_dict] over the columns of one row. *)
Definition build_row (cols : list string) (idx : string) (row : Row)
    (lexeme_dict : Dict (list string)) : Dict (list string) :=
  foldl (λ d col,
           match row !! col with
           | Some cell =>
               if is_nan_text cell then d
               else dict_iadd d idx (cell_tagged col (cell_exponents cell))
           | None => d
           end) lexeme_dict cols.

Definition build_lexeme_dict (df : DataFrame) : Dict (list string) :=
  let df_combo := drop_stem df in
  foldl (λ d '(idx, row), build_row (df_columns df_combo) idx row d)
        [] (df_rows df_combo).

(** The loop over one lexeme's list, threading the [seen] counter. *)
Fixpoint index_exps (seen : gmap string nat) (exps_list : list string)
    : list string :=
  match exps_list with
  | [] => []
  | exp :: rest =>
      let n := S (default 0 (seen !! exp)) in
      let seen' := <[exp := n]> seen in
      (if decide (1 < n) then exp +:+ "_" +:+ str_of_nat (n - 1) else exp)
        :: index_exps seen' rest
  end.

Definition index_duplicate_exponents (lexeme_dict : Dict (list string))
    : Dict (list string) :=
  foldl (λ indexed_dict '(idx, exps_list),
           dict_set indexed_dict idx (index_exps ∅ exps_list))
        [] lexeme_dict.

(** A weight or a count as the source holds it: a number or [NaN]. *)
Inductive pyfloat : Type :=
| FNaN
| FVal (q : Q).

(** [1 / x] on a float. *)
Definition float_inv (x : pyfloat) : result pyfloat :=
  match x with
  | FNaN => Ok FNaN
  | FVal q => if Qeq_bool q 0 then Raise ZeroDivisionError
              else Ok (FVal (1 / q)%Q)
  end.

(** [pd.pivot_table(df_weights, values="length", index="lexeme",
    columns="variable")] followed by [to_dict(orient="index")], as pandas
    documents it: the mean of the non-[NaN] lengths of each (lexeme, column)
    group; groups, lexemes and columns without any such length are
    dropped; a kept lexeme has [NaN] for a kept column it has no length in. *)
Definition pivot_lengths (df : DataFrame) (lex col : string) : list nat :=
  omap (λ '(idx, row),
          if decide (idx = lex) then (row : Row) !! col ≫= cell_length
          else None)
       (df_rows df).

Definition pivot_mean (ls : list nat) : pyfloat :=
  match ls with
  | [] => FNaN
  | _ => FVal (inject_Z (Z.of_nat (sum_list ls))
               / inject_Z (Z.of_nat (length ls)))%Q
  end.

Definition pivot_index (df : DataFrame) : list string :=
  (filter (λ '(idx, row),
             Exists (λ col, is_Some ((row : Row) !! col ≫= cell_length))
                    (df_columns df)) (df_rows df)).*1.

Definition pivot_columns (df : DataFrame) : list string :=
  filter (λ col,
            Exists (λ '(idx, row), is_Some ((row : Row) !! col ≫= cell_length))
                   (df_rows df)) (df_columns df).

(** The pivoted table as a dictionary: by lexeme, then by column. *)
Definition pivot_table (df_combo : DataFrame)
    : gmap string (gmap string pyfloat) :=
  list_to_map
    ((λ lex, (lex, list_to_map
                     ((λ col, (col, pivot_mean (pivot_lengths df_combo lex col)))
                        <$> pivot_columns df_combo)))
       <$> pivot_index df_combo).

(** [weights_dict], from the table to the dictionary of counts. The
    index is first inserted as a column ["lexeme"], and [reset_index]
    raises a [ValueError] when there is such a column already; [pd.melt]
    then writes the cells to a column ["value"], and raises a
    [ValueError] when the frame has a column of that name. Both happen
    before the [try] block, so that nothing is logged. *)
Definition weights_table (df : DataFrame)
    : result (gmap string (gmap string pyfloat)) :=
  let df_combo := drop_stem df in
  if decide ("lexeme" ∈ df_columns df_combo) then Raise ValueError
  else if decide ("value" ∈ df_columns df_combo) then Raise ValueError
  else Ok (pivot_table df_combo).

Definition dict_to_tuple_list (input_dict : Dict (list string))
    : list (string * string) :=
  '(key, value_list) ← input_dict; pair key <$> value_list.

(** The cell label recovered from a tagged exponent. *)
Definition recover_cell (tag : string) : result string :=
  cell ← list_getitem (str_split "-" tag) 1;
  if str_contains "_" cell then list_getitem (str_split "_" cell) 0
  else Ok cell.

Definition edge_weight (weights_dict : gmap string (gmap string pyfloat))
    (lexeme cell : string) : result pyfloat :=
  per_lexeme ← getitem KeyStr weights_dict lexeme;
  count ← getitem KeyStr per_lexeme cell;
  float_inv count.

Definition Edge : Type := string * string * pyfloat.

(** What the handler of [calculate_edge_weights] writes to the log. *)
Inductive log_entry : Type :=
| LogError (e : exn)
| LogEdge (lexeme tag : string)
| LogCell (cell : string).

(** The loop over the edges. [cell] is the local variable of that name
    ([None] while unbound); a failure reports the exception, the edge at
    which it happened and the value of [cell] at that moment. *)
Fixpoint weights_loop (weights_dict : gmap string (gmap string pyfloat))
    (cell : option string) (edges : list (string * string))
    : list Edge + exn * (string * string) * option string :=
  match edges with
  | [] => inl []
  | lst :: rest =>
      match recover_cell lst.2 with
      | Raise e => inr (e, lst, cell)
      | Ok cell' =>
          match edge_weight weights_dict lst.1 cell' with
          | Raise e => inr (e, lst, Some cell')
          | Ok weight =>
              match weights_loop weights_dict (Some cell') rest with
              | inl es => inl ((lst, weight) :: es)
              | inr err => inr err
              end
          end
      end
  end.

(** [calculate_edge_weights]: the weighted edges, or the exception that
    is raised again after logging; with it, the error lines logged. *)
Definition calculate_edge_weights_on
    (weights_dict : gmap string (gmap string pyfloat))
    (indexed_dict : Dict (list string))
    : result (list Edge) * list log_entry :=
  match weights_loop weights_dict None (dict_to_tuple_list indexed_dict) with
  | inl es => (Ok es, [])
  | inr (e, lst, Some cell) =>
      (Raise e, [LogError e; LogEdge lst.1 lst.2; LogCell cell])
  | inr (e, lst, None) =>
      (Raise UnboundLocalError, [LogError e; LogEdge lst.1 lst.2])
  end.

Definition calculate_edge_weights (df : DataFrame)
    (indexed_dict : Dict (list string))
    : result (list Edge) * list log_entry :=
  match weights_table df with
  | Raise e => (Raise e, [])
  | Ok weights_dict => calculate_edge_weights_on weights_dict indexed_dict
  end.

(** The [networkx] graph: every node with its [bipartite] attribute when
    it has one, and the weight of every adjacency, stored both ways. *)
Record Graph := {
  g_nodes : gmap string (option Z);
  g_adj : gmap (string * string) pyfloat
}.

Definition add_nodes_from (ns : list string) (bipartite : Z) (G : Graph)
    : Graph :=
  {| g_nodes := foldl (λ m n, <[n := Some bipartite]> m) (g_nodes G) ns;
     g_adj := g_adj G |}.

Definition add_node_if_new (n : string) (m : gmap string (option Z))
    : gmap string (option Z) :=
  match m !! n with
  | Some _ => m
  | None => <[n := None]> m
  end.

Definition add_edge (G : Graph) (e : Edge) : Graph :=
  let '(u, v, w) := e in
  {| g_nodes := add_node_if_new v (add_node_if_new u (g_nodes G));
     g_adj := <[(v, u) := w]> (<[(u, v) := w]> (g_adj G)) |}.

(** [create_bipartite_graph], from the loaded table to the graph that is
    pickled and returned. *)
Definition create_bipartite_graph (df : DataFrame)
    : result Graph * list log_entry :=
  let lexeme_dict := build_lexeme_dict df in
  let indexed_dict := index_duplicate_exponents lexeme_dict in
  match calculate_edge_weights df indexed_dict with
  | (Raise e, log) => (Raise e, log)
  | (Ok edges, log) =>
      let lexemes := indexed_dict.*1 in
      let exponents := mjoin indexed_dict.*2 in
      let B := {| g_nodes := ∅; g_adj := ∅ |} in
      let B := add_nodes_from lexemes 0 B in
      let B := add_nodes_from exponents 1 B in
      (Ok (foldl add_edge B edges), log)
  end.

End GraphBuilder.

(** ** community_detector.py *)
Module CommunityDetector.
Import GraphBuilder.

Section detector.
(** [nx.community.louvain_communities(graph, resolution=res)]: an
    external, randomised primitive. The third argument is the rank of
    the call within the run, so that two calls at the same resolution
    need not agree. *)
Variable louvain_communities : Graph → Qc → nat → list (gset string).

(** [np.round(np.arange(0, 2.1, 0.1), 1)] *)
Definition default_resolutions : list Qc :=
  (λ k, Q2Qc (Z.of_nat k # 10)) <$> seq 0 21.

(** [{n for n, d in graph.nodes(data=True) if d["bipartite"] == 0}] *)
Definition lexeme_nodes (graph : Graph) : result (gset string) :=
  if decide (map_Forall (λ _ d, is_Some d) (g_nodes graph))
  then Ok (dom (filter (λ nd, nd.2 = Some 0%Z) (g_nodes graph)))
  else Raise (KeyError (KeyStr "bipartite")).

(** The first loop: one clustering per resolution, a later call at the
    same resolution replacing the earlier one. *)
Definition run_louvain (graph : Graph) (resolutions : list Qc)
    : gmap Qc (list (gset string)) :=
  (foldl (λ '(communities, call) res,
            (<[res := louvain_communities graph res call]> communities,
             S call))
         (∅, 0) resolutions).1.

(** [[s & lexemes for s in comms if s & lexemes]] *)
Definition lexeme_only (lexemes : gset string) (comms : list (gset string))
    : list (gset string) :=
  s ← comms; if decide (s ∩ lexemes ≠ ∅) then [s ∩ lexemes] else [].

Definition detect_communities_multiresolution (graph : Graph)
    (resolutions : option (list Qc))
    : result (gmap Qc (list (gset string))) :=
  let resolutions := default default_resolutions resolutions in
  lexemes ← lexeme_nodes graph;
  let communities := run_louvain graph resolutions in
  Ok (foldl (λ lexeme_communities res,
               <[res := lexeme_only lexemes
                          (default [] (communities !! res))]>
                 lexeme_communities)
            ∅ resolutions).
End detector.

End CommunityDetector.

(** ** hierarchy_analyser.py *)
Module HierarchyAnalyser.
Import GraphBuilder.

(** The value stored for one resolution pair. *)
Inductive ratings : Type :=
| Sentinel (msg : string)
| Ratings (scores : list Q).

(** One cell of the [Averages] column. *)
Inductive average : Type :=
| AvgStr (msg : string)
| AvgNum (q : Q).

(** One row of the report; [None] in the first two columns is the [NaN]
    with which pandas fills them when rows are created by a later column. *)
Record ReportRow := {
  Keys : option string;
  Averages : option average;
  ncomms_upper : nat;
  ncomms_lower : nat
}.

Fixpoint find_set_containing_string (list_of_sets : list (gset string))
    (x : string) : option (gset string) :=
  match list_of_sets with
  | [] => None
  | s :: rest =>
      if decide (x ∈ s) then Some s else find_set_containing_string rest x
  end.

(** [lower_set and v2 in lower_set] *)
Definition same_set (lower_communities : list (gset string))
    (pair : string * string) : bool :=
  match find_set_containing_string lower_communities pair.1 with
  | Some lower_set =>
      bool_decide (lower_set ≠ ∅) && bool_decide (pair.2 ∈ lower_set)
  | None => false
  end.

Section analyser.
(** The order in which the interpreter iterates over a set. *)
Variable set_iter : gset string → list string.
(** [str] of a resolution value, as used in an f-string. *)
Variable str_float : Qc → string.

Definition community_score (lower_communities : list (gset string))
    (community : gset string) : result Q :=
  let verb_pairs := combinations2 (set_iter community) in
  let count_same_set :=
    length (filter (λ p, same_set lower_communities p) verb_pairs) in
  truediv (Z.of_nat count_same_set) (Z.of_nat (length verb_pairs)).

Fixpoint community_ratings (lower_communities upper_communities
    : list (gset string)) : result (list Q) :=
  match upper_communities with
  | [] => Ok []
  | community :: rest =>
      if decide (1 < size community) then
        score ← community_score lower_communities community;
        scores ← community_ratings lower_communities rest;
        Ok (score :: scores)
      else community_ratings lower_communities rest
  end.

Definition calculate_hierarchy_coefficient
    (lower_communities upper_communities : list (gset string))
    : result ratings :=
  if decide (Forall (λ s, size s = 1) upper_communities)
  then Ok (Sentinel "Every lexeme in its own community")
  else Ratings <$> community_ratings lower_communities upper_communities.

(** [sorted(list(communities.keys()))] *)
Definition sorted_keys (communities : gmap Qc (list (gset string)))
    : list Qc :=
  merge_sort Qcle (elements (dom communities)).

(** [[(resolutions[i], resolutions[i+1]) for i in range(len - 1)]] *)
Definition resolution_pairs (resolutions : list Qc) : list (Qc * Qc) :=
  zip resolutions (tail resolutions).

Definition pair_key (lower_res upper_res : Qc) : string :=
  str_float lower_res +:+ "_" +:+ str_float upper_res.

Fixpoint analyze_pairs (communities : gmap Qc (list (gset string)))
    (tuples : list (Qc * Qc)) (hierarchy_ratings : Dict ratings)
    : result (Dict ratings) :=
  match tuples with
  | [] => Ok hierarchy_ratings
  | (lower_res, upper_res) :: rest =>
      lower_comms ← getitem KeyFloat communities lower_res;
      upper_comms ← getitem KeyFloat communities upper_res;
      ratings ← calculate_hierarchy_coefficient lower_comms upper_comms;
      analyze_pairs communities rest
        (dict_set hierarchy_ratings (pair_key lower_res upper_res) ratings)
  end.

Definition analyze_hierarchy (communities : gmap Qc (list (gset string)))
    (resolutions : option (list Qc)) : result (Dict ratings) :=
  let resolutions := default (sorted_keys communities) resolutions in
  analyze_pairs communities (resolution_pairs resolutions) [].

(** [values if isinstance(values, str) else
     (sum(values) / len(values) if values else 0)], the sum and the
    quotient taken exactly. *)
Definition average_of (values : ratings) : average :=
  match values with
  | Sentinel msg => AvgStr msg
  | Ratings [] => AvgNum 0%Q
  | Ratings scores =>
      AvgNum (foldl Qplus 0 scores / inject_Z (Z.of_nat (length scores)))%Q
  end.

(** [[len(communities[x]) for x in xs]] *)
Fixpoint community_counts (communities : gmap Qc (list (gset string)))
    (xs : list Qc) : result (list nat) :=
  match xs with
  | [] => Ok []
  | x :: rest =>
      comms ← getitem KeyFloat communities x;
      counts ← community_counts communities rest;
      Ok (length comms :: counts)
  end.

(** [resolutions[:-1]] *)
Definition all_but_last (resolutions : list Qc) : list Qc :=
  take (length resolutions - 1) resolutions.

(** The frame built from the averages, then the two assignments of a
    column: on a frame without rows a non-empty column creates the rows,
    otherwise the lengths must agree. *)
Definition create_hierarchy_dataframe (hierarchy_ratings : Dict ratings)
    (communities : gmap Qc (list (gset string)))
    (resolutions : option (list Qc)) : result (list ReportRow) :=
  let resolutions := default (sorted_keys communities) resolutions in
  let averages :=
    foldl (λ d '(key, values), dict_set d key (average_of values))
          [] hierarchy_ratings in
  uppers ← community_counts communities (all_but_last resolutions);
  lowers ← community_counts communities (tail resolutions);
  match averages with
  | [] =>
      Ok (zip_with (λ u l, {| Keys := None; Averages := None;
                              ncomms_upper := u; ncomms_lower := l |})
                   uppers lowers)
  | _ =>
      if decide (length uppers = length averages) then
        Ok (zip_with (λ '(key, avg) '(u, l),
                        {| Keys := Some key; Averages := Some avg;
                           ncomms_upper := u; ncomms_lower := l |})
                     averages (zip uppers lowers))
      else Raise ValueError
  end.

(** [run_hierarchy_analysis] once the communities are loaded. *)
Definition run_hierarchy_analysis
    (communities : gmap Qc (list (gset string)))
    (resolutions : option (list Qc)) : result (list ReportRow) :=
  let resolutions := default (sorted_keys communities) resolutions in
  hierarchy_ratings ← analyze_hierarchy communities (Some resolutions);
  create_hierarchy_dataframe hierarchy_ratings communities
    (Some resolutions).
End analyser.

End HierarchyAnalyser.

(** ** get_communities.py: the hierarchy part of the standalone script *)
Module GetCommunities.
Import GraphBuilder HierarchyAnalyser.

Section script.
Variable set_iter : gset string → list string.
Variable str_float : Qc → string.

(** The loop over the pairs of one community; [v2 in s] is a
    [TypeError] when [s] is [None]. *)
Fixpoint count_same_set (upper_comms : list (gset string))
    (verb_pairs : list (string * string)) : result nat :=
  match verb_pairs with
  | [] => Ok 0
  | (v1, v2) :: rest =>
      match find_set_containing_string upper_comms v1 with
      | None => Raise TypeError
      | Some s =>
          n ← count_same_set upper_comms rest;
          Ok (if decide (v2 ∈ s) then S n else n)
      end
  end.

Fixpoint communities_ratings (upper_comms lower_comms
    : list (gset string)) : result (list Q) :=
  match lower_comms with
  | [] => Ok []
  | community :: rest =>
      let comm := set_iter community in
      if decide (comm ≠ [] ∧ length comm ≠ 1) then
        let verb_pairs := combinations2 comm in
        count ← count_same_set upper_comms verb_pairs;
        score ← truediv (Z.of_nat count) (Z.of_nat (length verb_pairs));
        scores ← communities_ratings upper_comms rest;
        Ok (score :: scores)
      else communities_ratings upper_comms rest
  end.

(** The body of [for upper_res, lower_res in tuples]: the key and the
    value stored in [hierarchy_ratings]. *)
Definition hierarchy_entry (new_comms : gmap Qc (list (gset string)))
    (tuple : Qc * Qc) : result (string * ratings) :=
  let '(upper_res, lower_res) := tuple in
  lower_comms ← getitem KeyFloat new_comms lower_res;
  upper_comms ← getitem KeyFloat new_comms upper_res;
  let key := str_float lower_res +:+ "_" +:+ str_float upper_res in
  if decide (Forall (λ s, size s = 1) lower_comms)
  then Ok (key, Sentinel "Every lexeme in its own community")
  else
    scores ← communities_ratings upper_comms lower_comms;
    Ok (key, Ratings scores).
End script.

End GetCommunities.

(** ** make_graphs.py: the grouping of slots *)
Module MakeGraphs.

(** The body of the loop of [find_consecutive_sets]: the state is
    [consecutive_sets] and [current_set]; [current_set[-1]] is read only
    when [current_set] is not empty. *)
Definition consecutive_step (st : list (list Z) * list Z) (number : Z)
    : list (list Z) * list Z :=
  let '(consecutive_sets, current_set) := st in
  match last current_set with
  | None => (consecutive_sets, current_set ++ [number])
  | Some l =>
      if decide (number = l + 1)%Z
      then (consecutive_sets, current_set ++ [number])
      else (consecutive_sets ++ [current_set], [number])
  end.

(** [lst.sort()], the loop, then the last group if it has elements. *)
Definition find_consecutive_sets (lst : list Z) : list (list Z) :=
  let lst := merge_sort Z.le lst in
  let '(consecutive_sets, current_set) :=
    foldl consecutive_step ([], []) lst in
  if decide (current_set = []) then consecutive_sets
  else consecutive_sets ++ [current_set].

End MakeGraphs.

(** * Vocabulary of the statements *)

Import Utils GraphBuilder CommunityDetector HierarchyAnalyser GetCommunities.
Import MakeGraphs.

(** ** Triphones *)

(** The input framed by one boundary marker on each side. *)
Definition padded (input_str : string) : string := "#" +:+ input_str +:+ "#".

(** ** Hierarchy scores *)

(** Two lexemes are co-located in a partition when the first of its sets
    that contains the first lexeme also contains the second; a lexeme that
    no set contains is co-located with nothing. *)
Definition co_located (coarser : list (gset string)) (v1 v2 : string) : Prop :=
  match list_find (λ s, v1 ∈ s) coarser with
  | Some (_, s) => v2 ∈ s
  | None => False
  end.

#[global] Instance co_located_dec coarser v1 v2 :
  Decision (co_located coarser v1 v2).
Proof. unfold co_located. destruct (list_find _ _) as [[? ?]|]; apply _. Defined.

(** The unordered pairs of distinct members of a community: a list that
    holds every such pair once, in one of its two orientations. *)
Definition enumerates_pairs (C : gset string) (pairs : list (string * string))
    : Prop :=
  NoDup pairs ∧
  (∀ a b, (a, b) ∈ pairs → a ∈ C ∧ b ∈ C ∧ a ≠ b ∧ (b, a) ∉ pairs) ∧
  (∀ a b, a ∈ C → b ∈ C → a ≠ b → (a, b) ∈ pairs ∨ (b, a) ∈ pairs) ∧
  length pairs = size C * (size C - 1) / 2.

(** The score of a community iterated in [order]:
    over the unordered pairs of its distinct members, each taken with the
    member that comes earlier in [order] first, the co-located ones divided
    by all. *)
Definition is_score (coarser : list (gset string)) (order : list string)
    (C : gset string) (score : Q) : Prop :=
  ∃ pairs,
    enumerates_pairs C pairs ∧
    (∀ a b, (a, b) ∈ pairs ↔
            ∃ i j, i < j ∧ order !! i = Some a ∧ order !! j = Some b) ∧
    0 < length pairs ∧
    score = (Z.of_nat (length (filter (λ p, co_located coarser p.1 p.2) pairs))
             # Pos.of_nat (length pairs)) ∧
    (0 <= score)%Q ∧ (score <= 1)%Q.

(** The value the analyser stores for a pair of resolutions. *)
Definition rating_of (set_iter : gset string → list string)
    (communities : gmap Qc (list (gset string))) (pair : Qc * Qc) : ratings :=
  match calculate_hierarchy_coefficient set_iter
          (default [] (communities !! pair.1))
          (default [] (communities !! pair.2)) with
  | Ok r => r
  | Raise _ => Ratings []
  end.

(** ** Partitions *)

(** No two entries of the list, at different positions, share a member. *)
Definition pairwise_disjoint (comms : list (gset string)) : Prop :=
  ∀ i j s t, i ≠ j → comms !! i = Some s → comms !! j = Some t → s ## t.

(** ** Tags and their ordinals *)

(** The characters of a decimal numeral. *)
Definition is_digit (c : ascii) : bool :=
  bool_decide (c ∈ ["0"; "1"; "2"; "3"; "4"; "5"; "6"; "7"; "8"; "9"]%char).

(** How often [e] occurs in a list. *)
Definition occurrences (e : string) (l : list string) : nat :=
  length (filter (λ x, x = e) l).

(** The tag given to an occurrence of [e] that [k] occurrences precede. *)
Definition ordinal_tag (e : string) (k : nat) : string :=
  if decide (k = 0) then e else e +:+ "_" +:+ str_of_nat k.

(** The part of a string before its last ["_"]. *)
Fixpoint strip_ordinal (s : string) : string :=
  match s with
  | EmptyString => EmptyString
  | String c s' =>
      if str_contains "_" s' then String c (strip_ordinal s')
      else if decide (c = "_"%char) then EmptyString else s
  end.

(** No tag of the list is another tag of the list followed by an ordinal
    that the indexing hands out for it. *)
Definition no_clash (exps : list string) : Prop :=
  ∀ e k, 1 ≤ k → k < occurrences e exps →
         e +:+ "_" +:+ str_of_nat k ∉ exps.

(** A check of [no_clash] that can be run. *)
Definition no_clash_check (exps : list string) : bool :=
  forallb (λ e,
    forallb (λ k, negb (bool_decide (k < occurrences e exps))
                  || negb (bool_decide (e +:+ "_" +:+ str_of_nat k ∈ exps)))
            (seq 1 (length exps)))
    exps.

(** ** Edges and counts *)

(** [tag] is a triphone of an exponent that the builder reads in the cell
    of [lex] in column [col], tagged with that column. *)
Definition tag_source (df : DataFrame) (lex tag col : string)
    (cell : Cell) : Prop :=
  ∃ row exponent tri,
    (lex, row) ∈ df_rows df ∧ col ∈ df_columns (drop_stem df) ∧
    row !! col = Some cell ∧ is_nan_text cell = false ∧
    exponent ∈ cell_exponents cell ∧
    tri ∈ generate_triphones exponent ∧ tag = tri +:+ "-" +:+ col.

(** [tag] is a triphone of an exponent that the table lists for [lex] in
    column [col], tagged with that column. *)
Definition tag_origin (df : DataFrame) (lex tag col : string)
    (cell : list string) : Prop :=
  ∃ row exponent tri,
    (lex, row) ∈ df_rows df ∧ col ∈ df_columns (drop_stem df) ∧
    row !! col = Some (CellList cell) ∧ exponent ∈ cell ∧
    tri ∈ generate_triphones exponent ∧ tag = tri +:+ "-" +:+ col.

(** Every cell outside the stem columns is a list of exponents or
    [NaN]: the loader left no text unparsed. *)
Definition list_cells (df : DataFrame) : Prop :=
  ∀ lex row col text,
    (lex, row) ∈ df_rows df → col ∈ df_columns (drop_stem df) →
    row !! col ≠ Some (CellStr text).

(** No cell column has one of the two labels that the reshaping of the
    table uses for columns of its own. *)
Definition no_reserved_label (df : DataFrame) : Prop :=
  "lexeme" ∉ df_columns (drop_stem df) ∧ "value" ∉ df_columns (drop_stem df).

(** The labels of the cell columns hold neither ["-"] nor ["_"], and no
    exponent holds ["-"]: the tags can then be taken apart again. *)
Definition separable (df : DataFrame) : Prop :=
  (∀ col, col ∈ df_columns (drop_stem df) →
     str_contains "-" col = false ∧ str_contains "_" col = false) ∧
  (∀ lex row col cell exponent,
     (lex, row) ∈ df_rows df → col ∈ df_columns (drop_stem df) →
     row !! col = Some (CellList cell) → exponent ∈ cell →
     str_contains "-" exponent = false).

(** The property of one weighted edge: it comes from a cell of its
    lexeme, the label of that cell is the one recovered from its tag, and
    its weight is one over the number of exponents listed in that cell. *)
Definition edge_spec (df : DataFrame) (edge : Edge) : Prop :=
  let '(lex, tag, weight) := edge in
  ∃ col cell e k q,
    tag_origin df lex e col cell ∧ tag = ordinal_tag e k ∧
    recover_cell tag = Ok col ∧
    weight = FVal q ∧ (q == 1 # Pos.of_nat (length cell))%Q ∧
    (0 < q)%Q ∧ (q <= 1)%Q ∧
    (NoDup cell → length cell = size (list_to_set cell : gset string)).

(** The lookup of the count of [cell] for [lexeme] fails with [e]: the
    lexeme or the cell label is missing from the table, or the count is
    zero. *)
Definition lookup_fails (weights_dict : gmap string (gmap string pyfloat))
    (lexeme cell : string) (e : exn) : Prop :=
  (weights_dict !! lexeme = None ∧ e = KeyError (KeyStr lexeme)) ∨
  (∃ per_lexeme, weights_dict !! lexeme = Some per_lexeme ∧
     (per_lexeme !! cell = None ∧ e = KeyError (KeyStr cell) ∨
      ∃ q, per_lexeme !! cell = Some (FVal q) ∧ (q == 0)%Q ∧
           e = ZeroDivisionError)).

(** The weight of an edge is the reciprocal of the count found for it. *)
Definition weight_found (weights_dict : gmap string (gmap string pyfloat))
    (edge : Edge) : Prop :=
  let '(lexeme, tag, weight) := edge in
  ∃ cell per_lexeme count,
    recover_cell tag = Ok cell ∧
    weights_dict !! lexeme = Some per_lexeme ∧
    per_lexeme !! cell = Some count ∧
    (count = FNaN ∧ weight = FNaN ∨
     ∃ q, count = FVal q ∧ ¬ (q == 0)%Q ∧ weight = FVal (1 / q)%Q).

(** The edges before the failing one all get a weight. *)
Definition all_weighted (weights_dict : gmap string (gmap string pyfloat))
    (edges : list (string * string)) : Prop :=
  ∀ e, e ∈ edges →
    ∃ cell w, recover_cell e.2 = Ok cell ∧
              edge_weight weights_dict e.1 cell = Ok w.

(** ** Example inputs *)

(** Scenario B of the specification: a second lexeme with two exponents. *)
Definition scenario_b : DataFrame :=
  {| df_columns := ["stem"; "NOM.SG"];
     df_rows := [("L1", list_to_map [("stem", CellList ["x"]);
                                     ("NOM.SG", CellList ["a"])]);
                 ("L2", list_to_map [("stem", CellList ["x"]);
                                     ("NOM.SG", CellList ["a"; "b"])])] |}.

(** Scenario C of the specification: one community at the lower
    resolution, singletons at the upper one. *)
Definition scenario_c : gmap Qc (list (gset string)) :=
  <[Q2Qc 0 := [{["a"; "b"]}]]> (<[Q2Qc 1 := [{["a"]}; {["b"]}]]> ∅).

(** Two lexemes that share one tagged triphone. *)
Definition toy_graph : Graph :=
  {| g_nodes := list_to_map [("L1", Some 0%Z); ("L2", Some 0%Z);
                             ("#a#-NOM.SG", Some 1%Z)];
     g_adj := list_to_map [(("L1", "#a#-NOM.SG"), FVal 1);
                           (("#a#-NOM.SG", "L1"), FVal 1);
                           (("L2", "#a#-NOM.SG"), FVal 1);
                           (("#a#-NOM.SG", "L2"), FVal 1)] |}.

(** A clustering primitive for examples: one community of all nodes. *)
Definition one_cluster (graph : Graph) (res : Qc) (call : nat)
    : list (gset string) :=
  [dom (g_nodes graph)].

(** A clustering primitive for examples: all nodes of the toy graph in
    one community at resolution 0, each in its own community at every
    other resolution. *)
Definition two_levels (graph : Graph) (res : Qc) (call : nat)
    : list (gset string) :=
  if decide (res = Q2Qc 0) then [{["L1"; "L2"; "#a#-NOM.SG"]}]
  else [{["L1"]}; {["#a#-NOM.SG"]}; {["L2"]}].

(** What the detector returns for the toy graph clustered by
    [two_levels] at the resolutions 0 and 1. *)
Definition two_levels_comms : gmap Qc (list (gset string)) :=
  <[Q2Qc 0 := [{["L1"; "L2"]}]]> (<[Q2Qc 1 := [{["L1"]}; {["L2"]}]]> ∅).

(** A table with a column whose label is another label followed by ["_1"]:
    the second tag of ["NOM"] is indexed into the tag of ["NOM_1"]. *)
Definition clash_df : DataFrame :=
  {| df_columns := ["stem"; "NOM"; "NOM_1"];
     df_rows := [("L1", list_to_map [("stem", CellList ["s"]);
                                     ("NOM", CellList ["x"; "x"]);
                                     ("NOM_1", CellList ["x"])])] |}.

(** A cell that lists an exponent twice. *)
Definition repeated_exponent : DataFrame :=
  {| df_columns := ["NOM.SG"];
     df_rows := [("L1", list_to_map [("NOM.SG", CellList ["y"; "y"])])] |}.

(** A label that is another label followed by ["_"] and more. *)
Definition underscore_label : DataFrame :=
  {| df_columns := ["NOM"; "NOM_PL"];
     df_rows := [("L0", list_to_map [("NOM_PL", CellList ["x"])]);
                 ("L1", list_to_map [("NOM", CellList ["y"])])] |}.

(** A lexeme identifier on two rows. *)
Definition repeated_lexeme : DataFrame :=
  {| df_columns := ["NOM.SG"];
     df_rows := [("L1", list_to_map [("NOM.SG", CellList ["x"])]);
                 ("L1", list_to_map [("NOM.SG", CellList ["y"; "z"])])] |}.

(** A cell that the loader left as a text: the builder reads its
    characters as exponents, and the table of counts has no length for
    it. *)
Definition text_cell : DataFrame :=
  {| df_columns := ["NOM.SG"];
     df_rows := [("L1", list_to_map [("NOM.SG", CellStr "ab")]);
                 ("L2", list_to_map [("NOM.SG", CellList ["a"])])] |}.

(** An exponent written with a hyphen: the label recovered from the tag
    of its first triphone is ["s"], no column, and the build stops there. *)
Definition hyphen_exponent : DataFrame :=
  {| df_columns := ["NOM.SG"];
     df_rows := [("L1", list_to_map [("NOM.SG", CellList ["a"])]);
                 ("L2", list_to_map [("NOM.SG", CellList ["-s"])])] |}.

(** ** Consecutive slots *)

(** Every number of the group is the one before it plus one. *)
Definition is_run (g : list Z) : Prop :=
  ∀ i x y, g !! i = Some x → g !! S i = Some y → y = (x + 1)%Z.

(** A group does not go on into the next: the first number of the next
    group is not the last number of the group plus one. *)
Definition separated (groups : list (list Z)) : Prop :=
  ∀ k g h, groups !! k = Some g → groups !! S k = Some h →
    ∃ x y, last g = Some x ∧ head h = Some y ∧ y ≠ (x + 1)%Z.

(** ** Triphones spelled out *)

(** The last character of a string, as a string. *)
Definition last_char (t : string) : string :=
  String.substring (String.length t - 1) 1 t.

(** The string that a list of overlapping triphones spells: the first
    one, then the last character of each of the others. *)
Definition spelled (triphones : list string) : string :=
  match triphones with
  | [] => ""
  | t :: rest => foldl (λ acc u, acc +:+ last_char u) t rest
  end.

(** ** Rows of the table *)

(** The cell of a row in a column when the builder reads it: not [NaN]
    and not the text ["nan"]. *)
Definition live_cell (row : Row) (col : string) : option Cell :=
  cell ← row !! col; if is_nan_text cell then None else Some cell.

(** A row has a cell that the builder reads in at least one of the
    columns. *)
Definition has_cell (cols : list string) (row : Row) : Prop :=
  Exists (λ col, is_Some (live_cell row col)) cols.

(** A row has a list of exponents in at least one of the columns: it
    has a length in the table of counts. *)
Definition has_list (cols : list string) (row : Row) : Prop :=
  Exists (λ col, is_Some (row !! col ≫= cell_length)) cols.

(** The tagged triphones of a row: column by column, exponent by
    exponent, triphone by triphone. *)
Definition row_tags (cols : list string) (row : Row) : list string :=
  col ← cols;
  from_option (λ cell, cell_tagged col (cell_exponents cell)) []
              (live_cell row col).

(** ** The graph that the builder returns *)

(** The graph of a table, when the builder returns one. *)
Definition built_graph (df : DataFrame) : option Graph :=
  match (create_bipartite_graph df).1 with
  | Ok B => Some B
  | Raise _ => None
  end.

(** The graph built from scenario B. *)
Definition scenario_b_graph : Graph :=
  default {| g_nodes := ∅; g_adj := ∅ |} (built_graph scenario_b).

(** ** Calls of the clustering *)

(** The call of rank [call] is the last one of the run at [res]. *)
Definition last_call (resolutions : list Qc) (res : Qc) (call : nat) : Prop :=
  resolutions !! call = Some res ∧
  ∀ j, call < j → resolutions !! j ≠ Some res.

(** ** Nesting and averages *)

(** A community lies inside one set of the coarser partition. *)
Definition nested_in (coarser : list (gset string)) (C : gset string) : Prop :=
  ∃ s, s ∈ coarser ∧ C ⊆ s.

(** A score or an average between 0 and 1. *)
Definition in_unit_interval (q : Q) : Prop := (0 <= q)%Q ∧ (q <= 1)%Q.

(** ** The report *)

(** The rows of the report for a sweep over [resolutions]: one for each
    pair of neighbours, with the key of the pair, the average of its
    value, and the two counts as the code fills them. *)
Definition report_of (set_iter : gset string → list string)
    (str_float : Qc → string) (communities : gmap Qc (list (gset string)))
    (resolutions : list Qc) (rows : list ReportRow) : Prop :=
  length rows = length resolutions - 1 ∧
  ∀ i lower_res upper_res,
    resolutions !! i = Some lower_res →
    resolutions !! S i = Some upper_res →
    ∃ lower_comms upper_comms r,
      communities !! lower_res = Some lower_comms ∧
      communities !! upper_res = Some upper_comms ∧
      calculate_hierarchy_coefficient set_iter lower_comms upper_comms
        = Ok r ∧
      rows !! i
      = Some {| Keys := Some (str_float lower_res +:+ "_"
                              +:+ str_float upper_res);
                Averages := Some (average_of r);
                ncomms_upper := length lower_comms;
                ncomms_lower := length upper_comms |}.

(** ** The standalone script *)

(** A community of more than one lexeme has a pair whose first lexeme,
    in the order of iteration, is in no set of the other partition. *)
Definition uncovered_pair (set_iter : gset string → list string)
    (upper_comms lower_comms : list (gset string)) : Prop :=
  ∃ C p, C ∈ lower_comms ∧ 1 < size C ∧ p ∈ combinations2 (set_iter C) ∧
         ∀ s, s ∈ upper_comms → p.1 ∉ s.

(** ** Counting triphones *)

(** The number of triphones of an exponent: one for each character, and
    one for the empty exponent. *)
Definition triphone_count (exponent : string) : nat :=
  Nat.max 1 (String.length exponent).

(** The number of triphones of the exponents of a row. *)
Definition row_triphone_count (cols : list string) (row : Row) : nat :=
  sum_list (col ← cols;
            triphone_count <$> from_option cell_exponents [] (live_cell row col)).

(** * Properties *)

(** ** Strings *)
Section strings.
Implicit Types (s t : string) (c : ascii).

Lemma str_length_app s t :
  String.length (s +:+ t) = String.length s + String.length t.
Proof. induction s as [|c s IH]; simpl; [done|]. by rewrite IH. Qed.

Lemma str_length_substring s i m :
  i + m ≤ String.length s → String.length (String.substring i m s) = m.
Proof.
  revert i m. induction s as [|c s IH]; intros [|i] [|m]; simpl;
    intros Hlen; try done; try lia.
  - f_equal. apply (IH 0 m). lia.
  - apply (IH i 0). lia.
  - apply (IH i (S m)). lia.
Qed.

Lemma str_get_substring s i m k :
  k < m → String.get k (String.substring i m s) = String.get (i + k) s.
Proof.
  revert i m k. induction s as [|c s IH]; intros [|i] [|m] [|k]; simpl;
    intros Hk; try done; try lia.
  - apply (IH 0 m k). lia.
  - apply (IH i (S m) 0). lia.
  - apply (IH i (S m) (S k)). lia.
Qed.
End strings.

(** ** The triphone encoder *)

Lemma length_padded input_str :
  String.length (padded input_str) = String.length input_str + 2.
Proof. unfold padded. rewrite !str_length_app. simpl. lia. Qed.

(** C3. [generate_triphones] is a total function of its input. With the
    input framed by one ["#"] on each side: when the framed string has at
    most three characters the result is that string alone; otherwise the
    result has (framed length - 2) entries and its [i]-th entry is the
    three-character substring that starts at position [i]. The empty input
    yields ["##"] alone. *)
Theorem generate_triphones_spec (input_str : string) :
  String.length (padded input_str) = String.length input_str + 2 ∧
  (String.length (padded input_str) ≤ 3 →
     generate_triphones input_str = [padded input_str]) ∧
  (3 < String.length (padded input_str) →
     length (generate_triphones input_str)
       = String.length (padded input_str) - 2 ∧
     ∀ i, i < String.length (padded input_str) - 2 →
       ∃ t, generate_triphones input_str !! i = Some t ∧
            t = String.substring i 3 (padded input_str) ∧
            String.length t = 3 ∧
            ∀ k, k < 3 → String.get k t = String.get (i + k) (padded input_str)) ∧
  generate_triphones "" = ["##"].
Proof.
  split; [apply length_padded|]. unfold generate_triphones. fold (padded input_str).
  split; [|split]; [| |done].
  - intros Hle. by rewrite decide_True.
  - intros Hlt. rewrite decide_False by lia.
    split; [by rewrite length_fmap, length_seq|].
    intros i Hi. exists (String.substring i 3 (padded input_str)).
    split; [|split; [done|split]].
    + rewrite list_lookup_fmap, lookup_seq_lt by done. simpl.
      unfold str_slice. by replace (i + 3 - i) with 3 by lia.
    + apply str_length_substring. lia.
    + intros k Hk. by apply str_get_substring.
Qed.

(** ** Pairs of a list, as [itertools.combinations] enumerates them *)
Section combinations.
Context {A : Type}.
Implicit Types (l : list A) (a b x : A).

Lemma elem_of_combinations2_cons x l a b :
  (a, b) ∈ combinations2 (x :: l) ↔
  (a = x ∧ b ∈ l) ∨ (a, b) ∈ combinations2 l.
Proof.
  simpl. rewrite elem_of_app, list_elem_of_fmap. split.
  - intros [(y & [= -> ->] & Hy)|H]; auto.
  - intros [[-> Hb]|H]; eauto.
Qed.

Lemma elem_of_combinations2 l a b :
  (a, b) ∈ combinations2 l → a ∈ l ∧ b ∈ l.
Proof.
  induction l as [|x l IH]; [by intros ?%elem_of_nil|].
  rewrite elem_of_combinations2_cons. intros [[-> Hb]|H].
  - split; [left | by right].
  - destruct (IH H). split; by right.
Qed.

Lemma combinations2_total l a b :
  a ∈ l → b ∈ l → a ≠ b →
  (a, b) ∈ combinations2 l ∨ (b, a) ∈ combinations2 l.
Proof.
  induction l as [|x l IH]; [by intros ?%elem_of_nil|].
  rewrite !elem_of_cons, !elem_of_combinations2_cons.
  intros [->|Ha] [->|Hb] Hne; try done; auto.
  destruct (IH Ha Hb Hne); auto.
Qed.

Lemma combinations2_oriented l a b :
  NoDup l → (a, b) ∈ combinations2 l → a ≠ b ∧ (b, a) ∉ combinations2 l.
Proof.
  induction 1 as [|x l Hx Hl IH]; [by intros ?%elem_of_nil|].
  rewrite !elem_of_combinations2_cons. intros [[-> Hb]|H].
  - split; [by intros <-|]. intros [[-> _]|H]; [done|].
    by apply elem_of_combinations2 in H as [_ ?].
  - destruct (IH H) as [Hne Hba]. split; [done|].
    intros [[-> _]|H']; [|done].
    by apply elem_of_combinations2 in H as [_ ?].
Qed.

Lemma NoDup_combinations2 l : NoDup l → NoDup (combinations2 l).
Proof.
  induction 1 as [|x l Hx Hl IH]; simpl; [constructor|].
  apply NoDup_app. split; [|split; [|done]].
  - apply (NoDup_fmap_2 _). done.
  - intros [a b] (y & [= -> ->] & Hy)%list_elem_of_fmap H.
    by apply elem_of_combinations2 in H as [? _].
Qed.

Lemma elem_of_combinations2_lookup l a b :
  (a, b) ∈ combinations2 l ↔
  ∃ i j, i < j ∧ l !! i = Some a ∧ l !! j = Some b.
Proof.
  induction l as [|x l IH].
  - split; [by intros ?%elem_of_nil|]. by intros (i & j & _ & ? & _).
  - rewrite elem_of_combinations2_cons, IH. split.
    + intros [[-> [j Hj]%list_elem_of_lookup]|(i & j & Hij & Hi & Hj)].
      * exists 0, (S j). split; [lia|done].
      * exists (S i), (S j). split; [lia|done].
    + intros ([|i] & [|j] & Hij & Hi & Hj); simplify_eq/=; try lia.
      * left. split; [done|]. by eapply list_elem_of_lookup_2.
      * right. exists i, j. split; [lia|done].
Qed.

Lemma length_combinations2_double l :
  2 * length (combinations2 l) = length l * (length l - 1).
Proof.
  induction l as [|x l IH]; simpl; [done|].
  rewrite length_app, length_fmap. nia.
Qed.

Lemma length_combinations2 l :
  length (combinations2 l) = length l * (length l - 1) / 2.
Proof.
  rewrite <-length_combinations2_double.
  by rewrite Nat.mul_comm, Nat.div_mul.
Qed.
End combinations.

(** ** The hierarchy coefficient *)

Lemma find_set_containing_string_list_find list_of_sets x :
  find_set_containing_string list_of_sets x
  = snd <$> list_find (λ s, x ∈ s) list_of_sets.
Proof.
  induction list_of_sets as [|s l IH]; simpl; [done|].
  destruct (decide (x ∈ s)); [done|].
  rewrite IH. by destruct (list_find _ l) as [[? ?]|].
Qed.

Lemma find_set_containing_string_Some list_of_sets x s :
  find_set_containing_string list_of_sets x = Some s → x ∈ s ∧ s ∈ list_of_sets.
Proof.
  induction list_of_sets as [|s' l IH]; simpl; [done|].
  destruct (decide (x ∈ s')).
  - intros [= <-]. split; [done|left].
  - intros [? ?]%IH. split; [done|by right].
Qed.

Lemma find_set_containing_string_None list_of_sets x :
  find_set_containing_string list_of_sets x = None ↔
  ∀ s, s ∈ list_of_sets → x ∉ s.
Proof.
  induction list_of_sets as [|s' l IH]; simpl.
  - split; [by intros _ s ?%elem_of_nil|done].
  - destruct (decide (x ∈ s')).
    + split; [done|]. intros H. destruct (H s'); [left|done].
    + rewrite IH. split.
      * intros Hl s [->|?]%elem_of_cons; auto.
      * intros Hl s Hs. apply Hl. by right.
Qed.

Lemma same_set_co_located lower p :
  same_set lower p ↔ co_located lower p.1 p.2.
Proof.
  unfold same_set, co_located.
  destruct (find_set_containing_string lower p.1) as [s|] eqn:Hfind.
  - pose proof (find_set_containing_string_Some _ _ _ Hfind) as [Hin _].
    rewrite find_set_containing_string_list_find in Hfind.
    destruct (list_find _ lower) as [[i s']|]; simplify_eq/=.
    rewrite andb_True, !bool_decide_spec. split; [by intros [_ ?]|].
    intros Hin'. split; [|done]. intros ->. by apply not_elem_of_empty in Hin.
  - rewrite find_set_containing_string_list_find in Hfind.
    by destruct (list_find _ lower) as [[i s']|].
Qed.

Lemma co_located_uncovered coarser v1 v2 :
  (∀ s, s ∈ coarser → v1 ∉ s) → ¬ co_located coarser v1 v2.
Proof.
  intros Hnone. unfold co_located.
  destruct (list_find _ coarser) as [[i s]|] eqn:Hfind; [|tauto].
  apply list_find_Some in Hfind as (Hs & Hin & _).
  intros _. eapply Hnone; [|done]. by eapply list_elem_of_lookup_2.
Qed.

Lemma truediv_nat (a n : nat) :
  0 < n →
  truediv (Z.of_nat a) (Z.of_nat n) = Ok (Z.of_nat a # Pos.of_nat n).
Proof.
  intros Hn. destruct n as [|n]; [lia|].
  unfold truediv. simpl Z.of_nat at 2. do 2 f_equal. lia.
Qed.

Lemma ratio_bounds (a n : nat) :
  a ≤ n → 0 < n →
  (0 <= Z.of_nat a # Pos.of_nat n)%Q ∧ (Z.of_nat a # Pos.of_nat n <= 1)%Q.
Proof.
  intros Ha Hn. unfold Qle. simpl. split; [lia|].
  rewrite Z.mul_1_r. rewrite <-(Nat2Pos.id n) in Ha by lia.
  rewrite <-positive_nat_Z. lia.
Qed.

Section hierarchy.
Variable set_iter : gset string → list string.
Hypothesis set_iter_enumerates : ∀ s, set_iter s ≡ₚ elements s.

Lemma set_iter_length s : length (set_iter s) = size s.
Proof. by rewrite set_iter_enumerates. Qed.

Lemma set_iter_NoDup s : NoDup (set_iter s).
Proof. rewrite set_iter_enumerates. apply NoDup_elements. Qed.

Lemma elem_of_set_iter s x : x ∈ set_iter s ↔ x ∈ s.
Proof. rewrite set_iter_enumerates. apply elem_of_elements. Qed.

Lemma combinations2_enumerates C :
  enumerates_pairs C (combinations2 (set_iter C)).
Proof.
  split; [|split; [|split]].
  - apply NoDup_combinations2, set_iter_NoDup.
  - intros a b Hab.
    destruct (combinations2_oriented _ _ _ (set_iter_NoDup C) Hab).
    apply elem_of_combinations2 in Hab as [? ?].
    by rewrite <-!elem_of_set_iter.
  - intros a b Ha Hb. apply combinations2_total; by rewrite elem_of_set_iter.
  - by rewrite length_combinations2, set_iter_length.
Qed.

Lemma community_score_ok lower C :
  1 < size C →
  ∃ score, community_score set_iter lower C = Ok score ∧
           is_score lower (set_iter C) C score.
Proof.
  intros Hsize. unfold community_score.
  set (pairs := combinations2 (set_iter C)).
  assert (0 < length pairs) as Hpos.
  { unfold pairs. pose proof (length_combinations2_double (set_iter C)).
    rewrite set_iter_length in *. nia. }
  rewrite truediv_nat by done. eexists. split; [done|].
  exists pairs. split; [apply combinations2_enumerates|].
  split; [intros a b; apply elem_of_combinations2_lookup|]. split; [done|].
  rewrite (list_filter_iff _ (λ p, co_located lower p.1 p.2))
    by (intros p; apply same_set_co_located).
  split; [done|]. apply ratio_bounds; [apply length_filter|done].
Qed.

Lemma community_ratings_ok lower upper :
  ∃ scores, community_ratings set_iter lower upper = Ok scores ∧
    Forall2 (λ C, is_score lower (set_iter C) C)
            (filter (λ C, 1 < size C) upper) scores.
Proof.
  induction upper as [|C upper (scores & IH & Hscores)]; simpl.
  - exists []. split; [done|]. rewrite filter_nil. constructor.
  - rewrite filter_cons. destruct (decide (1 < size C)) as [Hsize|Hsize].
    + destruct (community_score_ok lower C Hsize) as (score & -> & Hscore).
      simpl. rewrite IH. simpl. exists (score :: scores).
      split; [done|]. by constructor.
    + by exists scores.
Qed.

(** C1. When the finer partition is not all singletons, the computation
    returns a list of scores, one for each community of the finer
    partition with more than one lexeme, in order. Each score is the
    number of unordered pairs of distinct lexemes of the community whose
    first lexeme (the one iterated earlier) has its first containing
    coarser set also containing the second, divided by the number of all
    such pairs, and lies between 0 and 1. A lexeme that no coarser set
    contains is co-located with nothing; it never makes the computation
    fail. *)
Theorem hierarchy_coefficient_scores (lower upper : list (gset string)) :
  ¬ Forall (λ s, size s = 1) upper →
  (∃ scores,
     calculate_hierarchy_coefficient set_iter lower upper
       = Ok (Ratings scores) ∧
     Forall2 (λ C, is_score lower (set_iter C) C)
             (filter (λ C, 1 < size C) upper) scores) ∧
  (∀ v1 v2, (∀ s, s ∈ lower → v1 ∉ s) → ¬ co_located lower v1 v2).
Proof.
  intros Hnot. split; [|apply co_located_uncovered].
  unfold calculate_hierarchy_coefficient. rewrite decide_False by done.
  destruct (community_ratings_ok lower upper) as (scores & -> & Hscores).
  by exists scores.
Qed.
End hierarchy.

(** C6. The computation returns the sentinel string exactly when every
    community of the upper partition has one member; whenever it returns a
    list of scores, some community has another size. *)
Theorem sentinel_iff_all_singletons (set_iter : gset string → list string)
    (lower upper : list (gset string)) :
  (calculate_hierarchy_coefficient set_iter lower upper
     = Ok (Sentinel "Every lexeme in its own community")
   ↔ Forall (λ s, size s = 1) upper) ∧
  (∀ msg, calculate_hierarchy_coefficient set_iter lower upper
            = Ok (Sentinel msg) → Forall (λ s, size s = 1) upper) ∧
  (∀ scores, calculate_hierarchy_coefficient set_iter lower upper
               = Ok (Ratings scores) → ¬ Forall (λ s, size s = 1) upper).
Proof.
  unfold calculate_hierarchy_coefficient.
  destruct (decide (Forall _ upper)) as [Hall|Hnot].
  - split; [done|]. split; [done|]. intros scores [=].
  - assert (∀ msg, Ratings <$> community_ratings set_iter lower upper
                   ≠ Ok (Sentinel msg)) as Hne.
    { intros msg. by destruct (community_ratings _ _ _). }
    split; [split; [by intros ?%Hne|done]|].
    split; [by intros msg ?%Hne|done].
Qed.

(** ** The standalone script against the analyser *)
Section script_vs_analyser.
Variable set_iter : gset string → list string.
Variable str_float : Qc → string.
Hypothesis set_iter_enumerates : ∀ s, set_iter s ≡ₚ elements s.

Lemma count_same_set_covered upper_comms verb_pairs :
  (∀ p, p ∈ verb_pairs → ∃ s, s ∈ upper_comms ∧ p.1 ∈ s) →
  count_same_set upper_comms verb_pairs
  = Ok (length (filter (λ p, same_set upper_comms p) verb_pairs)).
Proof.
  induction verb_pairs as [|[v1 v2] rest IH]; intros Hcov; simpl; [done|].
  destruct (Hcov (v1, v2)) as (s & Hs & Hv1); [left|].
  destruct (find_set_containing_string upper_comms v1) as [s'|] eqn:Hfind.
  - rewrite IH by (intros p Hp; apply Hcov; by right). simpl.
    assert (same_set upper_comms (v1, v2) ↔ v2 ∈ s') as Hsame.
    { unfold same_set. simpl. rewrite Hfind.
      apply find_set_containing_string_Some in Hfind as [Hin _].
      rewrite andb_True, !bool_decide_spec. split; [by intros [_ ?]|].
      intros ?. split; [|done]. intros ->. by apply not_elem_of_empty in Hin. }
    rewrite filter_cons.
    destruct (decide (v2 ∈ s')), (decide (same_set upper_comms (v1, v2)));
      simpl; tauto.
  - rewrite find_set_containing_string_None in Hfind. by destruct (Hfind s Hs).
Qed.

Lemma count_same_set_uncovered upper_comms verb_pairs p :
  p ∈ verb_pairs → (∀ s, s ∈ upper_comms → p.1 ∉ s) →
  count_same_set upper_comms verb_pairs = Raise TypeError.
Proof.
  intros Hp Hnone.
  induction verb_pairs as [|[v1 v2] rest IH]; [by apply elem_of_nil in Hp|].
  simpl. destruct (find_set_containing_string upper_comms v1) eqn:Hfind;
    [|done].
  apply elem_of_cons in Hp as [->|Hp].
  - apply find_set_containing_string_Some in Hfind as [? ?].
    by destruct (Hnone g).
  - by rewrite IH.
Qed.

Lemma script_guard C :
  set_iter C ≠ [] ∧ length (set_iter C) ≠ 1 ↔ 1 < size C.
Proof.
  rewrite <-(set_iter_length set_iter set_iter_enumerates).
  destruct (set_iter C) as [|? [|? ?]]; simpl; split; try lia; try tauto.
  intros _. split; [done|lia].
Qed.

Lemma communities_ratings_covered upper_comms lower_comms :
  (∀ C v, C ∈ lower_comms → 1 < size C → v ∈ C →
          ∃ s, s ∈ upper_comms ∧ v ∈ s) →
  communities_ratings set_iter upper_comms lower_comms
  = community_ratings set_iter upper_comms lower_comms.
Proof.
  induction lower_comms as [|C rest IH]; intros Hcov; simpl; [done|].
  rewrite IH by (intros C' v ?; apply Hcov; by right).
  destruct (decide (1 < size C)) as [Hsize|Hsize].
  - rewrite decide_True by by apply script_guard.
    rewrite count_same_set_covered; [done|].
    intros [v1 v2] [Hv1 _]%elem_of_combinations2.
    apply (Hcov C); [left|done|].
    by apply (elem_of_set_iter set_iter set_iter_enumerates).
  - by rewrite decide_False by by rewrite script_guard.
Qed.

Lemma count_same_set_raises upper_comms verb_pairs e :
  count_same_set upper_comms verb_pairs = Raise e → e = TypeError.
Proof.
  induction verb_pairs as [|[v1 v2] rest IH]; simpl; [done|].
  destruct (find_set_containing_string upper_comms v1); [|congruence].
  destruct (count_same_set upper_comms rest); simpl; [done|].
  intros [= <-]. by apply IH.
Qed.

(** Without that coverage the loop of the script fails where the
    analyser counts a miss. *)
Lemma script_fails_on_uncovered_lexeme upper_comms lower_comms C p :
  C ∈ lower_comms → 1 < size C →
  p ∈ combinations2 (set_iter C) → (∀ s, s ∈ upper_comms → p.1 ∉ s) →
  communities_ratings set_iter upper_comms lower_comms = Raise TypeError.
Proof.
  intros HC Hsize Hp Hnone.
  induction lower_comms as [|C0 rest IH]; [by apply elem_of_nil in HC|].
  simpl. destruct (decide (set_iter C0 ≠ [] ∧ _)) as [Hguard|Hguard].
  - destruct (count_same_set upper_comms _) as [n|e] eqn:Hcount; simpl.
    + apply elem_of_cons in HC as [->|HC].
      { by erewrite count_same_set_uncovered in Hcount. }
      rewrite IH by done. rewrite truediv_nat; [done|].
      apply script_guard in Hguard.
      pose proof (length_combinations2_double (set_iter C0)).
      rewrite (set_iter_length set_iter set_iter_enumerates) in *. nia.
    + by rewrite (count_same_set_raises _ _ _ Hcount).
  - apply elem_of_cons in HC as [->|HC]; [|by apply IH].
    by apply script_guard in Hsize.
Qed.
End script_vs_analyser.

(** The scores for a coarser partition of one community and a finer one
    of two. *)
Lemma hierarchy_coefficient_scores_witness :
  (∃ scores,
     calculate_hierarchy_coefficient elements
       [{["a"; "b"; "c"]}] [{["a"; "b"]}; {["c"]}] = Ok (Ratings scores) ∧
     Forall2 (λ C, is_score [{["a"; "b"; "c"]}] (elements C) C)
       (filter (λ C, 1 < size C) [{["a"; "b"]}; {["c"]}]) scores) ∧
  (∀ v1 v2, (∀ s, s ∈ [({["a"; "b"; "c"]} : gset string)] → v1 ∉ s) →
            ¬ co_located [{["a"; "b"; "c"]}] v1 v2).
Proof.
  apply (hierarchy_coefficient_scores elements (λ s, reflexivity _)).
  intros [Hone _]%Forall_cons. vm_compute in Hone. discriminate.
Defined.

(** ** The community detector *)

Lemma pairwise_disjoint_cons s comms :
  pairwise_disjoint (s :: comms) ↔
  Forall (λ t, s ## t) comms ∧ pairwise_disjoint comms.
Proof.
  split.
  - intros Hdisj. split.
    + apply Forall_lookup. intros j t Hj. by apply (Hdisj 0 (S j)).
    + intros i j s' t' Hne Hi Hj. apply (Hdisj (S i) (S j)); [lia|done..].
  - intros [Hs Hdisj] [|i] [|j] s' t' Hne Hi Hj; simplify_eq/=.
    + by eapply (Forall_lookup_1 _ _ _ _ Hs).
    + symmetry. by eapply (Forall_lookup_1 _ _ _ _ Hs).
    + apply (Hdisj i j); [lia|done..].
Qed.

Lemma elem_of_lexeme_only lexemes comms s' :
  s' ∈ lexeme_only lexemes comms ↔
  ∃ s, s ∈ comms ∧ s' = s ∩ lexemes ∧ s' ≠ ∅.
Proof.
  unfold lexeme_only. rewrite list_elem_of_bind. split.
  - intros (s & Hs' & Hs). exists s. split; [done|].
    destruct (decide (s ∩ lexemes ≠ ∅)); [|by apply elem_of_nil in Hs'].
    by apply list_elem_of_singleton in Hs' as ->.
  - intros (s & Hs & -> & Hne). exists s. split; [|done].
    rewrite decide_True by done. left.
Qed.

Lemma lexeme_only_disjoint lexemes comms :
  pairwise_disjoint comms → pairwise_disjoint (lexeme_only lexemes comms).
Proof.
  induction comms as [|s comms IH]; [done|].
  rewrite pairwise_disjoint_cons. intros [Hs Hdisj].
  change (lexeme_only lexemes (s :: comms))
    with ((if decide (s ∩ lexemes ≠ ∅) then [s ∩ lexemes] else [])
            ++ lexeme_only lexemes comms).
  destruct (decide (s ∩ lexemes ≠ ∅)); simpl; [|by apply IH].
  apply pairwise_disjoint_cons. split; [|by apply IH].
  apply Forall_forall. intros t' (t & Ht & -> & _)%elem_of_lexeme_only.
  rewrite Forall_forall in Hs. specialize (Hs t Ht). set_solver.
Qed.

Lemma lookup_foldl_insert `{Countable K} {V} (f : K → V) (l : list K)
    (m : gmap K V) (k : K) :
  foldl (λ m k, <[k := f k]> m) m l !! k
  = if decide (k ∈ l) then Some (f k) else m !! k.
Proof.
  revert m. induction l as [|k' l IH]; intros m; simpl; [done|].
  rewrite IH. destruct (decide (k ∈ l)) as [Hin|Hin].
  - rewrite decide_True; [done|by right].
  - destruct (decide (k = k')) as [->|Hne].
    + rewrite decide_True by left. by rewrite lookup_insert_eq.
    + rewrite decide_False by (by intros [?|?]%elem_of_cons).
      by rewrite lookup_insert_ne.
Qed.

Section detector_properties.
Variable louvain_communities : Graph → Qc → nat → list (gset string).

Lemma run_louvain_lookup graph resolutions res comms :
  run_louvain louvain_communities graph resolutions !! res = Some comms →
  ∃ call, comms = louvain_communities graph res call.
Proof.
  unfold run_louvain.
  assert (∀ (acc : gmap Qc (list (gset string)) * nat),
    (foldl (λ '(communities, call) res,
              (<[res := louvain_communities graph res call]> communities,
               S call)) acc resolutions).1 !! res = Some comms →
    acc.1 !! res = Some comms ∨
    ∃ call, comms = louvain_communities graph res call) as Hgen.
  { induction resolutions as [|r rs IH]; intros [m call]; simpl; [auto|].
    intros [Hm|?]%IH; [|auto]. simpl in Hm.
    destruct (decide (r = res)) as [->|Hne].
    - rewrite lookup_insert_eq in Hm. right. exists call. congruence.
    - rewrite lookup_insert_ne in Hm by done. auto. }
  intros [Hm|?]%Hgen; [|done]. simpl in Hm. by rewrite lookup_empty in Hm.
Qed.

Lemma run_louvain_is_Some graph resolutions res :
  res ∈ resolutions →
  is_Some (run_louvain louvain_communities graph resolutions !! res).
Proof.
  unfold run_louvain. intros Hin.
  assert (∀ (acc : gmap Qc (list (gset string)) * nat),
    res ∈ resolutions ∨ is_Some (acc.1 !! res) →
    is_Some ((foldl (λ '(communities, call) res,
                (<[res := louvain_communities graph res call]> communities,
                 S call)) acc resolutions).1 !! res)) as Hgen.
  { clear Hin. induction resolutions as [|r rs IH]; intros [m call]; simpl.
    - by intros [?%elem_of_nil|?].
    - intros Hor. apply IH. simpl.
      destruct (decide (r = res)) as [->|Hne].
      + right. by rewrite lookup_insert_eq.
      + rewrite lookup_insert_ne by done.
        destruct Hor as [[?|?]%elem_of_cons|?]; [congruence|auto..]. }
  apply Hgen. by left.
Qed.

Lemma detect_lookup graph resolutions d res comms :
  detect_communities_multiresolution louvain_communities graph resolutions
    = Ok d →
  d !! res = Some comms →
  ∃ lexemes call,
    lexeme_nodes graph = Ok lexemes ∧
    res ∈ default default_resolutions resolutions ∧
    comms = lexeme_only lexemes (louvain_communities graph res call).
Proof.
  unfold detect_communities_multiresolution.
  destruct (lexeme_nodes graph) as [lexemes|]; simpl; [|done].
  intros [= <-] Hres.
  rewrite (lookup_foldl_insert
             (λ res, lexeme_only lexemes
                       (default [] (run_louvain louvain_communities graph
                          (default default_resolutions resolutions) !! res))))
    in Hres.
  destruct (decide (res ∈ _)) as [Hin|]; [|by rewrite lookup_empty in Hres].
  destruct (run_louvain_is_Some graph _ res Hin) as [c Hc].
  rewrite Hc in Hres. apply run_louvain_lookup in Hc as [call ->].
  exists lexemes, call. by simplify_eq/=.
Qed.

Lemma detect_total graph resolutions :
  map_Forall (λ _ d, is_Some d) (g_nodes graph) →
  ∃ d, detect_communities_multiresolution louvain_communities graph
         resolutions = Ok d ∧
       ∀ res, res ∈ default default_resolutions resolutions →
              is_Some (d !! res).
Proof.
  intros Hattr. unfold detect_communities_multiresolution, lexeme_nodes.
  rewrite decide_True by done. simpl. eexists. split; [done|].
  intros res Hres.
  rewrite (lookup_foldl_insert (λ res, lexeme_only _ _)).
  by rewrite decide_True.
Qed.

(** C8. When every call of the clustering primitive returns sets that
    are disjoint from one another, the partition stored for any resolution
    has only non-empty sets, and they are disjoint from one another. On a
    graph all of whose nodes carry the [bipartite] attribute the detector
    returns, with an entry for each requested resolution. *)
Theorem lexeme_partition_valid (graph : Graph)
    (resolutions : option (list Qc)) :
  (∀ res call, pairwise_disjoint (louvain_communities graph res call)) →
  (∀ d res comms,
     detect_communities_multiresolution louvain_communities graph
       resolutions = Ok d →
     d !! res = Some comms →
     Forall (λ s, s ≠ ∅) comms ∧ pairwise_disjoint comms) ∧
  (map_Forall (λ _ d, is_Some d) (g_nodes graph) →
   ∃ d, detect_communities_multiresolution louvain_communities graph
          resolutions = Ok d ∧
        ∀ res, res ∈ default default_resolutions resolutions →
               is_Some (d !! res)).
Proof.
  intros Hdisj. split; [|apply detect_total].
  intros d res comms Hd Hres.
  destruct (detect_lookup _ _ _ _ _ Hd Hres) as (lexemes & call & _ & _ & ->).
  split; [|apply lexeme_only_disjoint, Hdisj].
  apply Forall_forall. by intros s (? & _ & _ & ?)%elem_of_lexeme_only.
Qed.

(** C10. When every call of the clustering primitive returns disjoint
    sets that together contain every node of the graph, the sets stored
    for a resolution have the set of lexeme nodes as their union, and every
    lexeme node lies in the set at exactly one position. The lexeme nodes
    are the nodes whose [bipartite] attribute is 0. *)
Theorem lexeme_partition_covers (graph : Graph)
    (resolutions : option (list Qc)) :
  (∀ res call, pairwise_disjoint (louvain_communities graph res call)) →
  (∀ res call, dom (g_nodes graph) ⊆ ⋃ louvain_communities graph res call) →
  ∀ d res comms,
    detect_communities_multiresolution louvain_communities graph
      resolutions = Ok d →
    d !! res = Some comms →
    ∃ lexemes,
      lexeme_nodes graph = Ok lexemes ∧
      (∀ v, v ∈ lexemes ↔ g_nodes graph !! v = Some (Some 0%Z)) ∧
      ⋃ comms = lexemes ∧
      ∀ v, v ∈ lexemes →
        ∃ i s, comms !! i = Some s ∧ v ∈ s ∧
               ∀ j t, comms !! j = Some t → v ∈ t → j = i.
Proof.
  intros Hdisj Hcover d res comms Hd Hres.
  destruct (detect_lookup _ _ _ _ _ Hd Hres)
    as (lexemes & call & Hlex & _ & ->).
  exists lexemes. split; [done|].
  assert (∀ v, v ∈ lexemes ↔ g_nodes graph !! v = Some (Some 0%Z)) as Hmem.
  { unfold lexeme_nodes in Hlex. case_decide; simplify_eq.
    intros v. rewrite elem_of_dom. unfold is_Some.
    setoid_rewrite map_lookup_filter_Some. naive_solver. }
  split; [done|].
  assert (∀ v, v ∈ lexemes →
            ∃ s', s' ∈ lexeme_only lexemes
                         (louvain_communities graph res call) ∧ v ∈ s')
    as Hex.
  { intros v Hv.
    assert (v ∈ ⋃ louvain_communities graph res call) as Hu.
    { apply Hcover, elem_of_dom. apply Hmem in Hv. by rewrite Hv. }
    apply elem_of_union_list in Hu as (s & Hs & Hvs).
    exists (s ∩ lexemes). split; [|set_solver].
    apply elem_of_lexeme_only. exists s. set_solver. }
  split.
  - apply set_eq. intros v. rewrite elem_of_union_list. split.
    + intros (s' & (s & _ & -> & _)%elem_of_lexeme_only & Hv). set_solver.
    + apply Hex.
  - intros v Hv. destruct (Hex v Hv) as (s' & Hs' & Hvs').
    apply list_elem_of_lookup in Hs' as [i Hi]. exists i, s'.
    split; [done|]. split; [done|]. intros j t Hj Hvt.
    destruct (decide (j = i)) as [|Hne]; [done|].
    pose proof (lexeme_only_disjoint lexemes _ (Hdisj res call)
                  j i t s' Hne Hj Hi). set_solver.
Qed.
End detector_properties.

Lemma one_cluster_disjoint graph res call :
  pairwise_disjoint (one_cluster graph res call).
Proof.
  intros [|i] [|j] s t Hne Hi Hj; simplify_eq/=.
Qed.

(** Validity on [toy_graph], clustered into one community at two
    resolutions. *)
Lemma lexeme_partition_valid_witness :
  Forall (λ s, s ≠ ∅) [({["L1"; "L2"]} : gset string)] ∧
  pairwise_disjoint [({["L1"; "L2"]} : gset string)].
Proof.
  apply (proj1 (lexeme_partition_valid one_cluster toy_graph
                  (Some [Q2Qc 0; Q2Qc 1]) (one_cluster_disjoint toy_graph))
           (<[Q2Qc 0 := [{["L1"; "L2"]}]]> (<[Q2Qc 1 := [{["L1"; "L2"]}]]> ∅))
           (Q2Qc 0)).
  - vm_compute. reflexivity.
  - vm_compute. reflexivity.
Defined.

(** Coverage on the same run. *)
Lemma lexeme_partition_covers_witness :
  ∃ lexemes,
    lexeme_nodes toy_graph = Ok lexemes ∧
    (∀ v, v ∈ lexemes ↔ g_nodes toy_graph !! v = Some (Some 0%Z)) ∧
    ⋃ [({["L1"; "L2"]} : gset string)] = lexemes ∧
    ∀ v, v ∈ lexemes →
      ∃ i s, [({["L1"; "L2"]} : gset string)] !! i = Some s ∧ v ∈ s ∧
             ∀ j t, [({["L1"; "L2"]} : gset string)] !! j = Some t →
                    v ∈ t → j = i.
Proof.
  apply (lexeme_partition_covers one_cluster toy_graph
           (Some [Q2Qc 0; Q2Qc 1]) (one_cluster_disjoint toy_graph)
           (λ res call v Hv, proj2 (elem_of_union _ _ v) (or_introl Hv))
           (<[Q2Qc 0 := [{["L1"; "L2"]}]]> (<[Q2Qc 1 := [{["L1"; "L2"]}]]> ∅))
           (Q2Qc 0)).
  - vm_compute. reflexivity.
  - vm_compute. reflexivity.
Defined.

(** ** More on strings: separators and decimal numerals *)
Section separators.
Implicit Types (s t a b : string) (c sep : ascii).

Lemma str_contains_app sep a b :
  str_contains sep (a +:+ b) = str_contains sep a || str_contains sep b.
Proof.
  induction a as [|c a IH]; simpl; [done|]. by destruct (decide (c = sep)).
Qed.

Lemma str_split_without sep a :
  str_contains sep a = false → str_split sep a = [a].
Proof.
  induction a as [|c a IH]; simpl; [done|].
  destruct (decide (c = sep)); [done|]. intros Ha. by rewrite IH.
Qed.

Lemma str_split_app sep a b :
  str_contains sep a = false →
  str_split sep (a +:+ String sep b) = a :: str_split sep b.
Proof.
  induction a as [|c a IH]; simpl.
  - intros _. by rewrite decide_True.
  - destruct (decide (c = sep)); [done|]. intros Ha. by rewrite IH.
Qed.

(** A string is cut in one way only at its last separator. *)
Lemma app_sep_inj sep a1 a2 d1 d2 :
  str_contains sep d1 = false → str_contains sep d2 = false →
  a1 +:+ String sep d1 = a2 +:+ String sep d2 → a1 = a2 ∧ d1 = d2.
Proof.
  intros Hd1 Hd2. revert a2.
  induction a1 as [|c1 a1 IH]; intros [|c2 a2]; simpl.
  - by intros [= ->].
  - intros [= <- ->]. rewrite str_contains_app in Hd1. simpl in Hd1.
    rewrite decide_True in Hd1 by done. by rewrite orb_true_r in Hd1.
  - intros [= -> <-]. rewrite str_contains_app in Hd2. simpl in Hd2.
    rewrite decide_True in Hd2 by done. by rewrite orb_true_r in Hd2.
  - intros [= -> [-> ->]%IH]. done.
Qed.

Lemma str_of_nat_digits c n :
  is_digit c = false → str_contains c (str_of_nat n) = false.
Proof.
  unfold is_digit. intros Hc%bool_decide_eq_false.
  assert (∀ d, str_contains c (NilEmpty.string_of_uint d) = false) as Huint.
  { induction d; simpl; [done|..];
      (rewrite decide_False; [done|]); intros <-; apply Hc;
      repeat first [by left|right]. }
  unfold str_of_nat, NilZero.string_of_uint.
  destruct (Nat.to_uint n) eqn:Hn; try (rewrite <-Hn; apply Huint).
  simpl. rewrite decide_False; [done|]. intros <-. apply Hc. left.
Qed.

Lemma str_of_nat_inj n m : str_of_nat n = str_of_nat m → n = m.
Proof.
  unfold str_of_nat. intros Heq.
  assert (∀ k, Nat.to_uint k ≠ Decimal.Nil) as Hnonnil.
  { intros k. rewrite <-(DecimalNat.Unsigned.of_to k) at 1.
    rewrite DecimalNat.Unsigned.to_of. apply DecimalFacts.unorm_nonnil. }
  apply DecimalNat.Unsigned.to_uint_inj.
  apply (inj Some). rewrite <-!NilZero.usu by done. by rewrite Heq.
Qed.

Lemma str_app_nonempty_ne a b : b ≠ EmptyString → a +:+ b ≠ a.
Proof.
  intros Hb Heq. apply (f_equal String.length) in Heq.
  rewrite str_length_app in Heq. destruct b; [done|]. simpl in Heq. lia.
Qed.
End separators.

(** ** Indexing of duplicates *)

Lemma occurrences_cons e x l :
  occurrences e (x :: l)
  = (if decide (x = e) then 1 else 0) + occurrences e l.
Proof.
  unfold occurrences. rewrite filter_cons. by destruct (decide (x = e)).
Qed.

Lemma occurrences_not_elem e l : e ∉ l → occurrences e l = 0.
Proof.
  induction l as [|x l IH]; [done|]. rewrite occurrences_cons.
  intros Hne. rewrite decide_False by (intros ->; apply Hne; left).
  apply IH. intros ?. apply Hne. by right.
Qed.

Lemma occurrences_le_length e l : occurrences e l ≤ length l.
Proof. apply length_filter. Qed.

Lemma occurrences_take_lt e l i :
  l !! i = Some e → occurrences e (take i l) < occurrences e l.
Proof.
  revert i. induction l as [|x l IH]; intros [|i] Hi; simplify_eq/=.
  - rewrite occurrences_cons, decide_True by done. unfold occurrences. simpl. lia.
  - rewrite !occurrences_cons. specialize (IH i Hi). lia.
Qed.

Lemma occurrences_take_mono e l i j :
  i < j → l !! i = Some e →
  occurrences e (take i l) < occurrences e (take j l).
Proof.
  intros Hij Hi.
  replace (take i l) with (take i (take j l))
    by (rewrite take_take; f_equal; lia).
  apply occurrences_take_lt. by rewrite lookup_take_lt.
Qed.

Lemma strip_ordinal_tag e d :
  str_contains "_" d = false → strip_ordinal (e +:+ "_" +:+ d) = e.
Proof.
  intros Hd. change ("_" +:+ d) with (String "_" d).
  induction e as [|c e IH]; simpl.
  - by rewrite Hd.
  - rewrite str_contains_app. simpl. rewrite orb_true_r. by rewrite IH.
Qed.

Lemma index_exps_lookup seen exps i e :
  exps !! i = Some e →
  index_exps seen exps !! i
  = Some (ordinal_tag e (default 0 (seen !! e) + occurrences e (take i exps))).
Proof.
  revert seen i. induction exps as [|x exps IH]; intros seen [|i] Hi;
    simplify_eq/=.
  - f_equal. unfold ordinal_tag, occurrences. simpl.
    rewrite Nat.add_0_r, Nat.sub_0_r.
    repeat case_decide; (done || lia).
  - rewrite (IH _ _ Hi), occurrences_cons. do 2 f_equal.
    destruct (decide (x = e)) as [->|Hne].
    + rewrite lookup_insert_eq. simpl. lia.
    + by rewrite lookup_insert_ne.
Qed.

Lemma length_index_exps seen exps :
  length (index_exps seen exps) = length exps.
Proof.
  revert seen. induction exps as [|x exps IH]; intros seen; simpl; [done|].
  by rewrite IH.
Qed.

Lemma ordinal_tag_inj e1 e2 k1 k2 :
  k1 ≠ 0 → k2 ≠ 0 → ordinal_tag e1 k1 = ordinal_tag e2 k2 →
  e1 = e2 ∧ k1 = k2.
Proof.
  unfold ordinal_tag. intros H1 H2. rewrite !decide_False by done.
  intros [-> ?%str_of_nat_inj]%app_sep_inj;
    [done|by apply str_of_nat_digits..].
Qed.

Lemma index_exps_NoDup exps : no_clash exps → NoDup (index_exps ∅ exps).
Proof.
  intros Hclash. apply NoDup_alt. intros i j tag Hi Hj.
  assert (∀ i j ei ej,
    exps !! i = Some ei → exps !! j = Some ej →
    occurrences ei (take i exps) = 0 →
    ordinal_tag ei 0 = ordinal_tag ej (occurrences ej (take j exps)) →
    i = j) as Hbare.
  { clear i j tag Hi Hj. intros i j ei ej Hei Hej Hzero Heq.
    destruct (decide (occurrences ej (take j exps) = 0)) as [Hzj|Hnz].
    - rewrite Hzj in Heq. unfold ordinal_tag in Heq. simpl in Heq. subst ej.
      destruct (Nat.lt_total i j) as [Hlt|[?|Hlt]]; [|done|].
      + pose proof (occurrences_take_mono _ _ _ _ Hlt Hei). lia.
      + pose proof (occurrences_take_mono _ _ _ _ Hlt Hej). lia.
    - exfalso. unfold ordinal_tag in Heq. simpl in Heq.
      rewrite decide_False in Heq by done.
      apply (Hclash ej (occurrences ej (take j exps))).
      + lia.
      + by apply occurrences_take_lt.
      + rewrite <-Heq. by eapply list_elem_of_lookup_2. }
  destruct (lookup_lt_is_Some_2 exps i) as [ei Hei].
  { rewrite <-(length_index_exps ∅). by eapply lookup_lt_Some. }
  destruct (lookup_lt_is_Some_2 exps j) as [ej Hej].
  { rewrite <-(length_index_exps ∅). by eapply lookup_lt_Some. }
  rewrite (index_exps_lookup _ _ _ _ Hei) in Hi.
  rewrite (index_exps_lookup _ _ _ _ Hej) in Hj.
  rewrite lookup_empty in Hi, Hj. simpl in Hi, Hj.
  injection Hi as <-. injection Hj as Heq.
  destruct (decide (occurrences ei (take i exps) = 0)) as [Hzi|Hnzi].
  { eapply Hbare; [done..|]. by rewrite <-Hzi at 1. }
  destruct (decide (occurrences ej (take j exps) = 0)) as [Hzj|Hnzj].
  { symmetry. eapply Hbare; [done..|]. by rewrite <-Hzj at 1. }
  apply ordinal_tag_inj in Heq as [-> Hocc]; [|done..].
  destruct (Nat.lt_total i j) as [Hlt|[?|Hlt]]; [|done|].
  - pose proof (occurrences_take_mono _ _ _ _ Hlt Hei). lia.
  - pose proof (occurrences_take_mono _ _ _ _ Hlt Hej). lia.
Qed.

Lemma occurrences_elem e l : e ∈ l → 0 < occurrences e l.
Proof.
  induction l as [|x l IH]; [by intros ?%elem_of_nil|].
  rewrite occurrences_cons. intros [->|?%IH]%elem_of_cons.
  - rewrite decide_True by done. lia.
  - lia.
Qed.

(** The occurrence of [e] that [k] others precede. *)
Lemma occurrence_at e l k :
  k < occurrences e l →
  ∃ q, l !! q = Some e ∧ occurrences e (take q l) = k.
Proof.
  revert k. induction l as [|x l IH]; intros k.
  - unfold occurrences. simpl. lia.
  - rewrite occurrences_cons. destruct (decide (x = e)) as [->|Hne].
    + destruct k as [|k]; intros Hk.
      * by exists 0.
      * destruct (IH k) as (q & Hq & Hocc); [lia|].
        exists (S q). split; [done|]. cbn [take].
        rewrite occurrences_cons, decide_True by done. lia.
    + intros Hk. destruct (IH k) as (q & Hq & Hocc); [lia|].
      exists (S q). split; [done|]. cbn [take].
      rewrite occurrences_cons, decide_False by done. lia.
Qed.

Lemma index_exps_NoDup_inv exps : NoDup (index_exps ∅ exps) → no_clash exps.
Proof.
  intros Hnodup e k Hk Hocc Hin.
  destruct (occurrence_at _ _ _ Hocc) as (q & Hq & Hqk).
  destruct (occurrence_at _ _ 0 (occurrences_elem _ _ Hin)) as (p & Hp & Hp0).
  pose proof (index_exps_lookup ∅ _ _ _ Hq) as Htq.
  pose proof (index_exps_lookup ∅ _ _ _ Hp) as Htp.
  rewrite lookup_empty in Htq, Htp. cbn [default from_option id] in Htq, Htp.
  rewrite Nat.add_0_l in Htq, Htp. rewrite Hqk in Htq. rewrite Hp0 in Htp.
  unfold ordinal_tag in Htq, Htp.
  rewrite decide_False in Htq by lia. rewrite decide_True in Htp by done.
  assert (p = q) as -> by (by eapply NoDup_lookup).
  rewrite Hq in Hp. injection Hp as Hp.
  symmetry in Hp. by apply str_app_nonempty_ne in Hp.
Qed.

(** ** Insertion-ordered dictionaries *)
Section dicts.
Context {V : Type}.
Implicit Types (d : Dict V) (k : string) (v : V).

Lemma dict_get_Some_elem d k v : dict_get d k = Some v → (k, v) ∈ d.
Proof.
  induction d as [|[k' v'] d IH]; simpl; [done|].
  destruct (decide (k' = k)) as [->|?].
  - intros [= ->]. left.
  - intros ?%IH. by right.
Qed.

Lemma dict_get_None d k : dict_get d k = None ↔ k ∉ d.*1.
Proof.
  induction d as [|[k' v'] d IH]; simpl.
  - split; [by intros _ ?%elem_of_nil|done].
  - destruct (decide (k' = k)) as [->|?].
    + split; [done|]. intros []. left.
    + rewrite IH. split.
      * by intros ? [?|?]%elem_of_cons.
      * intros Hn ?. apply Hn. by right.
Qed.

Lemma elem_of_dict_NoDup d k v :
  NoDup d.*1 → (k, v) ∈ d → dict_get d k = Some v.
Proof.
  induction d as [|[k' v'] d IH]; simpl; [by intros _ ?%elem_of_nil|].
  intros [Hk' Hd]%NoDup_cons [[= -> ->]|Hin]%elem_of_cons.
  - by rewrite decide_True.
  - rewrite decide_False; [by apply IH|]. intros ->. apply Hk'.
    apply list_elem_of_fmap. by exists (k, v).
Qed.

Lemma elem_of_dict_set d k v k' v' :
  (k', v') ∈ dict_set d k v → (k', v') = (k, v) ∨ (k', v') ∈ d.
Proof.
  induction d as [|[k0 v0] d IH]; simpl.
  - intros ?%list_elem_of_singleton. by left.
  - destruct (decide (k0 = k)) as [->|?].
    + intros [?|?]%elem_of_cons; [by left|]. right. by right.
    + intros [->|[?|?]%IH]%elem_of_cons; [|by left|].
      * right. left.
      * right. by right.
Qed.

Lemma dict_set_fresh d k v : k ∉ d.*1 → dict_set d k v = d ++ [(k, v)].
Proof.
  induction d as [|[k0 v0] d IH]; simpl; [done|].
  intros Hk. rewrite decide_False.
  - rewrite IH; [done|]. intros ?. apply Hk. by right.
  - intros ->. apply Hk. left.
Qed.

Lemma dict_set_keys d k v :
  (dict_set d k v).*1 = if decide (k ∈ d.*1) then d.*1 else d.*1 ++ [k].
Proof.
  induction d as [|[k0 v0] d IH]; [done|]. cbn [dict_set].
  destruct (decide (k0 = k)) as [->|Hne]; rewrite !fmap_cons; cbn [fst].
  - rewrite decide_True; [done|left].
  - rewrite IH. destruct (decide (k ∈ d.*1)).
    + rewrite decide_True; [done|by right].
    + rewrite decide_False; [done|]. by intros [?|?]%elem_of_cons.
Qed.

Lemma dict_set_NoDup d k v : NoDup d.*1 → NoDup (dict_set d k v).*1.
Proof.
  intros Hd. rewrite dict_set_keys. case_decide; [done|].
  apply NoDup_app. split; [done|]. split; [|apply NoDup_singleton].
  intros k' ? Hk'%list_elem_of_singleton. by subst.
Qed.
End dicts.

Lemma fmap_prod_map_keys {V W} (f : V → W) (d : Dict V) :
  (prod_map id f <$> d).*1 = d.*1.
Proof.
  induction d as [|[k v] d IH]; [done|]. rewrite !fmap_cons. by rewrite IH.
Qed.

Lemma foldl_dict_set_NoDup {V W} (f : V → W) (d : Dict V) :
  NoDup d.*1 →
  foldl (λ acc '(k, v), dict_set acc k (f v)) [] d = prod_map id f <$> d.
Proof.
  intros Hnodup.
  assert (∀ acc : Dict W,
    (∀ k, k ∈ acc.*1 → k ∉ d.*1) →
    foldl (λ acc '(k, v), dict_set acc k (f v)) acc d
    = acc ++ (prod_map id f <$> d)) as Hgen.
  { induction d as [|[k v] d IH]; intros acc Hacc; simpl.
    - by rewrite app_nil_r.
    - apply NoDup_cons in Hnodup as [Hk Hd].
      rewrite dict_set_fresh by (intros ?; eapply Hacc; [done|left]).
      rewrite IH; [by rewrite <-app_assoc|done|].
      intros k'. rewrite fmap_app, elem_of_app. simpl.
      intros [Hk'|Hk'%list_elem_of_singleton]; [|by subst].
      intros ?. eapply Hacc; [done|by right]. }
  apply (Hgen []). by intros k ?%elem_of_nil.
Qed.

Lemma index_duplicate_exponents_NoDup (lexeme_dict : Dict (list string)) :
  NoDup lexeme_dict.*1 →
  index_duplicate_exponents lexeme_dict
  = prod_map id (index_exps ∅) <$> lexeme_dict.
Proof. apply foldl_dict_set_NoDup. Qed.

Lemma elem_of_index_duplicate_exponents
    (lexeme_dict : Dict (list string)) idx tags :
  (idx, tags) ∈ index_duplicate_exponents lexeme_dict →
  ∃ exps, (idx, exps) ∈ lexeme_dict ∧ tags = index_exps ∅ exps.
Proof.
  unfold index_duplicate_exponents.
  assert (∀ acc : Dict (list string),
    (idx, tags) ∈ foldl (λ indexed_dict '(idx, exps_list),
                           dict_set indexed_dict idx (index_exps ∅ exps_list))
                        acc lexeme_dict →
    (idx, tags) ∈ acc ∨
    ∃ exps, (idx, exps) ∈ lexeme_dict ∧ tags = index_exps ∅ exps) as Hgen.
  { induction lexeme_dict as [|[k exps] d IH]; intros acc; simpl; [auto|].
    intros [[[= -> ->]|?]%elem_of_dict_set|(exps' & ? & ?)]%IH.
    - right. exists exps. split; [left|done].
    - by left.
    - right. exists exps'. split; [by right|done]. }
  intros [?%elem_of_nil|?]%Hgen; done.
Qed.

Lemma no_clash_check_sound exps : no_clash_check exps = true → no_clash exps.
Proof.
  unfold no_clash_check. rewrite forallb_forall.
  intros Hcheck e k Hk Hocc Hin.
  assert (e ∈ exps) as He.
  { destruct (decide (e ∈ exps)) as [|Hne]; [done|].
    rewrite (occurrences_not_elem _ _ Hne) in Hocc. lia. }
  apply list_elem_of_In, Hcheck in He. rewrite forallb_forall in He.
  specialize (He k). rewrite orb_true_iff, !negb_true_iff in He.
  destruct He as [He|He].
  - apply in_seq. pose proof (occurrences_le_length e exps). lia.
  - by apply bool_decide_eq_false in He.
  - by apply bool_decide_eq_false in He.
Qed.

(** C7, as amended. For a lexeme of a dictionary (with distinct keys, as
    any [dict]), the indexed tags are as many as the original tags; the tag
    at each position is the original one, bare for its first occurrence and
    followed by ["_k"] when [k] occurrences precede it; removing that suffix
    from a suffixed tag gives back the original tag at its position; and
    the indexed tags have no duplicates exactly when the original tags
    satisfy [no_clash]. *)
Theorem duplicate_indexing_unique (lexeme_dict : Dict (list string))
    (idx : string) (exps : list string) :
  NoDup lexeme_dict.*1 →
  dict_get lexeme_dict idx = Some exps →
  ∃ tags,
    dict_get (index_duplicate_exponents lexeme_dict) idx = Some tags ∧
    length tags = length exps ∧
    (∀ i e, exps !! i = Some e →
       tags !! i = Some (ordinal_tag e (occurrences e (take i exps)))) ∧
    (∀ i e tag, exps !! i = Some e → tags !! i = Some tag →
       (occurrences e (take i exps) = 0 → tag = e) ∧
       (occurrences e (take i exps) ≠ 0 → strip_ordinal tag = e)) ∧
    (NoDup tags ↔ no_clash exps).
Proof.
  intros Hkeys Hget. exists (index_exps ∅ exps).
  assert (∀ i e, exps !! i = Some e →
            index_exps ∅ exps !! i
            = Some (ordinal_tag e (occurrences e (take i exps)))) as Hpos.
  { intros i e Hi. by rewrite (index_exps_lookup _ _ _ _ Hi), lookup_empty. }
  split; [|split; [apply length_index_exps|split; [done|split]]].
  - rewrite index_duplicate_exponents_NoDup by done.
    apply elem_of_dict_NoDup.
    + by rewrite fmap_prod_map_keys.
    + apply list_elem_of_fmap. exists (idx, exps).
      split; [done|by apply dict_get_Some_elem].
  - intros i e tag Hi Htag. rewrite (Hpos _ _ Hi) in Htag.
    injection Htag as <-. unfold ordinal_tag. split.
    + intros ->. done.
    + intros Hnz. rewrite decide_False by done.
      apply strip_ordinal_tag, str_of_nat_digits. done.
  - split; [apply index_exps_NoDup_inv|apply index_exps_NoDup].
Qed.

(** A clash, on [clash_df]: the indexed tags of ["L1"] hold
    ["#x#-NOM_1"] twice. *)
Lemma duplicate_indexing_clash :
  build_lexeme_dict clash_df = [("L1", ["#x#-NOM"; "#x#-NOM"; "#x#-NOM_1"])] ∧
  dict_get (index_duplicate_exponents (build_lexeme_dict clash_df)) "L1"
    = Some ["#x#-NOM"; "#x#-NOM_1"; "#x#-NOM_1"] ∧
  ¬ NoDup ["#x#-NOM"; "#x#-NOM_1"; "#x#-NOM_1"].
Proof.
  split; [by vm_compute|]. split; [by vm_compute|].
  intros [_ [Hdup _]%NoDup_cons]%NoDup_cons. apply Hdup. left.
Qed.

(** A lexeme with one repeated tag and no clash. *)
Lemma duplicate_indexing_unique_witness :
  ∃ tags,
    dict_get (index_duplicate_exponents
                [("L1", ["#a#-NOM.SG"; "#a#-NOM.SG"; "#b#-NOM.SG"])]) "L1"
      = Some tags ∧
    tags !! 1 = Some "#a#-NOM.SG_1" ∧
    NoDup tags.
Proof.
  destruct (duplicate_indexing_unique
              [("L1", ["#a#-NOM.SG"; "#a#-NOM.SG"; "#b#-NOM.SG"])] "L1"
              ["#a#-NOM.SG"; "#a#-NOM.SG"; "#b#-NOM.SG"]
              (NoDup_singleton _) eq_refl)
    as (tags & Hget & _ & Hpos & _ & Hnodup).
  exists tags. split; [exact Hget|]. split.
  - exact (Hpos 1 "#a#-NOM.SG" eq_refl).
  - apply Hnodup, no_clash_check_sound. vm_compute. reflexivity.
Defined.

(** ** Recovering the cell label from a tag *)

Lemma str_app_cons (x : ascii) (a b : string) :
  String x a +:+ b = String x (a +:+ b).
Proof. reflexivity. Qed.

Lemma str_app_assoc (a b c : string) : (a +:+ b) +:+ c = a +:+ (b +:+ c).
Proof.
  induction a as [|x a IH]; [done|]. rewrite !str_app_cons. by f_equal.
Qed.

Lemma str_contains_substring c s i m :
  str_contains c s = false → str_contains c (String.substring i m s) = false.
Proof.
  revert i m. induction s as [|x s IH]; intros [|i] [|m]; simpl; try done.
  - destruct (decide (x = c)); [done|]. intros Hs. by apply (IH 0 m).
  - destruct (decide (x = c)); [done|]. intros Hs. by apply (IH i 0).
  - destruct (decide (x = c)); [done|]. intros Hs. by apply (IH i (S m)).
Qed.

Lemma generate_triphones_contains c exponent tri :
  c ≠ "#"%char → str_contains c exponent = false →
  tri ∈ generate_triphones exponent → str_contains c tri = false.
Proof.
  intros Hc Hexp. unfold generate_triphones.
  assert (str_contains c ("#" +:+ exponent +:+ "#") = false) as Hpad.
  { change ("#" +:+ exponent +:+ "#") with (String "#" (exponent +:+ "#")).
    cbn [str_contains]. rewrite decide_False by done.
    rewrite str_contains_app, Hexp. cbn [str_contains orb].
    by rewrite decide_False. }
  case_decide.
  - by intros ->%list_elem_of_singleton.
  - intros (i & -> & _)%list_elem_of_fmap. by apply str_contains_substring.
Qed.

Lemma recover_cell_tag tri col k :
  str_contains "-" tri = false →
  str_contains "-" col = false → str_contains "_" col = false →
  recover_cell (ordinal_tag (tri +:+ "-" +:+ col) k) = Ok col.
Proof.
  intros Htri Hcol Hcol'. unfold recover_cell, ordinal_tag.
  destruct (decide (k = 0)) as [->|Hk].
  - change (tri +:+ "-" +:+ col) with (tri +:+ String "-" col).
    rewrite str_split_app, str_split_without by done. simpl.
    by rewrite Hcol'.
  - rewrite !str_app_assoc.
    change ("-" +:+ col +:+ "_" +:+ str_of_nat k)
      with (String "-" (col +:+ "_" +:+ str_of_nat k)).
    rewrite str_split_app by done.
    assert (str_contains "-" (col +:+ "_" +:+ str_of_nat k) = false) as Hck.
    { rewrite str_contains_app, Hcol.
      change ("_" +:+ str_of_nat k) with (String "_" (str_of_nat k)).
      cbn [orb str_contains]. rewrite decide_False by done.
      by apply str_of_nat_digits. }
    rewrite str_split_without by done.
    change ("_" +:+ str_of_nat k) with (String "_" (str_of_nat k)).
    cbn [list_getitem lookup list_lookup mbind result_bind].
    rewrite str_contains_app. cbn [str_contains].
    rewrite decide_True by done. rewrite orb_true_r.
    by rewrite str_split_app.
Qed.

(** ** Where the tags of a lexeme come from *)

Lemma elem_of_cell_tagged col cell tag :
  tag ∈ cell_tagged col cell ↔
  ∃ exponent tri, exponent ∈ cell ∧ tri ∈ generate_triphones exponent ∧
                  tag = tri +:+ "-" +:+ col.
Proof.
  unfold cell_tagged, process_cell. rewrite list_elem_of_fmap.
  setoid_rewrite list_elem_of_bind. naive_solver.
Qed.

Lemma elem_of_dict_iadd {A} (d : Dict (list A)) k vs k' vs' :
  (k', vs') ∈ dict_iadd d k vs →
  (k', vs') ∈ d ∨
  k' = k ∧ ∃ old, vs' = old ++ vs ∧ (old = [] ∨ (k, old) ∈ d).
Proof.
  unfold dict_iadd. intros [[= -> ->]|?]%elem_of_dict_set; [|by left].
  right. split; [done|]. exists (default [] (dict_get d k)). split; [done|].
  destruct (dict_get d k) eqn:Hget; [|by left].
  right. by apply dict_get_Some_elem.
Qed.

Lemma dict_iadd_NoDup {A} (d : Dict (list A)) k vs :
  NoDup d.*1 → NoDup (dict_iadd d k vs).*1.
Proof. apply dict_set_NoDup. Qed.

Lemma build_lexeme_dict_origin df lex tags tag :
  (lex, tags) ∈ build_lexeme_dict df → tag ∈ tags →
  ∃ col cell, tag_source df lex tag col cell.
Proof.
  unfold build_lexeme_dict.
  set (cols := df_columns (drop_stem df)).
  set (P := λ d : Dict (list string),
         ∀ lex tags tag, (lex, tags) ∈ d → tag ∈ tags →
                         ∃ col cell, tag_source df lex tag col cell).
  assert (∀ idx row, (idx, row) ∈ df_rows df →
            ∀ cs d, cs ⊆ cols → P d → P (build_row cs idx row d)) as Hrow.
  { intros idx row Hrow cs. unfold build_row.
    induction cs as [|c cs IH]; intros d Hcs Hd; simpl; [done|].
    apply IH; [set_solver|].
    destruct (row !! c) as [cell|] eqn:Hcell; [|done].
    destruct (is_nan_text cell) eqn:Hnan; [done|].
    intros lex' tags' tag' [Hin|(-> & old & -> & Hold)]%elem_of_dict_iadd Htag.
    { by apply (Hd lex' tags'). }
    apply elem_of_app in Htag as [Htag|Htag].
    - destruct Hold as [->|Hold]; [by apply elem_of_nil in Htag|].
      by apply (Hd idx old).
    - apply elem_of_cell_tagged in Htag as (exponent & tri & ? & ? & ->).
      exists c, cell, row, exponent, tri. repeat split; try done.
      apply Hcs. left. }
  assert (∀ rows d, rows ⊆ df_rows df → P d →
            P (foldl (λ d '(idx, row), build_row cols idx row d) d rows))
    as Hrows.
  { induction rows as [|[idx row] rows IH]; intros d Hsub Hd; simpl; [done|].
    apply IH; [set_solver|]. apply Hrow; [|done..]. apply Hsub. left. }
  apply Hrows; [done|]. by intros ? ? ? ?%elem_of_nil.
Qed.

Lemma build_lexeme_dict_NoDup df : NoDup (build_lexeme_dict df).*1.
Proof.
  unfold build_lexeme_dict.
  set (cols := df_columns (drop_stem df)).
  assert (∀ idx row cs (d : Dict (list string)),
            NoDup d.*1 → NoDup (build_row cs idx row d).*1) as Hrow.
  { intros idx row cs. unfold build_row.
    induction cs as [|c cs IH]; intros d Hd; simpl; [done|].
    apply IH. destruct (row !! c) as [cell|]; [|done].
    destruct (is_nan_text cell); [done|by apply dict_iadd_NoDup]. }
  assert (∀ rows (d : Dict (list string)),
            NoDup d.*1 →
            NoDup (foldl (λ d '(idx, row), build_row cols idx row d) d rows).*1)
    as Hrows.
  { induction rows as [|[idx row] rows IH]; intros d Hd; simpl; [done|].
    by apply IH, Hrow. }
  apply Hrows. constructor.
Qed.

Lemma elem_of_dict_to_tuple_list (d : Dict (list string)) lex tag :
  (lex, tag) ∈ dict_to_tuple_list d ↔ ∃ tags, (lex, tags) ∈ d ∧ tag ∈ tags.
Proof.
  unfold dict_to_tuple_list. rewrite list_elem_of_bind. split.
  - intros ([k vs] & (t & [= -> ->] & Ht)%list_elem_of_fmap & Hd). eauto.
  - intros (tags & Hd & Ht). exists (lex, tags). split; [|done].
    apply list_elem_of_fmap. eauto.
Qed.

Lemma elem_of_index_exps seen exps tag :
  tag ∈ index_exps seen exps → ∃ e k, e ∈ exps ∧ tag = ordinal_tag e k.
Proof.
  intros [i Hi]%list_elem_of_lookup.
  destruct (lookup_lt_is_Some_2 exps i) as [e He].
  { rewrite <-(length_index_exps seen). by eapply lookup_lt_Some. }
  rewrite (index_exps_lookup _ _ _ _ He) in Hi. injection Hi as <-.
  eexists e, _. split; [by eapply list_elem_of_lookup_2|done].
Qed.

(** Every edge that enters the weight computation carries an indexed tag
    of a tagged triphone of its lexeme. *)
Lemma edge_origin df lex tag :
  (lex, tag) ∈ dict_to_tuple_list
                 (index_duplicate_exponents (build_lexeme_dict df)) →
  ∃ col cell e k, tag_source df lex e col cell ∧ tag = ordinal_tag e k.
Proof.
  intros (tags & Hd & Htag)%elem_of_dict_to_tuple_list.
  apply elem_of_index_duplicate_exponents in Hd as (exps & Hexps & ->).
  apply elem_of_index_exps in Htag as (e & k & He & ->).
  destruct (build_lexeme_dict_origin _ _ _ _ Hexps He) as (col & cell & ?).
  by exists col, cell, e, k.
Qed.

(** Where the loader left no text, the cell of a tag is a list. *)
Lemma tag_source_list df lex tag col cell :
  list_cells df → tag_source df lex tag col cell →
  ∃ exponents, cell = CellList exponents ∧
               tag_origin df lex tag col exponents.
Proof.
  intros Hlists (row & exponent & tri & Hrow & Hcol & Hcell & _ & He & Htri).
  destruct cell as [exponents|text].
  - exists exponents. split; [done|]. by exists row, exponent, tri.
  - by destruct (Hlists lex row col text Hrow Hcol).
Qed.

(** ** The table of counts *)

Lemma lookup_list_to_map_fun `{Countable K} {V} (f : K → V) (l : list K) k :
  (list_to_map ((λ k, (k, f k)) <$> l) : gmap K V) !! k
  = if decide (k ∈ l) then Some (f k) else None.
Proof.
  induction l as [|k' l IH]; [apply lookup_empty|].
  rewrite fmap_cons, list_to_map_cons. cbn [fst snd].
  destruct (decide (k' = k)) as [->|Hne].
  - rewrite lookup_insert_eq. rewrite decide_True; [done|left].
  - rewrite lookup_insert_ne, IH by done. destruct (decide (k ∈ l)).
    + rewrite decide_True; [done|by right].
    + rewrite decide_False; [done|]. by intros [?|?]%elem_of_cons.
Qed.

Lemma elem_of_pivot_index df lex row col :
  (lex, row) ∈ df_rows df → col ∈ df_columns df →
  is_Some (row !! col ≫= cell_length) →
  lex ∈ pivot_index df.
Proof.
  intros Hrow Hcol Hcell. unfold pivot_index.
  apply list_elem_of_fmap. exists (lex, row). split; [done|].
  apply list_elem_of_filter. split; [|done].
  apply Exists_exists. by exists col.
Qed.

Lemma elem_of_pivot_columns df lex row col :
  (lex, row) ∈ df_rows df → col ∈ df_columns df →
  is_Some (row !! col ≫= cell_length) →
  col ∈ pivot_columns df.
Proof.
  intros Hrow Hcol Hcell. unfold pivot_columns.
  apply list_elem_of_filter. split; [|done].
  apply Exists_exists. by exists (lex, row).
Qed.

Lemma pivot_lengths_absent df lex col :
  lex ∉ (df_rows df).*1 → pivot_lengths df lex col = [].
Proof.
  unfold pivot_lengths. induction (df_rows df) as [|[idx row] rows IH];
    [done|].
  rewrite fmap_cons, not_elem_of_cons. intros [Hne Hrest]. simpl.
  rewrite decide_False by done. by apply IH.
Qed.

Lemma pivot_lengths_unique df lex row col cell :
  NoDup (df_rows df).*1 → (lex, row) ∈ df_rows df →
  row !! col = Some (CellList cell) →
  pivot_lengths df lex col = [length cell].
Proof.
  unfold pivot_lengths. destruct df as [cols rows]. simpl.
  induction rows as [|[idx0 row0] rows IH]; [by intros _ ?%elem_of_nil|].
  rewrite fmap_cons. intros [Hidx Hrows]%NoDup_cons Hin Hcell.
  apply elem_of_cons in Hin as [[= <- <-]|Hin]; simpl.
  - rewrite decide_True by done. rewrite Hcell. simpl. f_equal.
    apply (pivot_lengths_absent {| df_columns := cols; df_rows := rows |}).
    done.
  - rewrite decide_False; [by apply IH|]. intros ->. apply Hidx.
    apply list_elem_of_fmap. by exists (lex, row).
Qed.

Lemma weights_table_Ok df :
  no_reserved_label df → weights_table df = Ok (pivot_table (drop_stem df)).
Proof.
  intros [Hlexeme Hvalue]. unfold weights_table.
  by rewrite !decide_False.
Qed.

Lemma weights_table_reserved df :
  ¬ no_reserved_label df → weights_table df = Raise ValueError.
Proof.
  intros Hres. unfold weights_table. repeat case_decide; try done.
  by destruct Hres.
Qed.

Lemma pivot_table_lookup df lex row col cell :
  NoDup (df_rows df).*1 →
  (lex, row) ∈ df_rows df → col ∈ df_columns (drop_stem df) →
  row !! col = Some (CellList cell) →
  ∃ per_lexeme, pivot_table (drop_stem df) !! lex = Some per_lexeme ∧
                per_lexeme !! col = Some (pivot_mean [length cell]).
Proof.
  intros Hnodup Hrow Hcol Hcell. unfold pivot_table.
  assert (is_Some (row !! col ≫= cell_length)) as Hlen
    by (rewrite Hcell; simpl; eauto).
  rewrite (lookup_list_to_map_fun
             (λ lex, list_to_map
                       ((λ col, (col, pivot_mean
                                        (pivot_lengths (drop_stem df) lex col)))
                          <$> pivot_columns (drop_stem df)))).
  rewrite decide_True by (by eapply elem_of_pivot_index).
  eexists. split; [done|].
  rewrite (lookup_list_to_map_fun
             (λ col, pivot_mean (pivot_lengths (drop_stem df) lex col))).
  rewrite decide_True by (by eapply elem_of_pivot_columns).
  by rewrite (pivot_lengths_unique (drop_stem df) lex row col cell).
Qed.

Lemma float_inv_mean (n : nat) :
  0 < n →
  ∃ q, float_inv (pivot_mean [n]) = Ok (FVal q) ∧
       (q == 1 # Pos.of_nat n)%Q ∧ (0 < q)%Q ∧ (q <= 1)%Q.
Proof.
  intros Hn. unfold pivot_mean, float_inv.
  set (q0 := (inject_Z (Z.of_nat (sum_list [n]))
              / inject_Z (Z.of_nat (length [n])))%Q).
  assert (q0 == inject_Z (Z.of_nat n))%Q as Hq0.
  { unfold q0, Qeq. simpl. lia. }
  destruct (Qeq_bool q0 0) eqn:Hzero.
  { apply Qeq_bool_eq in Hzero. rewrite Hq0 in Hzero.
    unfold Qeq in Hzero. simpl in Hzero. lia. }
  eexists. split; [done|].
  assert (1 / q0 == 1 # Pos.of_nat n)%Q as Hq.
  { rewrite Hq0, (Qmake_Qdiv 1 (Pos.of_nat n)).
    by rewrite <-(Nat2Pos.id n) at 1 by lia; rewrite positive_nat_Z. }
  split; [done|]. rewrite Hq. unfold Qlt, Qle. simpl. lia.
Qed.

Lemma edge_weight_ok df lex row col cell :
  NoDup (df_rows df).*1 →
  (lex, row) ∈ df_rows df → col ∈ df_columns (drop_stem df) →
  row !! col = Some (CellList cell) → cell ≠ [] →
  ∃ q, edge_weight (pivot_table (drop_stem df)) lex col = Ok (FVal q) ∧
       (q == 1 # Pos.of_nat (length cell))%Q ∧ (0 < q)%Q ∧ (q <= 1)%Q.
Proof.
  intros Hnodup Hrow Hcol Hcell Hne.
  destruct (pivot_table_lookup _ _ _ _ _ Hnodup Hrow Hcol Hcell)
    as (per_lexeme & Hlex & Hcount).
  unfold edge_weight, getitem. rewrite Hlex. simpl. rewrite Hcount. simpl.
  apply float_inv_mean. destruct cell; [done|simpl; lia].
Qed.

Lemma weights_loop_ok weights_dict (P : string * string → pyfloat → Prop)
    edges cell0 :
  (∀ e, e ∈ edges →
     ∃ cell w, recover_cell e.2 = Ok cell ∧
               edge_weight weights_dict e.1 cell = Ok w ∧ P e w) →
  ∃ es, weights_loop weights_dict cell0 edges = inl es ∧
        es.*1 = edges ∧ Forall (λ ew, P ew.1 ew.2) es.
Proof.
  revert cell0. induction edges as [|e edges IH]; intros cell0 Hall; simpl.
  - exists []. by split; [|split; [|constructor]].
  - destruct (Hall e) as (cell & w & -> & -> & Hw); [left|].
    destruct (IH (Some cell)) as (es & -> & Hes & HP).
    { intros e' He'. apply Hall. by right. }
    exists ((e, w) :: es). split; [done|]. split; [by rewrite fmap_cons, Hes|].
    by constructor.
Qed.

(** ** The weighted edges *)

(** C2, as amended. Take a table with distinct lexeme identifiers, whose
    cells are lists of exponents or [NaN], and whose labels and exponents
    are [separable]. When no cell column is labelled ["lexeme"] or
    ["value"], the weight computation succeeds without logging, returns
    one weighted edge for each pair of a lexeme and one of its indexed
    tags, in order, and each edge satisfies [edge_spec]: its weight is the
    reciprocal of the length of the exponent list of the originating cell,
    a rational in (0, 1]; where that list has no repeated exponent its
    length is the number of distinct exponents. When a cell column has
    one of those two labels, the reshaping of the table raises a
    [ValueError] and there is no edge at all. *)
Theorem edge_weights_reciprocal (df : DataFrame) :
  NoDup (df_rows df).*1 →
  list_cells df →
  separable df →
  (no_reserved_label df →
   ∃ edges,
     calculate_edge_weights df
       (index_duplicate_exponents (build_lexeme_dict df)) = (Ok edges, []) ∧
     edges.*1 = dict_to_tuple_list
                  (index_duplicate_exponents (build_lexeme_dict df)) ∧
     Forall (edge_spec df) edges) ∧
  ("lexeme" ∈ df_columns (drop_stem df) ∨ "value" ∈ df_columns (drop_stem df) →
   calculate_edge_weights df
     (index_duplicate_exponents (build_lexeme_dict df))
   = (Raise ValueError, []) ∧
   create_bipartite_graph df = (Raise ValueError, [])).
Proof.
  intros Hnodup Hlists [Hlabels Hexps]. split.
  2: { intros Hres.
       assert (weights_table df = Raise ValueError) as Hraise.
       { apply weights_table_reserved. intros [? ?]. by destruct Hres. }
       unfold create_bipartite_graph, calculate_edge_weights.
       by rewrite Hraise. }
  intros Hplain.
  unfold calculate_edge_weights, calculate_edge_weights_on.
  rewrite weights_table_Ok by done.
  destruct (weights_loop_ok (pivot_table (drop_stem df))
              (λ e w, edge_spec df (e, w))
              (dict_to_tuple_list
                 (index_duplicate_exponents (build_lexeme_dict df))) None)
    as (es & -> & Hfst & Hspec).
  - intros [lex tag] Hin.
    destruct (edge_origin _ _ _ Hin) as (col & c & e & k & Hsource & ->).
    destruct (tag_source_list _ _ _ _ _ Hlists Hsource)
      as (cell & -> & Horigin).
    pose proof Horigin as
      (row & exponent & tri & Hrow & Hcol & Hcell & Hexp & Htri & ->).
    destruct (Hlabels col Hcol) as [Hdash Hunder].
    assert (str_contains "-" tri = false) as Htri'.
    { eapply generate_triphones_contains; [done| |done]. by eapply Hexps. }
    assert (cell ≠ []) as Hne by (intros ->; by apply elem_of_nil in Hexp).
    destruct (edge_weight_ok _ _ _ _ _ Hnodup Hrow Hcol Hcell Hne)
      as (q & Hw & Hq & Hpos & Hle).
    pose proof (recover_cell_tag tri col k Htri' Hdash Hunder) as Hrecover.
    exists col, (FVal q). cbn [fst snd].
    split; [done|]. split; [done|].
    exists col, cell, (tri +:+ "-" +:+ col), k, q.
    repeat (split; [done|]).
    intros Hcelldup. by rewrite size_list_to_set.
  - exists es. split; [done|]. split; [done|].
    eapply Forall_impl; [done|]. by intros [[lex tag] w].
Qed.

Lemma scenario_b_separable : separable scenario_b.
Proof.
  split.
  - intros col [->|[]%elem_of_nil]%elem_of_cons. by vm_compute.
  - intros lex row col cell exponent Hrow [->|[]%elem_of_nil]%elem_of_cons.
    repeat (apply elem_of_cons in Hrow as [[= -> ->]|Hrow]);
      [| |by apply elem_of_nil in Hrow];
      vm_compute; intros [= <-] Hexp;
      repeat (apply elem_of_cons in Hexp as [->|Hexp]);
      done || by apply elem_of_nil in Hexp.
Qed.

Lemma scenario_b_list_cells : list_cells scenario_b.
Proof.
  intros lex row col text Hrow [->|[]%elem_of_nil]%elem_of_cons.
  repeat (apply elem_of_cons in Hrow as [[= -> ->]|Hrow]);
    [| |by apply elem_of_nil in Hrow]; by vm_compute.
Qed.

(** The weights of [scenario_b]. *)
Lemma edge_weights_reciprocal_witness :
  ∃ edges,
    calculate_edge_weights scenario_b
      (index_duplicate_exponents (build_lexeme_dict scenario_b))
      = (Ok edges, []) ∧
    edges.*1 = dict_to_tuple_list
                 (index_duplicate_exponents (build_lexeme_dict scenario_b)) ∧
    Forall (edge_spec scenario_b) edges.
Proof.
  apply (edge_weights_reciprocal scenario_b).
  - vm_compute. repeat constructor; set_solver.
  - apply scenario_b_list_cells.
  - apply scenario_b_separable.
  - split; apply (bool_decide_unpack _); vm_compute; reflexivity.
Defined.

(** Three tables outside those hypotheses: with a repeated exponent the
    weight is one over the length of the list, not over the number of
    distinct exponents; with the label ["NOM_PL"] the weight of ["L0"] is
    [NaN]; with a lexeme on two rows the weight is one over the mean
    length. *)
Lemma edge_weights_not_reciprocal :
  (calculate_edge_weights repeated_exponent
     (index_duplicate_exponents (build_lexeme_dict repeated_exponent))
   = (Ok [("L1", "#y#-NOM.SG", FVal (1 # 2));
          ("L1", "#y#-NOM.SG_1", FVal (1 # 2))], []) ∧
   size (list_to_set ["y"; "y"] : gset string) = 1) ∧
  calculate_edge_weights underscore_label
    (index_duplicate_exponents (build_lexeme_dict underscore_label))
  = (Ok [("L0", "#x#-NOM_PL", FNaN); ("L1", "#y#-NOM", FVal 1)], []) ∧
  calculate_edge_weights repeated_lexeme
    (index_duplicate_exponents (build_lexeme_dict repeated_lexeme))
  = (Ok [("L1", "#x#-NOM.SG", FVal (2 # 3)); ("L1", "#y#-NOM.SG", FVal (2 # 3));
         ("L1", "#z#-NOM.SG", FVal (2 # 3))], []).
Proof. repeat split; by vm_compute. Qed.

(** ** Failing lookups *)

Lemma edge_weight_fails weights_dict lexeme cell e :
  lookup_fails weights_dict lexeme cell e →
  edge_weight weights_dict lexeme cell = Raise e.
Proof.
  unfold edge_weight, getitem.
  intros [[Hm ->]|(m & Hm & [[Hc ->]|(q & Hc & Hq & ->)])];
    rewrite Hm; simpl; [done|by rewrite Hc..|].
  rewrite Hc. simpl. by rewrite (Qeq_eq_bool _ _ Hq).
Qed.

Lemma edge_weight_found weights_dict lexeme tag cell w :
  recover_cell tag = Ok cell →
  edge_weight weights_dict lexeme cell = Ok w →
  weight_found weights_dict (lexeme, tag, w).
Proof.
  intros Hcell. unfold edge_weight, getitem.
  destruct (weights_dict !! lexeme) as [m|] eqn:Hm; simpl; [|done].
  destruct (m !! cell) as [count|] eqn:Hcount; simpl; [|done].
  intros Hw. exists cell, m, count. repeat (split; [done|]).
  destruct count as [|q]; simpl in Hw.
  - left. by injection Hw as <-.
  - right. exists q. destruct (Qeq_bool q 0) eqn:Hq; [done|].
    injection Hw as <-. split; [done|]. split; [|done].
    intros Hq'. by rewrite (Qeq_eq_bool _ _ Hq') in Hq.
Qed.

Lemma weights_loop_fails_at weights_dict pre lexeme tag post cell e cell0 :
  all_weighted weights_dict pre →
  recover_cell tag = Ok cell →
  edge_weight weights_dict lexeme cell = Raise e →
  weights_loop weights_dict cell0 (pre ++ (lexeme, tag) :: post)
  = inr (e, (lexeme, tag), Some cell).
Proof.
  intros Hpre Hcell Hw. revert cell0.
  induction pre as [|e0 pre IH]; intros cell0; simpl.
  - by rewrite Hcell, Hw.
  - destruct (Hpre e0) as (c & w & -> & ->); [left|].
    rewrite IH; [done|]. intros e' He'. apply Hpre. by right.
Qed.

Lemma weights_loop_inl weights_dict edges cell0 es :
  weights_loop weights_dict cell0 edges = inl es →
  es.*1 = edges ∧ all_weighted weights_dict edges ∧
  Forall (weight_found weights_dict) es.
Proof.
  revert cell0 es. induction edges as [|[lexeme tag] edges IH];
    intros cell0 es; simpl.
  - intros [= <-]. split; [done|]. split; [by intros ? ?%elem_of_nil|done].
  - destruct (recover_cell tag) as [cell|] eqn:Hcell; [|done].
    destruct (edge_weight weights_dict lexeme cell) as [w|] eqn:Hw; [|done].
    destruct (weights_loop _ _ edges) as [es'|] eqn:Hloop; [|done].
    intros [= <-]. destruct (IH _ _ Hloop) as (Hfst & Hall & Hfound).
    split; [by rewrite fmap_cons, Hfst|]. split.
    + intros e [->|He]%elem_of_cons; [by exists cell, w|by apply Hall].
    + constructor; [by eapply edge_weight_found|done].
Qed.

(** C4, as amended. At the first edge whose lookup fails, the weight
    computation logs the exception, the edge with its lexeme and the cell
    label recovered from its tag, and raises that exception again. Whenever
    the lookup of some edge fails, the computation raises and returns no
    edges. Whenever it returns, nothing was logged, no edge was left out,
    and the weight of every edge is the reciprocal of the count found in the
    table for its lexeme and recovered cell label, never a default; that weight
    is a number whenever the count is one. *)
Theorem edge_weights_abort_or_found
    (weights_dict : gmap string (gmap string pyfloat))
    (indexed_dict : Dict (list string)) :
  (∀ pre lexeme tag post cell e,
     dict_to_tuple_list indexed_dict = pre ++ (lexeme, tag) :: post →
     all_weighted weights_dict pre →
     recover_cell tag = Ok cell →
     lookup_fails weights_dict lexeme cell e →
     calculate_edge_weights_on weights_dict indexed_dict
     = (Raise e, [LogError e; LogEdge lexeme tag; LogCell cell])) ∧
  (∀ lexeme tag cell e,
     (lexeme, tag) ∈ dict_to_tuple_list indexed_dict →
     recover_cell tag = Ok cell →
     lookup_fails weights_dict lexeme cell e →
     ∃ e' log, calculate_edge_weights_on weights_dict indexed_dict
               = (Raise e', log) ∧ log ≠ []) ∧
  (∀ edges log,
     calculate_edge_weights_on weights_dict indexed_dict = (Ok edges, log) →
     log = [] ∧ edges.*1 = dict_to_tuple_list indexed_dict ∧
     Forall (weight_found weights_dict) edges).
Proof.
  unfold calculate_edge_weights_on. split; [|split].
  - intros pre lexeme tag post cell e -> Hpre Hcell Hfail%edge_weight_fails.
    by rewrite (weights_loop_fails_at _ _ _ _ _ _ _ _ Hpre Hcell Hfail).
  - intros lexeme tag cell e Hin Hcell Hfail%edge_weight_fails.
    destruct (weights_loop _ _ _) as [es|[[e' lst] [c|]]] eqn:Hloop;
      [|by eexists _, _..].
    apply weights_loop_inl in Hloop as (_ & Hall & _).
    destruct (Hall _ Hin) as (c & w & Hc & Hw). simpl in Hc, Hw.
    congruence.
  - intros edges log.
    destruct (weights_loop _ _ _) as [es|[[e' lst] [c|]]] eqn:Hloop;
      [|done..].
    intros [= <- <-]. split; [done|].
    by apply weights_loop_inl in Hloop as (? & _ & ?).
Qed.

(** A failure of the weight computation is a failure of the build: no
    graph is returned. *)
Lemma create_bipartite_graph_aborts df e log :
  calculate_edge_weights df (index_duplicate_exponents (build_lexeme_dict df))
    = (Raise e, log) →
  create_bipartite_graph df = (Raise e, log).
Proof. unfold create_bipartite_graph. by intros ->. Qed.

(** The abort on [hyphen_exponent]: the second edge fails. *)
Lemma edge_weights_abort_witness :
  calculate_edge_weights hyphen_exponent
    (index_duplicate_exponents (build_lexeme_dict hyphen_exponent))
  = (Raise (KeyError (KeyStr "s")),
     [LogError (KeyError (KeyStr "s")); LogEdge "L2" "#-s-NOM.SG";
      LogCell "s"]).
Proof.
  unfold calculate_edge_weights.
  rewrite weights_table_Ok
    by (split; apply (bool_decide_unpack _); vm_compute; reflexivity).
  apply (proj1 (edge_weights_abort_or_found
                  (pivot_table (drop_stem hyphen_exponent))
                  (index_duplicate_exponents
                     (build_lexeme_dict hyphen_exponent)))
           [("L1", "#a#-NOM.SG")] "L2" "#-s-NOM.SG" [("L2", "-s#-NOM.SG")]).
  - reflexivity.
  - intros e ->%list_elem_of_singleton. by exists "NOM.SG", (FVal 1).
  - reflexivity.
  - right. eexists. split; [by vm_compute|]. left. split; [by vm_compute|done].
Defined.

(** A weight that is not a number, on [underscore_label]: the graph is
    built without any error, and the edge of ["L0"] carries [NaN], because
    the label recovered from its tag names a column in which ["L0"] has no
    exponents. *)
Lemma nan_weight_in_returned_graph :
  ∃ B, create_bipartite_graph underscore_label = (Ok B, []) ∧
       g_adj B !! ("L0", "#x#-NOM_PL") = Some FNaN ∧
       recover_cell "#x#-NOM_PL" = Ok "NOM" ∧
       (∃ weights_dict per_lexeme,
          weights_table underscore_label = Ok weights_dict ∧
          weights_dict !! "L0" = Some per_lexeme ∧
          per_lexeme !! "NOM" = Some FNaN).
Proof.
  eexists. split; [by vm_compute|]. split; [by vm_compute|].
  split; [by vm_compute|]. eexists _, _.
  split; [by vm_compute|]. split; by vm_compute.
Qed.

(** ** The report *)

(** C9, on scenario C. The report has one row for the pair; its key
    renders the lower resolution, then the upper one; the average is the
    sentinel. The column [ncomms_upper] holds the number of communities at
    the lower resolution of the pair, and [ncomms_lower] the number at the
    upper one. *)
Theorem report_counts_swapped (set_iter : gset string → list string)
    (str_float : Qc → string) :
  run_hierarchy_analysis set_iter str_float scenario_c
    (Some [Q2Qc 0; Q2Qc 1])
  = Ok [{| Keys := Some (str_float (Q2Qc 0) +:+ "_" +:+ str_float (Q2Qc 1));
           Averages := Some (AvgStr "Every lexeme in its own community");
           ncomms_upper := 1;
           ncomms_lower := 2 |}] ∧
  length <$> scenario_c !! Q2Qc 0 = Some 1 ∧
  length <$> scenario_c !! Q2Qc 1 = Some 2.
Proof. repeat split; by vm_compute. Qed.

(** The rows of the report in general. *)
Section report.
Variable set_iter : gset string → list string.
Variable str_float : Qc → string.
Hypothesis set_iter_enumerates : ∀ s, set_iter s ≡ₚ elements s.

Lemma calculate_hierarchy_coefficient_total lower upper :
  ∃ r, calculate_hierarchy_coefficient set_iter lower upper = Ok r.
Proof.
  unfold calculate_hierarchy_coefficient. case_decide; [by eexists|].
  destruct (community_ratings_ok set_iter set_iter_enumerates lower upper)
    as (scores & -> & _).
  by eexists.
Qed.

Lemma rating_of_eq communities lower_res upper_res lc uc r :
  communities !! lower_res = Some lc → communities !! upper_res = Some uc →
  calculate_hierarchy_coefficient set_iter lc uc = Ok r →
  rating_of set_iter communities (lower_res, upper_res) = r.
Proof.
  intros Hl Hu Hr. unfold rating_of. cbn [fst snd]. rewrite Hl, Hu.
  cbn [default from_option id]. by rewrite Hr.
Qed.

Lemma analyze_pairs_distinct communities tuples hierarchy_ratings :
  (∀ t, t ∈ tuples →
     is_Some (communities !! t.1) ∧ is_Some (communities !! t.2)) →
  NoDup (hierarchy_ratings.*1 ++ (uncurry (pair_key str_float) <$> tuples)) →
  analyze_pairs set_iter str_float communities tuples hierarchy_ratings
  = Ok (hierarchy_ratings
        ++ ((λ t, (uncurry (pair_key str_float) t, rating_of set_iter communities t))
              <$> tuples)).
Proof.
  revert hierarchy_ratings.
  induction tuples as [|[lower_res upper_res] tuples IH];
    intros acc Hpresent Hnodup.
  - by rewrite fmap_nil, app_nil_r.
  - destruct (Hpresent (lower_res, upper_res)) as [[lc Hl] [uc Hu]]; [left|].
    cbn [fst snd] in Hl, Hu.
    destruct (calculate_hierarchy_coefficient_total lc uc) as [r Hr].
    rewrite !fmap_cons in *. rewrite (rating_of_eq _ _ _ _ _ _ Hl Hu Hr).
    cbn [analyze_pairs uncurry] in *. unfold getitem. rewrite Hl, Hu.
    cbn [mbind result_bind]. rewrite Hr.
    apply NoDup_app in Hnodup as (Hacc & Hfresh & Htuples).
    apply NoDup_cons in Htuples as [Hkey Htuples].
    cbn [mbind result_bind].
    rewrite dict_set_fresh by (intros ?; eapply Hfresh; [done|left]).
    rewrite IH.
    + by rewrite <-app_assoc.
    + intros t Ht. apply Hpresent. by right.
    + rewrite fmap_app, fmap_cons, fmap_nil. cbn [fst].
      rewrite <-app_assoc. cbn [app].
      apply NoDup_app. split; [done|]. split; [|by constructor].
      intros k Hk. by apply Hfresh.
Qed.

Lemma community_counts_present communities xs :
  (∀ x, x ∈ xs → is_Some (communities !! x)) →
  community_counts communities xs
  = Ok ((λ x, length (default [] (communities !! x))) <$> xs).
Proof.
  induction xs as [|x xs IH]; intros Hpresent; simpl; [done|].
  destruct (Hpresent x) as [c Hc]; [left|].
  unfold getitem. rewrite Hc. simpl.
  rewrite IH by (intros x' ?; apply Hpresent; by right). done.
Qed.

Lemma lookup_resolution_pairs resolutions i lower_res upper_res :
  resolution_pairs resolutions !! i = Some (lower_res, upper_res) →
  all_but_last resolutions !! i = Some lower_res ∧
  tail resolutions !! i = Some upper_res.
Proof.
  unfold resolution_pairs, all_but_last.
  intros (x & y & [= <- <-] & Hx & Hy)%lookup_zip_with_Some.
  split; [|done]. rewrite lookup_take_lt; [done|].
  apply lookup_lt_Some in Hy.
  destruct resolutions as [|r rs]; simpl in *; lia.
Qed.
Lemma elem_of_all_but_last (x : Qc) resolutions :
  x ∈ all_but_last resolutions → x ∈ resolutions.
Proof. unfold all_but_last. apply subseteq_take. Qed.

Lemma elem_of_tail (x : Qc) resolutions :
  x ∈ tail resolutions → x ∈ resolutions.
Proof. destruct resolutions; [done|]. by right. Qed.

Lemma length_resolution_pairs resolutions :
  length (resolution_pairs resolutions) = length resolutions - 1 ∧
  length (all_but_last resolutions) = length resolutions - 1 ∧
  length (tail resolutions) = length resolutions - 1.
Proof.
  unfold resolution_pairs, all_but_last.
  rewrite length_zip_with, length_take.
  destruct resolutions as [|r rs]; [done|].
  cbn [tail length]. lia.
Qed.

(** What every row of the report holds, when the communities of all the
    resolutions are known and no two pairs render to the same key. *)
Theorem report_rows (communities : gmap Qc (list (gset string)))
    (resolutions : list Qc) :
  (∀ res, res ∈ resolutions → is_Some (communities !! res)) →
  NoDup (uncurry (pair_key str_float) <$> resolution_pairs resolutions) →
  ∃ rows,
    run_hierarchy_analysis set_iter str_float communities (Some resolutions)
      = Ok rows ∧
    length rows = length (resolution_pairs resolutions) ∧
    ∀ i lower_res upper_res,
      resolution_pairs resolutions !! i = Some (lower_res, upper_res) →
      ∃ lower_comms upper_comms r,
        communities !! lower_res = Some lower_comms ∧
        communities !! upper_res = Some upper_comms ∧
        calculate_hierarchy_coefficient set_iter lower_comms upper_comms
          = Ok r ∧
        rows !! i
        = Some {| Keys := Some (pair_key str_float lower_res upper_res);
                  Averages := Some (average_of r);
                  ncomms_upper := length lower_comms;
                  ncomms_lower := length upper_comms |}.
Proof.
  intros Hpresent Hkeys.
  destruct (length_resolution_pairs resolutions) as (Hlen & Hlenu & Hlenl).
  set (tuples := resolution_pairs resolutions) in *.
  set (entry := λ t : Qc * Qc,
         (uncurry (pair_key str_float) t, rating_of set_iter communities t)).
  assert (∀ t, t ∈ tuples →
            is_Some (communities !! t.1) ∧ is_Some (communities !! t.2))
    as Hpairs.
  { intros [l u] [i Hi]%list_elem_of_lookup.
    apply lookup_resolution_pairs in Hi as [Hl Hu].
    split; apply Hpresent; simpl.
    - apply list_elem_of_lookup_2 in Hl. by apply elem_of_all_but_last.
    - apply list_elem_of_lookup_2 in Hu. by apply elem_of_tail. }
  unfold run_hierarchy_analysis, analyze_hierarchy.
  cbn [default from_option id].
  fold tuples. rewrite (analyze_pairs_distinct communities tuples [] Hpairs Hkeys).
  cbn [app mbind result_bind]. fold entry.
  unfold create_hierarchy_dataframe. cbn [default from_option id].
  rewrite (foldl_dict_set_NoDup average_of)
    by (by rewrite <-list_fmap_compose).
  rewrite !community_counts_present.
  2, 3: intros x Hx; apply Hpresent;
    first [by apply elem_of_all_but_last | by apply elem_of_tail].
  cbn [mbind result_bind].
  set (count := λ x, length (default [] (communities !! x))).
  set (averages := prod_map id average_of <$> (entry <$> tuples)).
  set (row := λ '(key, avg) '(u, l),
         {| Keys := Some key; Averages := Some avg;
            ncomms_upper := u; ncomms_lower := l |}).
  assert (length averages = length tuples) as Hlena
    by (unfold averages; by rewrite !length_fmap).
  exists (zip_with row averages
            (zip (count <$> all_but_last resolutions)
                 (count <$> tail resolutions))).
  split; [|split].
  - destruct averages as [|a averages'] eqn:Havg.
    + simpl in Hlena. destruct (all_but_last resolutions); [done|].
      simpl in Hlenu. lia.
    + rewrite decide_True; [done|].
      rewrite length_fmap, Hlenu, <-Hlen, <-Hlena. done.
  - rewrite !length_zip_with, !length_fmap. lia.
  - intros i lower_res upper_res Hi.
    destruct (Hpairs (lower_res, upper_res)) as [[lc Hl] [uc Hu]];
      [by eapply list_elem_of_lookup_2|]. simpl in Hl, Hu.
    destruct (calculate_hierarchy_coefficient_total lc uc) as [r Hr].
    exists lc, uc, r. repeat (split; [done|]).
    pose proof (lookup_resolution_pairs _ _ _ _ Hi) as [Hlow Hup].
    apply lookup_zip_with_Some.
    exists (pair_key str_float lower_res upper_res, average_of r),
           (length lc, length uc).
    split; [done|]. split.
    + unfold averages. rewrite !list_lookup_fmap. fold tuples in Hi.
      rewrite Hi.
      change (Some (uncurry (pair_key str_float) (lower_res, upper_res),
                    average_of (rating_of set_iter communities (lower_res, upper_res)))
              = Some (pair_key str_float lower_res upper_res, average_of r)).
      by rewrite (rating_of_eq _ _ _ _ _ _ Hl Hu Hr).
    + apply lookup_zip_with_Some. exists (length lc), (length uc).
      split; [done|]. rewrite !list_lookup_fmap, Hlow, Hup. simpl.
      unfold count. by rewrite Hl, Hu.
Qed.
End report.

(** * Further properties of the pipeline *)

(** ** Runs of consecutive slots *)

Lemma is_run_snoc g l n :
  is_run g → last g = Some l → n = (l + 1)%Z → is_run (g ++ [n]).
Proof.
  intros Hg Hl -> i x y Hx Hy.
  apply last_Some in Hl as [g' ->].
  destruct (decide (S i < length (g' ++ [l]))) as [Hlt|Hge].
  - rewrite lookup_app_l in Hy by done.
    rewrite lookup_app_l in Hx by lia. eauto.
  - rewrite length_app in Hge. simpl in Hge.
    assert (is_Some (((g' ++ [l]) ++ [(l + 1)%Z]) !! S i)) as Hs by eauto.
    apply lookup_lt_is_Some in Hs. rewrite !length_app in Hs. simpl in Hs.
    assert (i = length g') as -> by lia.
    rewrite <- (assoc_L (++)) in Hx, Hy.
    rewrite lookup_app_r in Hx by lia. rewrite Nat.sub_diag in Hx.
    rewrite lookup_app_r in Hy by lia.
    replace (S (length g') - length g') with 1 in Hy by lia.
    simpl in Hx, Hy. congruence.
Qed.

Lemma separated_snoc_grow sets cur n :
  cur ≠ [] → separated (sets ++ [cur]) → separated (sets ++ [cur ++ [n]]).
Proof.
  intros Hcur Hsep k g h Hg Hh.
  assert (S k < length (sets ++ [cur ++ [n]])) as Hlt
    by (apply lookup_lt_is_Some; eauto).
  rewrite length_app in Hlt. simpl in Hlt.
  rewrite lookup_app_l in Hg by lia.
  destruct (decide (S k < length sets)) as [Hk|Hk].
  - rewrite lookup_app_l in Hh by done.
    apply (Hsep k); [by rewrite lookup_app_l by lia|by rewrite lookup_app_l].
  - assert (S k = length sets) as Hk' by lia.
    rewrite lookup_app_r, Hk', Nat.sub_diag in Hh by lia.
    injection Hh as <-.
    destruct (Hsep k g cur) as (x & y & Hx & Hy & Hne).
    + by rewrite lookup_app_l by lia.
    + by rewrite lookup_app_r, Hk', Nat.sub_diag by lia.
    + exists x, y. split_and!; [done| |done].
      destruct cur; [done|]. done.
Qed.

Lemma separated_snoc_break sets cur l n :
  last cur = Some l → n ≠ (l + 1)%Z →
  (sets ≠ [] → separated (sets ++ [cur])) →
  separated ((sets ++ [cur]) ++ [[n]]).
Proof.
  intros Hl Hn Hsep k g h Hg Hh.
  assert (S k < length ((sets ++ [cur]) ++ [[n]])) as Hlt
    by (apply lookup_lt_is_Some; eauto).
  rewrite !length_app in Hlt. simpl in Hlt.
  destruct (decide (S k < length (sets ++ [cur]))) as [Hk|Hk].
  - rewrite lookup_app_l in Hh by done.
    rewrite lookup_app_l in Hg by lia.
    apply (Hsep ltac:(intros ->; simpl in Hk; lia) k); done.
  - rewrite length_app in Hk. simpl in Hk.
    assert (k = length sets) as -> by lia.
    rewrite lookup_app_l in Hg by (rewrite length_app; simpl; lia).
    rewrite lookup_app_r, Nat.sub_diag in Hg by lia.
    rewrite lookup_app_r in Hh by (rewrite length_app; simpl; lia).
    rewrite length_app in Hh. simpl in Hh.
    replace (S (length sets) - (length sets + 1)) with 0 in Hh by lia.
    simpl in Hg, Hh. injection Hg as <-. injection Hh as <-.
    exists l, n. done.
Qed.

Lemma consecutive_loop_invariant p :
  ∃ sets cur,
    foldl consecutive_step ([], []) p = (sets, cur) ∧
    mjoin sets ++ cur = p ∧
    Forall (λ g, g ≠ []) sets ∧
    (p ≠ [] → cur ≠ []) ∧ (cur = [] → sets = []) ∧
    Forall is_run sets ∧ is_run cur ∧
    (cur ≠ [] → separated (sets ++ [cur])).
Proof.
  induction p as [|n p IH] using rev_ind.
  - exists [], []. by split_and!.
  - destruct IH as (sets & cur & Hfold & Hjoin & Hne & Hcur & Hsets & Hruns
                    & Hrun & Hsep).
    rewrite foldl_snoc, Hfold. unfold consecutive_step.
    destruct (last cur) as [l|] eqn:Hl.
    + assert (cur ≠ []) as Hcur' by (intros ->; done).
      destruct (decide (n = (l + 1)%Z)) as [->|Hn].
      * exists sets, (cur ++ [(l + 1)%Z]). split_and!; try done.
        -- by rewrite (assoc_L (++)), Hjoin.
        -- intros _ H%app_eq_nil. naive_solver.
        -- intros H%app_eq_nil. naive_solver.
        -- by eapply is_run_snoc.
        -- intros _. apply separated_snoc_grow; auto.
      * exists (sets ++ [cur]), [n]. split_and!; try done.
        -- rewrite <- Hjoin. rewrite join_app. simpl.
           by rewrite app_nil_r.
        -- apply Forall_app. split; [done|]. by constructor.
        -- apply Forall_app. split; [done|]. by constructor.
        -- intros _. eapply separated_snoc_break; eauto.
    + apply last_None in Hl as ->.
      rewrite (Hsets eq_refl) in *.
      exists [], [n]. split_and!; try done.
      simpl in Hjoin. by subst p.
Qed.

(** X17: the groups that [find_consecutive_sets] returns, one after the
    other, are the input in ascending order: nothing is lost or added,
    no group is empty, and there is no group only for an empty input. *)
Theorem find_consecutive_sets_partition (lst : list Z) :
  mjoin (find_consecutive_sets lst) = merge_sort Z.le lst ∧
  mjoin (find_consecutive_sets lst) ≡ₚ lst ∧
  StronglySorted Z.le (mjoin (find_consecutive_sets lst)) ∧
  Forall (λ g, g ≠ []) (find_consecutive_sets lst) ∧
  (find_consecutive_sets lst = [] ↔ lst = []).
Proof.
  unfold find_consecutive_sets.
  destruct (consecutive_loop_invariant (merge_sort Z.le lst))
    as (sets & cur & -> & Hjoin & Hne & Hcur & Hsets & _).
  assert (mjoin (if decide (cur = []) then sets else sets ++ [cur])
          = merge_sort Z.le lst) as Heq.
  { destruct (decide (cur = [])) as [->|_].
    - by rewrite app_nil_r in Hjoin.
    - rewrite join_app. simpl. by rewrite app_nil_r. }
  split_and!.
  - done.
  - rewrite Heq. apply merge_sort_Permutation.
  - rewrite Heq. apply StronglySorted_merge_sort; apply _.
  - destruct (decide (cur = [])); [done|].
    apply Forall_app. split; [done|]. by constructor.
  - split.
    + intros Hnil. rewrite Hnil in Heq. simpl in Heq.
      symmetry. apply Permutation_nil_l. rewrite Heq.
      apply merge_sort_Permutation.
    + intros ->. assert (merge_sort Z.le [] = []) as E by reflexivity.
      rewrite E in Hjoin. apply app_eq_nil in Hjoin as [_ ->].
      rewrite decide_True by done. by apply Hsets.
Qed.

(** X18: in every group each number is the one before it plus one, and
    a group ends where the next number is not the last one plus one: the
    groups are the maximal runs of consecutive numbers. *)
Theorem find_consecutive_sets_runs (lst : list Z) :
  Forall is_run (find_consecutive_sets lst) ∧
  separated (find_consecutive_sets lst).
Proof.
  unfold find_consecutive_sets.
  destruct (consecutive_loop_invariant (merge_sort Z.le lst))
    as (sets & cur & -> & _ & _ & _ & Hsets & Hruns & Hrun & Hsep).
  destruct (decide (cur = [])) as [->|Hc].
  - rewrite (Hsets eq_refl). split; [done|]. by intros k g h ?.
  - split; [|by apply Hsep].
    apply Forall_app. split; [done|]. by constructor.
Qed.

(** ** The triphones spell the exponent *)

Lemma str_substring_full s : String.substring 0 (String.length s) s = s.
Proof. induction s as [|c s IH]; simpl; [done|by rewrite IH]. Qed.

Lemma str_substring_snoc s m :
  m < String.length s →
  String.substring 0 m s +:+ String.substring m 1 s
  = String.substring 0 (S m) s.
Proof.
  revert m. induction s as [|c s IH]; intros m Hm; simpl in Hm; [lia|].
  destruct m as [|m].
  - simpl. by destruct s.
  - change (String.substring 0 (S m) (String c s))
      with (String c (String.substring 0 m s)).
    change (String.substring 0 (S (S m)) (String c s))
      with (String c (String.substring 0 (S m) s)).
    change (String.substring (S m) 1 (String c s))
      with (String.substring m 1 s).
    rewrite str_app_cons. f_equal. apply IH. lia.
Qed.

Lemma str_substring_substring s i m j k :
  j + k ≤ m →
  String.substring j k (String.substring i m s) = String.substring (i + j) k s.
Proof.
  revert i m j k. induction s as [|c s IH]; intros i m j k Hjk.
  - destruct i, m, j, k; simpl; done.
  - destruct i as [|i]; [|by apply (IH i)].
    destruct m as [|m].
    + assert (j = 0) as -> by lia. assert (k = 0) as -> by lia. done.
    + destruct j as [|j]; simpl.
      * destruct k as [|k]; [done|]. f_equal. by apply (IH 0 m 0 k); lia.
      * apply (IH 0 m j k). lia.
Qed.

Lemma last_char_triphone s i :
  i + 3 ≤ String.length s →
  last_char (String.substring i 3 s) = String.substring (i + 2) 1 s.
Proof.
  intros Hi. unfold last_char.
  rewrite str_length_substring by done.
  by apply str_substring_substring.
Qed.

Lemma spelled_prefix s a k :
  a + k + 2 ≤ String.length s →
  foldl (λ acc i, acc +:+ last_char (String.substring i 3 s))
        (String.substring 0 (a + 2) s) (seq a k)
  = String.substring 0 (a + k + 2) s.
Proof.
  revert a. induction k as [|k IH]; intros a Hk; simpl.
  - by rewrite Nat.add_0_r.
  - rewrite last_char_triphone by lia.
    rewrite str_substring_snoc by lia.
    change (S (a + 2)) with (S a + 2).
    rewrite (IH (S a)) by lia. f_equal. lia.
Qed.

(** X1: the framed exponent is read back from its triphones, so that two
    exponents with the same triphones are the same exponent. *)
Theorem generate_triphones_round_trip (input_str : string) :
  spelled (generate_triphones input_str) = padded input_str ∧
  ∀ other, generate_triphones input_str = generate_triphones other →
           input_str = other.
Proof.
  assert (∀ s, spelled (generate_triphones s) = padded s) as Hspell.
  { intros s. unfold generate_triphones. fold (padded s).
    pose proof (length_padded s) as Hlen.
    destruct (decide (String.length (padded s) ≤ 3)) as [Hle|Hgt]; [done|].
    destruct (String.length (padded s) - 2) as [|n] eqn:Hn; [lia|].
    assert ((λ i, str_slice (padded s) i (i + 3)) <$> seq 0 (S n)
            = (λ i, String.substring i 3 (padded s)) <$> seq 0 (S n)) as ->.
    { apply list_fmap_ext. intros _ i _. unfold str_slice. f_equal. lia. }
    rewrite <- cons_seq, fmap_cons. cbn [spelled].
    rewrite foldl_fmap.
    change (String.substring 0 3 (padded s))
      with (String.substring 0 (1 + 2) (padded s)).
    rewrite spelled_prefix by lia.
    replace (1 + n + 2) with (String.length (padded s)) by lia.
    apply str_substring_full. }
  split; [apply Hspell|].
  intros other Heq. apply (f_equal spelled) in Heq.
  rewrite !Hspell in Heq. unfold padded in Heq.
  rewrite !str_app_cons in Heq. injection Heq as Heq.
  change ("" +:+ ?x) with x in Heq.
  by apply (app_sep_inj "#" _ _ "" "") in Heq as [-> _].
Qed.

(** ** The lexeme dictionary, row by row *)

Lemma dict_get_set {V} (d : Dict V) k v : dict_get (dict_set d k v) k = Some v.
Proof.
  induction d as [|[k' v'] d IH]; simpl.
  - by rewrite decide_True.
  - destruct (decide (k' = k)) as [->|Hne]; simpl.
    + by rewrite decide_True.
    + by rewrite decide_False.
Qed.

Lemma dict_set_set {V} (d : Dict V) k v v' :
  dict_set (dict_set d k v) k v' = dict_set d k v'.
Proof.
  induction d as [|[k' w] d IH]; simpl.
  - by rewrite decide_True.
  - destruct (decide (k' = k)) as [->|Hne]; simpl.
    + by rewrite decide_True.
    + by rewrite decide_False, IH.
Qed.

Lemma build_row_live cols idx row d :
  build_row cols idx row d
  = foldl (λ d col,
             match live_cell row col with
             | Some cell =>
                 dict_iadd d idx (cell_tagged col (cell_exponents cell))
             | None => d
             end) d cols.
Proof.
  unfold build_row, live_cell. revert d.
  induction cols as [|col cols IH]; intros d; [done|].
  cbn [foldl]. rewrite IH. f_equal.
  destruct (row !! col) as [cell|]; [|done]. simpl.
  by destruct (is_nan_text cell).
Qed.

Lemma row_tags_no_cell cols row : ¬ has_cell cols row → row_tags cols row = [].
Proof.
  unfold has_cell, row_tags. induction cols as [|col cols IH]; [done|].
  intros Hno. rewrite bind_cons.
  destruct (live_cell row col) as [cell|] eqn:Hcell.
  - exfalso. apply Hno. left. by rewrite Hcell.
  - simpl. apply IH. intros H. apply Hno. by right.
Qed.

Lemma build_row_spec cols idx row d :
  build_row cols idx row d
  = if decide (has_cell cols row)
    then dict_set d idx (default [] (dict_get d idx) ++ row_tags cols row)
    else d.
Proof.
  rewrite build_row_live. unfold has_cell, row_tags. revert d.
  induction cols as [|col cols IH]; intros d.
  - rewrite decide_False; [done|]. by intros ?%Exists_nil.
  - cbn [foldl]. rewrite bind_cons.
    destruct (live_cell row col) as [cell|] eqn:Hcell.
    + rewrite (decide_True (P := Exists _ (col :: cols)))
        by (left; by rewrite Hcell).
      rewrite IH. unfold dict_iadd. cbn [from_option].
      destruct (decide (Exists _ cols)) as [Hex|Hno].
      * rewrite dict_get_set, dict_set_set. cbn [default].
        by rewrite (assoc_L (++)).
      * apply row_tags_no_cell in Hno. unfold row_tags in Hno.
        by rewrite Hno, app_nil_r.
    + rewrite IH. cbn [from_option app].
      destruct (decide (Exists _ cols)) as [Hex|Hno].
      * rewrite decide_True; [done|]. by right.
      * rewrite decide_False; [done|].
        intros [Hs|?]%Exists_cons; [|done].
        rewrite Hcell in Hs. by destruct Hs.
Qed.

Lemma omap_cons_case {A B} (f : A → option B) x l :
  omap f (x :: l)
  = match f x with Some y => y :: omap f l | None => omap f l end.
Proof. done. Qed.

Lemma build_rows_fresh cols rows d :
  NoDup (d.*1 ++ rows.*1) →
  foldl (λ d '(idx, row), build_row cols idx row d) d rows
  = d ++ omap (λ '(idx, row),
                 if decide (has_cell cols row)
                 then Some (idx, row_tags cols row) else None) rows.
Proof.
  revert d. induction rows as [|[idx row] rows IH]; intros d Hnd.
  - simpl. by rewrite app_nil_r.
  - cbn [foldl]. rewrite omap_cons_case, build_row_spec.
    rewrite fmap_cons in Hnd. simpl in Hnd.
    apply NoDup_app in Hnd as (Hd & Hdisj & [Hidx Hrows]%NoDup_cons).
    assert (idx ∉ d.*1) as Hfresh.
    { intros Hin. apply (Hdisj idx Hin). by left. }
    destruct (decide (has_cell cols row)) as [Hex|Hno].
    + assert (dict_get d idx = None) as -> by by apply dict_get_None.
      cbn [default app]. rewrite dict_set_fresh by done.
      rewrite IH.
      * by rewrite <- (assoc_L (++)).
      * rewrite fmap_app. simpl. rewrite <- (assoc_L (++)). simpl.
        apply NoDup_app. split_and!; [done| |by constructor].
        intros x Hx. apply Hdisj. done.
    + apply IH. apply NoDup_app. split_and!; [done| |done].
      intros x Hx Hin. apply (Hdisj x Hx). by right.
Qed.

(** X2: on a table with distinct lexeme identifiers the dictionary lists,
    in table order, every row that holds a list of exponents in some
    column other than the stem columns, with the tagged triphones of its
    cells in column order; a row without any such cell gets no entry. *)
Theorem build_lexeme_dict_rows (df : DataFrame) :
  NoDup (df_rows df).*1 →
  build_lexeme_dict df
  = omap (λ '(idx, row),
            if decide (has_cell (df_columns (drop_stem df)) row)
            then Some (idx, row_tags (df_columns (drop_stem df)) row)
            else None)
         (df_rows df).
Proof.
  intros Hnd. unfold build_lexeme_dict.
  by rewrite build_rows_fresh.
Qed.

(** The rows of scenario B. *)
Lemma build_lexeme_dict_rows_witness :
  build_lexeme_dict scenario_b
  = omap (λ '(idx, row),
            if decide (has_cell (df_columns (drop_stem scenario_b)) row)
            then Some (idx, row_tags (df_columns (drop_stem scenario_b)) row)
            else None)
         (df_rows scenario_b).
Proof.
  apply (build_lexeme_dict_rows scenario_b).
  apply (bool_decide_unpack _). vm_compute. reflexivity.
Defined.

(** ** The lexemes of the dictionary and of the count table *)

Lemma elem_of_build_rows_keys cols rows (d : Dict (list string)) lex :
  lex ∈ (foldl (λ d '(idx, row), build_row cols idx row d) d rows).*1 ↔
  lex ∈ d.*1 ∨ ∃ row, (lex, row) ∈ rows ∧ has_cell cols row.
Proof.
  revert d. induction rows as [|[idx row] rows IH]; intros d.
  - simpl. split; [by left|]. intros [?|(row & []%elem_of_nil & _)]. done.
  - cbn [foldl]. rewrite IH, build_row_spec.
    destruct (decide (has_cell cols row)) as [Hex|Hno].
    + rewrite dict_set_keys. split.
      * intros [Hin|(row' & Hin & Hex')].
        -- destruct (decide (idx ∈ d.*1)); [by left|].
           apply elem_of_app in Hin as [?|Heq%list_elem_of_singleton];
             [by left|]. subst lex.
           right. exists row. split; [by left|done].
        -- right. exists row'. split; [by right|done].
      * intros [Hin|(row' & [Heq|Hin]%elem_of_cons & Hex')].
        -- left. destruct (decide (idx ∈ d.*1)); [done|].
           apply elem_of_app. by left.
        -- injection Heq as -> ->. left.
           destruct (decide (idx ∈ d.*1)); [done|].
           apply elem_of_app. right. by left.
        -- right. by exists row'.
    + split.
      * intros [?|(row' & Hin & Hex')]; [by left|].
        right. exists row'. split; [by right|done].
      * intros [?|(row' & [Heq|Hin]%elem_of_cons & Hex')]; [by left| |].
        -- by injection Heq as -> ->.
        -- right. by exists row'.
Qed.

Lemma elem_of_pivot_index_inv df lex :
  lex ∈ pivot_index df ↔
  ∃ row, (lex, row) ∈ df_rows df ∧ has_list (df_columns df) row.
Proof.
  unfold pivot_index. rewrite list_elem_of_fmap. split.
  - intros ([lex' row] & -> & [Hex Hin]%list_elem_of_filter). by exists row.
  - intros (row & Hin & Hex). exists (lex, row). split; [done|].
    by apply list_elem_of_filter.
Qed.

Lemma has_cell_list df lex row :
  list_cells df → (lex, row) ∈ df_rows df →
  has_cell (df_columns (drop_stem df)) row →
  has_list (df_columns (drop_stem df)) row.
Proof.
  intros Hlists Hrow. unfold has_cell, has_list. rewrite !Exists_exists.
  intros (col & Hcol & [cell Hcell]). exists col. split; [done|].
  unfold live_cell in Hcell.
  destruct (row !! col) as [[exponents|text]|] eqn:Hlookup; simpl in *.
  - eauto.
  - by destruct (Hlists lex row col text Hrow Hcol).
  - done.
Qed.

(** X3: when the table of counts is made, its lexemes are those with a
    list of exponents in some cell column, while the lexemes of the
    dictionary are those with any cell that the builder reads. Where
    every cell is a list or [NaN] the two agree and the lookup of the
    lexeme of an edge succeeds; an edge of a lexeme that has texts only
    stops the computation with a [KeyError] for the lexeme. *)
Theorem lexemes_of_dict_and_table (df : DataFrame)
    (weights_dict : gmap string (gmap string pyfloat)) :
  weights_table df = Ok weights_dict →
  (∀ lex, lex ∈ (index_duplicate_exponents (build_lexeme_dict df)).*1 ↔
          ∃ row, (lex, row) ∈ df_rows df ∧
                 has_cell (df_columns (drop_stem df)) row) ∧
  (∀ lex, is_Some (weights_dict !! lex) ↔
          ∃ row, (lex, row) ∈ df_rows df ∧
                 has_list (df_columns (drop_stem df)) row) ∧
  (list_cells df →
   ∀ lex tag,
     (lex, tag) ∈ dict_to_tuple_list
                    (index_duplicate_exponents (build_lexeme_dict df)) →
     is_Some (weights_dict !! lex)) ∧
  (∀ pre lex tag post cell,
     dict_to_tuple_list (index_duplicate_exponents (build_lexeme_dict df))
       = pre ++ (lex, tag) :: post →
     all_weighted weights_dict pre →
     recover_cell tag = Ok cell →
     (∀ row, (lex, row) ∈ df_rows df →
             ¬ has_list (df_columns (drop_stem df)) row) →
     calculate_edge_weights df
       (index_duplicate_exponents (build_lexeme_dict df))
     = (Raise (KeyError (KeyStr lex)),
        [LogError (KeyError (KeyStr lex)); LogEdge lex tag; LogCell cell])).
Proof.
  intros Htable.
  assert (weights_dict = pivot_table (drop_stem df)) as Hdict.
  { unfold weights_table in Htable. repeat case_decide; congruence. }
  assert (∀ lex, lex ∈ (index_duplicate_exponents (build_lexeme_dict df)).*1 ↔
                 ∃ row, (lex, row) ∈ df_rows df ∧
                        has_cell (df_columns (drop_stem df)) row) as Hkeys.
  { intros lex.
    rewrite index_duplicate_exponents_NoDup by apply build_lexeme_dict_NoDup.
    rewrite fmap_prod_map_keys. unfold build_lexeme_dict.
    rewrite elem_of_build_rows_keys. split; [|by right].
    intros [[]%elem_of_nil|?]. done. }
  assert (∀ lex, is_Some (weights_dict !! lex) ↔
                 ∃ row, (lex, row) ∈ df_rows df ∧
                        has_list (df_columns (drop_stem df)) row) as Hrows.
  { intros lex. rewrite Hdict. unfold pivot_table.
    rewrite lookup_list_to_map_fun.
    rewrite <- (elem_of_pivot_index_inv (drop_stem df)).
    destruct (decide (lex ∈ pivot_index (drop_stem df))); [by eauto|].
    split; [by intros []%is_Some_None|done]. }
  split_and!; [done..| |].
  - intros Hlists lex tag (tags & Hin & _)%elem_of_dict_to_tuple_list.
    assert (lex ∈ (index_duplicate_exponents (build_lexeme_dict df)).*1)
      as (row & Hrow & Hcell)%Hkeys
      by (apply list_elem_of_fmap; by exists (lex, tags)).
    apply Hrows. exists row. split; [done|]. by eapply has_cell_list.
  - intros pre lex tag post cell Hedges Hpre Hcell Hno.
    unfold calculate_edge_weights, calculate_edge_weights_on.
    rewrite Htable, Hedges.
    rewrite (weights_loop_fails_at weights_dict pre lex tag post cell
               (KeyError (KeyStr lex)) None); [done..|].
    apply edge_weight_fails. left. split; [|done].
    destruct (weights_dict !! lex) as [per_lexeme|] eqn:Hlex; [|done].
    destruct (proj1 (Hrows lex)) as (row & Hrow & Hlist); [by eauto|].
    by destruct (Hno row Hrow).
Qed.

(** On [text_cell] the first edge is an edge of the lexeme whose cell is
    a text: the table of counts has no row for it. *)
Lemma lexemes_of_dict_and_table_witness :
  calculate_edge_weights text_cell
    (index_duplicate_exponents (build_lexeme_dict text_cell))
  = (Raise (KeyError (KeyStr "L1")),
     [LogError (KeyError (KeyStr "L1")); LogEdge "L1" "#a#-NOM.SG";
      LogCell "NOM.SG"]).
Proof.
  destruct (lexemes_of_dict_and_table text_cell
              (pivot_table (drop_stem text_cell))) as (_ & _ & _ & H).
  - vm_compute. reflexivity.
  - apply (H [] "L1" "#a#-NOM.SG"
             [("L1", "#b#-NOM.SG"); ("L2", "#a#-NOM.SG")] "NOM.SG").
    + vm_compute. reflexivity.
    + intros e He. by apply elem_of_nil in He.
    + vm_compute. reflexivity.
    + intros row Hrow Hlist.
      apply elem_of_cons in Hrow as [[= ->]|Hrow].
      { revert Hlist. apply (bool_decide_unpack _). vm_compute. reflexivity. }
      apply elem_of_cons in Hrow as [[=]|Hrow].
      by apply elem_of_nil in Hrow.
Defined.

(** ** Tags that cannot be taken apart *)

Lemma str_split_nonempty sep s : str_split sep s ≠ [].
Proof.
  destruct s as [|c s]; simpl; [done|].
  destruct (decide (c = sep)); [done|].
  by destruct (str_split sep s).
Qed.

Lemma str_split_with sep s :
  str_contains sep s = true → ∃ a b rest, str_split sep s = a :: b :: rest.
Proof.
  induction s as [|c s IH]; simpl; [done|].
  destruct (decide (c = sep)) as [->|Hne].
  - intros _. pose proof (str_split_nonempty sep s).
    destruct (str_split sep s) as [|b rest]; [done|]. eauto.
  - intros (a & b & rest & ->)%IH. eauto.
Qed.

Lemma recover_cell_raises tag e :
  recover_cell tag = Raise e ↔ e = IndexError ∧ str_contains "-" tag = false.
Proof.
  unfold recover_cell.
  destruct (str_contains "-" tag) eqn:Hc.
  - apply str_split_with in Hc as (a & b & rest & ->).
    cbn [list_getitem lookup list_lookup mbind result_bind].
    pose proof (str_split_nonempty "_" b).
    destruct (str_contains "_" b); [|naive_solver].
    destruct (str_split "_" b); naive_solver.
  - rewrite str_split_without by done. naive_solver.
Qed.

Lemma weights_loop_unsplittable weights_dict pre lexeme tag post cell0 :
  all_weighted weights_dict pre →
  str_contains "-" tag = false →
  weights_loop weights_dict cell0 (pre ++ (lexeme, tag) :: post)
  = inr (IndexError, (lexeme, tag),
         match last pre with
         | None => cell0
         | Some prev =>
             match recover_cell prev.2 with
             | Ok cell => Some cell
             | Raise _ => cell0
             end
         end).
Proof.
  intros Hpre Htag. revert cell0.
  assert (recover_cell tag = Raise IndexError) as Hraise
    by by apply recover_cell_raises.
  induction pre as [|[lex' tag'] pre IH]; intros cell0.
  - simpl. by rewrite Hraise.
  - destruct (Hpre (lex', tag')) as (cell & w & Hcell & Hw); [by left|].
    cbn [fst snd] in Hcell, Hw. cbn [app weights_loop]. cbn [fst snd].
    rewrite Hcell, Hw, IH.
    2: { intros e He. apply Hpre. by right. }
    do 2 f_equal.
    destruct pre as [|p pre]; [by (cbn [last snd]; rewrite Hcell)|].
    cbn [last]. destruct (last (p :: pre)) as [prev|] eqn:Hlast;
      [|by apply last_None in Hlast].
    destruct (Hpre prev) as (c & ? & -> & _); [|done].
    right. apply last_Some in Hlast as [l' ->].
    apply elem_of_app. right. by left.
Qed.

(** X4: a tag without ["-"] stops the computation of the weights with an
    [IndexError], logged with the cell label recovered for the edge
    before it; at the first edge there is no such label, and the handler
    itself fails with [UnboundLocalError] after two of its three lines. *)
Theorem edge_weights_unsplittable_tag
    (weights_dict : gmap string (gmap string pyfloat))
    (indexed_dict : Dict (list string))
    (pre : list (string * string)) (lexeme tag : string)
    (post : list (string * string)) :
  dict_to_tuple_list indexed_dict = pre ++ (lexeme, tag) :: post →
  all_weighted weights_dict pre →
  str_contains "-" tag = false →
  recover_cell tag = Raise IndexError ∧
  (pre = [] →
   calculate_edge_weights_on weights_dict indexed_dict
   = (Raise UnboundLocalError, [LogError IndexError; LogEdge lexeme tag])) ∧
  (∀ prev, last pre = Some prev →
     ∃ cell, recover_cell prev.2 = Ok cell ∧
       calculate_edge_weights_on weights_dict indexed_dict
       = (Raise IndexError,
          [LogError IndexError; LogEdge lexeme tag; LogCell cell])).
Proof.
  intros Hedges Hpre Htag. split; [by apply recover_cell_raises|].
  unfold calculate_edge_weights_on.
  rewrite Hedges, weights_loop_unsplittable by done.
  split.
  - by intros ->.
  - intros prev Hlast. rewrite Hlast.
    destruct (Hpre prev) as (cell & ? & Hcell & _).
    { apply last_Some in Hlast as [l' ->]. apply elem_of_app. right. by left. }
    exists cell. by rewrite Hcell.
Qed.

(** A first edge whose tag has no ["-"]. *)
Lemma edge_weights_unsplittable_tag_witness :
  recover_cell "abc" = Raise IndexError ∧
  calculate_edge_weights_on ∅ [("L1", ["abc"])]
  = (Raise UnboundLocalError, [LogError IndexError; LogEdge "L1" "abc"]).
Proof.
  destruct (edge_weights_unsplittable_tag ∅ [("L1", ["abc"])] [] "L1" "abc" [])
    as (H1 & H2 & _).
  - reflexivity.
  - intros e He. by apply elem_of_nil in He.
  - reflexivity.
  - split; [exact H1|]. apply H2. reflexivity.
Defined.

(** ** The graph that the builder returns *)

Lemma add_node_if_new_present n (m : gmap string (option Z)) :
  is_Some (m !! n) → add_node_if_new n m = m.
Proof. intros [d Hd]. unfold add_node_if_new. by rewrite Hd. Qed.

Lemma foldl_add_edge_nodes (G : Graph) (edges : list Edge) :
  (∀ u v w, (u, v, w) ∈ edges →
     is_Some (g_nodes G !! u) ∧ is_Some (g_nodes G !! v)) →
  g_nodes (foldl add_edge G edges) = g_nodes G.
Proof.
  revert G. induction edges as [|[[u v] w] edges IH]; intros G Hin; [done|].
  destruct (Hin u v w) as [Hu Hv]; [by left|].
  assert (g_nodes (add_edge G (u, v, w)) = g_nodes G) as Hstep.
  { simpl. rewrite (add_node_if_new_present u) by done.
    by apply add_node_if_new_present. }
  cbn [foldl]. rewrite IH, Hstep; [done|].
  intros u' v' w' Hin'. rewrite Hstep. apply (Hin u' v' w'). by right.
Qed.

Lemma foldl_add_edge_symmetric (G : Graph) (edges : list Edge) :
  (∀ u v, g_adj G !! (u, v) = g_adj G !! (v, u)) →
  ∀ u v, g_adj (foldl add_edge G edges) !! (u, v)
         = g_adj (foldl add_edge G edges) !! (v, u).
Proof.
  revert G. induction edges as [|[[a b] w] edges IH]; intros G Hsym; [done|].
  cbn [foldl]. apply IH. intros u v. simpl.
  destruct (decide ((b, a) = (u, v))) as [Heq|Hne1].
  - injection Heq as <- <-. rewrite lookup_insert_eq.
    destruct (decide (a = b)) as [->|Hab]; [by rewrite lookup_insert_eq|].
    rewrite lookup_insert_ne by congruence. by rewrite lookup_insert_eq.
  - rewrite (lookup_insert_ne _ (b, a) (u, v)) by done.
    destruct (decide ((a, b) = (u, v))) as [Heq|Hne2].
    + injection Heq as <- <-. by rewrite !lookup_insert_eq.
    + rewrite (lookup_insert_ne _ (a, b) (u, v)) by done.
      rewrite !lookup_insert_ne by congruence. apply Hsym.
Qed.

Lemma foldl_add_edge_adj (G : Graph) (edges : list Edge) u v w :
  g_adj (foldl add_edge G edges) !! (u, v) = Some w →
  g_adj G !! (u, v) = Some w ∨ (u, v, w) ∈ edges ∨ (v, u, w) ∈ edges.
Proof.
  revert G. induction edges as [|[[a b] w'] edges IH]; intros G Hw;
    [by left|].
  cbn [foldl] in Hw. apply IH in Hw as [Hw|[Hw|Hw]].
  - simpl in Hw.
    apply lookup_insert_Some in Hw as [[Heq <-]|[_ Hw]].
    { injection Heq as <- <-. right. right. by left. }
    apply lookup_insert_Some in Hw as [[Heq <-]|[_ Hw]].
    { injection Heq as <- <-. right. left. by left. }
    by left.
  - right. left. by right.
  - right. right. by right.
Qed.

Lemma elem_of_dict_values (d : Dict (list string)) tag :
  tag ∈ mjoin d.*2 ↔ ∃ lex, (lex, tag) ∈ dict_to_tuple_list d.
Proof.
  rewrite list_elem_of_join. split.
  - intros (tags & Htag & ([lex tags'] & -> & Hin)%list_elem_of_fmap).
    exists lex. apply elem_of_dict_to_tuple_list. by exists tags'.
  - intros (lex & (tags & Hin & Htag)%elem_of_dict_to_tuple_list).
    exists tags. split; [done|]. apply list_elem_of_fmap. by exists (lex, tags).
Qed.

Lemma built_graph_nodes_lookup df B log n :
  create_bipartite_graph df = (Ok B, log) →
  g_nodes B !! n
  = if decide (n ∈ mjoin (index_duplicate_exponents (build_lexeme_dict df)).*2)
    then Some (Some 1%Z)
    else if decide (n ∈ (index_duplicate_exponents (build_lexeme_dict df)).*1)
         then Some (Some 0%Z) else None.
Proof.
  unfold create_bipartite_graph, calculate_edge_weights,
    calculate_edge_weights_on.
  set (indexed := index_duplicate_exponents (build_lexeme_dict df)).
  destruct (weights_table df) as [weights_dict|e0]; [|done].
  destruct (weights_loop _ _ _) as [es|[[e lst] [cell|]]] eqn:Hloop;
    [|done..].
  intros [= <- <-].
  apply weights_loop_inl in Hloop as (Hedges & _).
  assert (∀ k, foldl (λ m n, <[n := Some 1%Z]> m)
                 (foldl (λ m n, <[n := Some 0%Z]> m) (∅ : gmap string (option Z))
                    indexed.*1) (mjoin indexed.*2) !! k
               = if decide (k ∈ mjoin indexed.*2) then Some (Some 1%Z)
                 else if decide (k ∈ indexed.*1) then Some (Some 0%Z)
                      else None) as Hnodes.
  { intros k.
    rewrite (lookup_foldl_insert (λ _, Some 1%Z)).
    by rewrite (lookup_foldl_insert (λ _, Some 0%Z)). }
  rewrite foldl_add_edge_nodes; [apply Hnodes|].
  intros u v w Hin. simpl. rewrite !Hnodes.
  assert ((u, v) ∈ dict_to_tuple_list indexed) as Huv.
  { rewrite <- Hedges. apply list_elem_of_fmap. by exists (u, v, w). }
  assert (v ∈ mjoin indexed.*2) as Hv by (apply elem_of_dict_values; eauto).
  apply elem_of_dict_to_tuple_list in Huv as (tags & Hu & _).
  assert (u ∈ indexed.*1) as Hu'
    by (apply list_elem_of_fmap; by exists (u, tags)).
  rewrite (decide_True (P := v ∈ _)) by done.
  split; [|done].
  destruct (decide (u ∈ mjoin indexed.*2)); [done|].
  by rewrite decide_True.
Qed.

(** X5: every node of a graph that the builder returns carries the
    [bipartite] attribute: 1 for the tagged exponents, 0 for the lexemes
    that are not also the text of a tag, and there are no other nodes.
    The detector therefore finds its lexeme set on such a graph without a
    [KeyError]. *)
Theorem built_graph_nodes (df : DataFrame) (B : Graph) (log : list log_entry) :
  create_bipartite_graph df = (Ok B, log) →
  (∀ n, g_nodes B !! n
        = if decide (n ∈ mjoin (index_duplicate_exponents
                                  (build_lexeme_dict df)).*2)
          then Some (Some 1%Z)
          else if decide (n ∈ (index_duplicate_exponents
                                 (build_lexeme_dict df)).*1)
               then Some (Some 0%Z) else None) ∧
  ∃ lexemes,
    lexeme_nodes B = Ok lexemes ∧
    ∀ n, n ∈ lexemes ↔
         n ∈ (index_duplicate_exponents (build_lexeme_dict df)).*1 ∧
         n ∉ mjoin (index_duplicate_exponents (build_lexeme_dict df)).*2.
Proof.
  intros Hbuilt.
  pose proof (λ n, built_graph_nodes_lookup df B log n Hbuilt) as Hnodes.
  split; [done|].
  unfold lexeme_nodes. rewrite decide_True.
  - eexists. split; [done|]. intros n.
    rewrite elem_of_dom. unfold is_Some.
    setoid_rewrite map_lookup_filter_Some. rewrite Hnodes.
    repeat case_decide; naive_solver.
  - intros n d. rewrite Hnodes. repeat case_decide; naive_solver.
Qed.

(** The lexeme set of the graph of scenario B. *)
Lemma built_graph_nodes_witness :
  ∃ lexemes,
    lexeme_nodes scenario_b_graph = Ok lexemes ∧
    ∀ n, n ∈ lexemes ↔
         n ∈ (index_duplicate_exponents (build_lexeme_dict scenario_b)).*1 ∧
         n ∉ mjoin (index_duplicate_exponents
                      (build_lexeme_dict scenario_b)).*2.
Proof.
  apply (built_graph_nodes scenario_b scenario_b_graph []).
  vm_compute. reflexivity.
Defined.

Lemma ordinal_tag_contains c e k :
  str_contains c e = true → str_contains c (ordinal_tag e k) = true.
Proof.
  intros He. unfold ordinal_tag. destruct (decide (k = 0)); [done|].
  by rewrite str_contains_app, He.
Qed.

Lemma indexed_tag_hyphen df lex tag :
  (lex, tag) ∈ dict_to_tuple_list
                 (index_duplicate_exponents (build_lexeme_dict df)) →
  str_contains "-" tag = true.
Proof.
  intros (col & cell & e & k & Horigin & ->)%edge_origin.
  destruct Horigin as (row & exponent & tri & _ & _ & _ & _ & _ & _ & ->).
  apply ordinal_tag_contains.
  rewrite str_contains_app. apply orb_true_iff. right.
  change ("-" +:+ col) with (String "-" col). simpl. done.
Qed.

Lemma indexed_lexeme_row df lex :
  lex ∈ (index_duplicate_exponents (build_lexeme_dict df)).*1 →
  lex ∈ (df_rows df).*1.
Proof.
  rewrite index_duplicate_exponents_NoDup by apply build_lexeme_dict_NoDup.
  rewrite fmap_prod_map_keys. unfold build_lexeme_dict.
  rewrite elem_of_build_rows_keys.
  intros [[]%elem_of_nil|(row & Hin & _)].
  apply list_elem_of_fmap. by exists (lex, row).
Qed.

(** X6: the adjacency of a returned graph is symmetric; when no lexeme
    identifier of the table contains ["-"], every
    adjacency joins a lexeme (attribute 0) and a tagged exponent
    (attribute 1), and the lexeme set that the detector reads off the
    graph is the key set of the lexeme dictionary. *)
Theorem built_graph_bipartite (df : DataFrame) (B : Graph)
    (log : list log_entry) :
  create_bipartite_graph df = (Ok B, log) →
  (∀ u v, g_adj B !! (u, v) = g_adj B !! (v, u)) ∧
  ((∀ idx, idx ∈ (df_rows df).*1 → str_contains "-" idx = false) →
   (∀ u v w, g_adj B !! (u, v) = Some w →
      g_nodes B !! u = Some (Some 0%Z) ∧ g_nodes B !! v = Some (Some 1%Z) ∨
      g_nodes B !! u = Some (Some 1%Z) ∧ g_nodes B !! v = Some (Some 0%Z)) ∧
   lexeme_nodes B
   = Ok (list_to_set (index_duplicate_exponents (build_lexeme_dict df)).*1)).
Proof.
  intros Hbuilt.
  pose proof (λ n, built_graph_nodes_lookup df B log n Hbuilt) as Hnodes.
  revert Hbuilt Hnodes.
  unfold create_bipartite_graph, calculate_edge_weights,
    calculate_edge_weights_on.
  set (indexed := index_duplicate_exponents (build_lexeme_dict df)).
  destruct (weights_table df) as [weights_dict|e0]; [|done].
  destruct (weights_loop _ _ _) as [es|[[e lst] [cell|]]] eqn:Hloop;
    [|done..].
  intros [= <- <-] Hnodes.
  apply weights_loop_inl in Hloop as (Hedges & _).
  split; [by apply foldl_add_edge_symmetric|].
  intros Hids.
  assert (∀ n, n ∈ indexed.*1 → n ∉ mjoin indexed.*2) as Hsep.
  { intros n Hn (lex & Htag%indexed_tag_hyphen)%elem_of_dict_values.
    apply indexed_lexeme_row, Hids in Hn. congruence. }
  assert (∀ u v w, (u, v, w) ∈ es →
            u ∈ indexed.*1 ∧ v ∈ mjoin indexed.*2) as Hends.
  { intros u v w Hin.
    assert ((u, v) ∈ dict_to_tuple_list indexed) as Huv.
    { rewrite <- Hedges. apply list_elem_of_fmap. by exists (u, v, w). }
    split; [|apply elem_of_dict_values; eauto].
    apply elem_of_dict_to_tuple_list in Huv as (tags & Hu & _).
    apply list_elem_of_fmap. by exists (u, tags). }
  split.
  - intros u v w [Hw|[Hw|Hw]]%foldl_add_edge_adj; [done| |].
    + destruct (Hends _ _ _ Hw) as [Hu Hv]. left. rewrite !Hnodes.
      rewrite (decide_False (P := u ∈ mjoin _)) by by apply Hsep.
      by rewrite !decide_True.
    + destruct (Hends _ _ _ Hw) as [Hv Hu]. right. rewrite !Hnodes.
      rewrite (decide_False (P := v ∈ mjoin _)) by by apply Hsep.
      by rewrite !decide_True.
  - unfold lexeme_nodes. rewrite decide_True.
    + f_equal. apply set_eq. intros n.
      rewrite elem_of_dom, elem_of_list_to_set. unfold is_Some.
      setoid_rewrite map_lookup_filter_Some. rewrite Hnodes.
      specialize (Hsep n). repeat case_decide; naive_solver.
    + intros n d. rewrite Hnodes. repeat case_decide; naive_solver.
Qed.

(** The graph of scenario B, whose lexeme identifiers have no ["-"]. *)
Lemma built_graph_bipartite_witness :
  (∀ u v, g_adj scenario_b_graph !! (u, v) = g_adj scenario_b_graph !! (v, u)) ∧
  lexeme_nodes scenario_b_graph
  = Ok (list_to_set (index_duplicate_exponents
                       (build_lexeme_dict scenario_b)).*1).
Proof.
  destruct (built_graph_bipartite scenario_b scenario_b_graph []) as [H1 H2].
  - vm_compute. reflexivity.
  - split; [exact H1|]. apply H2.
    intros idx Hin. simpl in Hin.
    apply elem_of_cons in Hin as [->|Hin]; [reflexivity|].
    apply elem_of_cons in Hin as [->|Hin]; [reflexivity|].
    by apply elem_of_nil in Hin.
Defined.

(** ** What the detector keeps *)

Lemma length_lexeme_only lexemes comms :
  length (lexeme_only lexemes comms) ≤ length comms.
Proof.
  unfold lexeme_only. induction comms as [|s comms IH]; [done|].
  rewrite bind_cons, length_app. simpl.
  destruct (decide (s ∩ lexemes ≠ ∅)); simpl; lia.
Qed.

Lemma default_resolutions_NoDup : NoDup default_resolutions.
Proof.
  unfold default_resolutions. apply NoDup_fmap_2_strong; [|apply NoDup_seq].
  intros j k _ _ Heq%Q2Qc_eq_iff.
  unfold Qeq in Heq. simpl in Heq. lia.
Qed.

Lemma lexeme_only_filter lexemes comms :
  lexeme_only lexemes comms
  = filter (λ s, s ≠ ∅) ((λ s, s ∩ lexemes) <$> comms).
Proof.
  unfold lexeme_only. induction comms as [|s comms IH]; [done|].
  rewrite bind_cons, fmap_cons, filter_cons, IH.
  by destruct (decide (s ∩ lexemes ≠ ∅)).
Qed.

Lemma last_call_snoc_eq (l : list Qc) res call :
  last_call (l ++ [res]) res call ↔ call = length l.
Proof.
  unfold last_call. split.
  - intros [Hcall Hlast].
    destruct (decide (call < length l)) as [Hlt|Hge].
    + destruct (Hlast (length l) Hlt). by rewrite list_lookup_middle.
    + apply lookup_lt_Some in Hcall. rewrite length_app in Hcall.
      simpl in Hcall. lia.
  - intros ->. split; [by rewrite list_lookup_middle|].
    intros j Hj Hlook. apply lookup_lt_Some in Hlook.
    rewrite length_app in Hlook. simpl in Hlook. lia.
Qed.

Lemma last_call_snoc_ne (l : list Qc) r res call :
  r ≠ res → last_call (l ++ [r]) res call ↔ last_call l res call.
Proof.
  intros Hne. unfold last_call. split.
  - intros [Hcall Hlast].
    assert (call < length l) as Hlt.
    { pose proof (lookup_lt_Some _ _ _ Hcall) as Hlen.
      rewrite length_app in Hlen. simpl in Hlen.
      destruct (decide (call = length l)) as [->|]; [|lia].
      rewrite list_lookup_middle in Hcall by done. congruence. }
    rewrite lookup_app_l in Hcall by done. split; [done|].
    intros j Hj Hlook. apply (Hlast j Hj).
    rewrite lookup_app_l; [done|]. by eapply lookup_lt_Some.
  - intros [Hcall Hlast]. split.
    + rewrite lookup_app_l; [done|]. by eapply lookup_lt_Some.
    + intros j Hj Hlook.
      destruct (decide (j < length l)) as [Hlt|Hge].
      * rewrite lookup_app_l in Hlook by done. by apply (Hlast j Hj).
      * pose proof (lookup_lt_Some _ _ _ Hlook) as Hlen.
        rewrite length_app in Hlen. simpl in Hlen.
        assert (j = length l) as -> by lia.
        rewrite list_lookup_middle in Hlook by done. congruence.
Qed.

Section detector_results.
Variable louvain_communities : Graph → Qc → nat → list (gset string).

Lemma run_louvain_snoc graph (l : list Qc) r :
  run_louvain louvain_communities graph (l ++ [r])
  = <[r := louvain_communities graph r (length l)]>
      (run_louvain louvain_communities graph l).
Proof.
  unfold run_louvain. rewrite foldl_snoc.
  assert (∀ acc : gmap Qc (list (gset string)) * nat,
            (foldl (λ '(communities, call) res,
                      (<[res := louvain_communities graph res call]>
                         communities, S call)) acc l).2
            = acc.2 + length l) as Hcount.
  { induction l as [|x l IH]; intros [m c]; simpl; [lia|].
    rewrite IH. simpl. lia. }
  specialize (Hcount (∅, 0)).
  destruct (foldl _ _ l) as [m c]. simpl in *. by subst c.
Qed.

Lemma run_louvain_last graph (l : list Qc) res comms :
  run_louvain louvain_communities graph l !! res = Some comms ↔
  ∃ call, last_call l res call ∧ comms = louvain_communities graph res call.
Proof.
  induction l as [|r l IH] using rev_ind.
  - unfold run_louvain. simpl. rewrite lookup_empty. split; [done|].
    by intros (call & [? _] & _).
  - rewrite run_louvain_snoc. destruct (decide (r = res)) as [->|Hne].
    + rewrite lookup_insert_eq. split.
      * intros [= <-]. exists (length l). split; [|done].
        by apply last_call_snoc_eq.
      * intros (call & ->%last_call_snoc_eq & ->). done.
    + rewrite lookup_insert_ne by done. rewrite IH.
      by setoid_rewrite (last_call_snoc_ne l r res).
Qed.

(** X7: when the detector returns, its result has an entry exactly for
    each requested resolution (21 of them by default), and the entry of
    a resolution is the clustering of the last call at that resolution
    cut down to the lexemes: each community intersected with the set of
    the nodes whose attribute is 0, in the order of the clustering, the
    empty intersections left out. *)
Theorem detector_output (graph : Graph) (resolutions : option (list Qc))
    (d : gmap Qc (list (gset string))) :
  detect_communities_multiresolution louvain_communities graph resolutions
    = Ok d →
  ∃ lexemes : gset string,
    (∀ v, v ∈ lexemes ↔ g_nodes graph !! v = Some (Some 0%Z)) ∧
    (∀ res, is_Some (d !! res) ↔
            res ∈ default default_resolutions resolutions) ∧
    (resolutions = None → size d = 21) ∧
    (∀ res comms,
       d !! res = Some comms ↔
       ∃ call,
         last_call (default default_resolutions resolutions) res call ∧
         comms = filter (λ s, s ≠ ∅)
                   ((λ s, s ∩ lexemes)
                      <$> louvain_communities graph res call)).
Proof.
  unfold detect_communities_multiresolution, lexeme_nodes.
  case_decide as Hattr; [|done]. cbn [mbind result_bind].
  set (rs := default default_resolutions resolutions).
  set (lexemes := dom (filter (λ nd, nd.2 = Some 0%Z) (g_nodes graph))).
  intros Hd.
  assert (∀ res,
    d !! res
    = if decide (res ∈ rs)
      then Some (lexeme_only lexemes
                   (default [] (run_louvain louvain_communities graph rs
                                  !! res)))
      else None) as Hlookup.
  { intros res. injection Hd as <-.
    rewrite (lookup_foldl_insert
               (λ res, lexeme_only lexemes
                         (default [] (run_louvain louvain_communities graph rs
                                        !! res)))).
    by rewrite lookup_empty. }
  clear Hd.
  assert (∀ res, is_Some (d !! res) ↔ res ∈ rs) as Hkeys.
  { intros res. rewrite Hlookup.
    case_decide; [by split; eauto|]. split; [by intros []%is_Some_None|done]. }
  exists lexemes. split_and!.
  - intros v. unfold lexemes. rewrite elem_of_dom. unfold is_Some.
    setoid_rewrite map_lookup_filter_Some. naive_solver.
  - done.
  - intros Hnone. rewrite <- size_dom.
    assert (dom d = list_to_set default_resolutions) as ->.
    { apply set_eq. intros res.
      rewrite elem_of_dom, elem_of_list_to_set, Hkeys. unfold rs.
      by rewrite Hnone. }
    by rewrite size_list_to_set by apply default_resolutions_NoDup.
  - intros res comms. rewrite Hlookup. split.
    + case_decide as Hres; [|done]. intros [= <-].
      destruct (run_louvain_is_Some louvain_communities graph rs res Hres)
        as [c0 Hc0].
      rewrite Hc0. cbn [default from_option id].
      apply run_louvain_last in Hc0 as (call & Hlast & ->).
      exists call. split; [done|]. apply lexeme_only_filter.
    + intros (call & Hlast & ->).
      rewrite decide_True by (destruct Hlast as [Hcall _];
                              by eapply list_elem_of_lookup_2).
      rewrite (proj2 (run_louvain_last graph rs res _)) by by exists call.
      cbn [default from_option id]. by rewrite lexeme_only_filter.
Qed.
End detector_results.

(** The toy graph clustered by [two_levels] at the resolutions 0 and 1:
    at resolution 1 the community of the tag is left out. *)
Lemma detector_output_witness :
  ∃ lexemes : gset string,
    (∀ v, v ∈ lexemes ↔ g_nodes toy_graph !! v = Some (Some 0%Z)) ∧
    (∀ res, is_Some (two_levels_comms !! res) ↔
            res ∈ default default_resolutions (Some [Q2Qc 0; Q2Qc 1])) ∧
    (Some [Q2Qc 0; Q2Qc 1] = None → size two_levels_comms = 21) ∧
    (∀ res comms,
       two_levels_comms !! res = Some comms ↔
       ∃ call,
         last_call (default default_resolutions (Some [Q2Qc 0; Q2Qc 1]))
           res call ∧
         comms = filter (λ s, s ≠ ∅)
                   ((λ s, s ∩ lexemes) <$> two_levels toy_graph res call)).
Proof.
  apply (detector_output two_levels toy_graph (Some [Q2Qc 0; Q2Qc 1])).
  vm_compute. reflexivity.
Defined.

(** ** The hierarchy coefficient on partitions *)

Lemma co_located_first lower a b :
  pairwise_disjoint lower →
  co_located lower a b ↔ ∃ s, s ∈ lower ∧ a ∈ s ∧ b ∈ s.
Proof.
  intros Hdisj. unfold co_located. split.
  - destruct (list_find _ _) as [[i s]|] eqn:Hfind; [|done].
    apply list_find_Some in Hfind as (Hi & Ha & _).
    intros Hb. exists s. split; [|done]. by eapply list_elem_of_lookup_2.
  - intros (s & [i Hi]%list_elem_of_lookup_1 & Ha & Hb).
    destruct (list_find (λ s, a ∈ s) lower) as [[j t]|] eqn:Hfind.
    + apply list_find_Some in Hfind as (Hj & Ha' & _).
      destruct (decide (i = j)) as [->|Hne]; [congruence|].
      exfalso. apply (Hdisj i j s t Hne Hi Hj a); done.
    + apply list_find_None in Hfind.
      eapply Forall_lookup_1 in Hfind; [|exact Hi]. done.
Qed.

Lemma same_set_sym lower a b :
  pairwise_disjoint lower → same_set lower (a, b) = same_set lower (b, a).
Proof.
  intros Hdisj. apply eq_bool_prop_intro.
  rewrite !same_set_co_located. cbn [fst snd].
  rewrite !co_located_first by done. naive_solver.
Qed.

Section counting.
Context {A : Type} (P : A * A → bool).
Hypothesis P_sym : ∀ a b, P (a, b) = P (b, a).

Lemma count_pairs_Permutation (l1 l2 : list A) :
  l1 ≡ₚ l2 →
  length (filter (λ p, P p) (combinations2 l1))
  = length (filter (λ p, P p) (combinations2 l2)).
Proof.
  induction 1 as [|x l1 l2 Hperm IH|x y l|l1 l2 l3 _ IH1 _ IH2].
  - done.
  - cbn [combinations2]. rewrite !filter_app, !length_app, IH.
    f_equal. by rewrite Hperm.
  - cbn [combinations2]. rewrite !fmap_cons.
    rewrite <- !app_comm_cons, !filter_cons, !filter_app.
    rewrite (P_sym y x).
    destruct (decide (P (x, y))); cbn [length];
      rewrite !length_app; lia.
  - congruence.
Qed.
End counting.

Lemma community_score_order (set_iter1 set_iter2 : gset string → list string)
    lower C :
  set_iter1 C ≡ₚ set_iter2 C → pairwise_disjoint lower →
  community_score set_iter1 lower C = community_score set_iter2 lower C.
Proof.
  intros Hperm Hdisj. unfold community_score.
  rewrite (count_pairs_Permutation (same_set lower)
             (λ a b, same_set_sym lower a b Hdisj) _ _ Hperm).
  by rewrite !length_combinations2, Hperm.
Qed.

(** X8: on a coarser partition whose sets are pairwise disjoint the
    result does not depend on the order in which the interpreter iterates
    over the members of a set. *)
Theorem hierarchy_order_independent
    (set_iter1 set_iter2 : gset string → list string)
    (lower upper : list (gset string)) :
  (∀ s, set_iter1 s ≡ₚ elements s) →
  (∀ s, set_iter2 s ≡ₚ elements s) →
  pairwise_disjoint lower →
  calculate_hierarchy_coefficient set_iter1 lower upper
  = calculate_hierarchy_coefficient set_iter2 lower upper.
Proof.
  intros H1 H2 Hdisj. unfold calculate_hierarchy_coefficient.
  case_decide as Hall; [done|]. f_equal. clear Hall.
  induction upper as [|C upper IH]; [done|].
  cbn [community_ratings]. rewrite IH.
  rewrite (community_score_order set_iter1 set_iter2 lower C);
    [done| |done].
  by rewrite H1, H2.
Qed.

(** The members of a community taken in the order of [elements] and in the
    reverse order. *)
Lemma hierarchy_order_independent_witness :
  calculate_hierarchy_coefficient elements
    [{["a"; "b"]}; {["c"]}] [{["a"; "b"; "c"]}]
  = calculate_hierarchy_coefficient (λ s, reverse (elements s))
      [{["a"; "b"]}; {["c"]}] [{["a"; "b"; "c"]}].
Proof.
  apply (hierarchy_order_independent elements (λ s, reverse (elements s))).
  - intros s. reflexivity.
  - intros s. apply reverse_Permutation.
  - apply pairwise_disjoint_cons. split.
    + constructor; [|constructor]. apply (bool_decide_unpack _).
      vm_compute. reflexivity.
    + apply pairwise_disjoint_cons. split; [constructor|].
      intros i j s t _ Hi. by destruct i.
Defined.

(** Without disjointness the order matters: with ["b"] in two coarser
    sets, the pair of ["b"] and ["c"] is co-located from ["c"] and not
    from ["b"]. *)
Lemma hierarchy_order_matters_on_overlap :
  calculate_hierarchy_coefficient elements
    [{["a"; "b"]}; {["b"; "c"]}] [{["b"; "c"]}]
  ≠ calculate_hierarchy_coefficient (λ s, reverse (elements s))
      [{["a"; "b"]}; {["b"; "c"]}] [{["b"; "c"]}].
Proof. vm_compute. discriminate. Qed.

Lemma length_filter_all {A} (P : A → Prop) `{∀ x, Decision (P x)} (l : list A) :
  length (filter P l) = length l ↔ Forall P l.
Proof.
  induction l as [|x l IH].
  - split; [by constructor|done].
  - rewrite filter_cons. pose proof (length_filter P l) as Hle.
    destruct (decide (P x)) as [Hx|Hx]; simpl.
    + split.
      * intros Hlen. constructor; [done|]. apply IH. lia.
      * intros [_ Hl%IH]%Forall_cons. lia.
    + split; [lia|]. by intros [? _]%Forall_cons.
Qed.

Section nesting.
Variable set_iter : gset string → list string.
Hypothesis set_iter_enumerates : ∀ s, set_iter s ≡ₚ elements s.

Lemma all_pairs_co_located lower C :
  pairwise_disjoint lower → 1 < size C →
  Forall (λ p, same_set lower p) (combinations2 (set_iter C)) ↔
  nested_in lower C.
Proof.
  intros Hdisj Hsize. rewrite Forall_forall. split.
  - intros Hall.
    pose proof (set_iter_length set_iter set_iter_enumerates C) as Hlen.
    destruct (set_iter C) as [|x [|y rest]] eqn:Hiter; simpl in Hlen;
      [lia..|].
    assert (∀ z, z ∈ y :: rest → co_located lower x z) as Hx.
    { intros z Hz. apply (same_set_co_located lower (x, z)), Hall.
      apply elem_of_combinations2_cons. by left. }
    destruct (proj1 (co_located_first lower x y Hdisj) (Hx y ltac:(by left)))
      as (s & Hs & Hxs & _).
    exists s. split; [done|]. intros z Hz.
    apply (elem_of_set_iter set_iter set_iter_enumerates) in Hz.
    rewrite Hiter in Hz. apply elem_of_cons in Hz as [->|Hz]; [done|].
    destruct (proj1 (co_located_first lower x z Hdisj) (Hx z Hz))
      as (t & Ht & Hxt & Hzt).
    apply list_elem_of_lookup_1 in Hs as [i Hi].
    apply list_elem_of_lookup_1 in Ht as [j Hj].
    destruct (decide (i = j)) as [->|Hne]; [congruence|].
    exfalso. apply (Hdisj i j s t Hne Hi Hj x); done.
  - intros (s & Hs & Hsub) [a b] [Ha Hb]%elem_of_combinations2.
    apply same_set_co_located, co_located_first; [done|].
    apply (elem_of_set_iter set_iter set_iter_enumerates) in Ha, Hb.
    exists s. split_and!; [done|by apply Hsub..].
Qed.

Lemma community_score_one lower C :
  pairwise_disjoint lower → 1 < size C →
  ∃ score, community_score set_iter lower C = Ok score ∧
           in_unit_interval score ∧
           ((score == 1)%Q ↔ nested_in lower C).
Proof.
  intros Hdisj Hsize.
  pose proof (all_pairs_co_located lower C Hdisj Hsize) as Hnested.
  rewrite <- length_filter_all in Hnested.
  unfold community_score.
  pose proof (length_combinations2_double (set_iter C)) as Hlen.
  rewrite (set_iter_length set_iter set_iter_enumerates) in Hlen.
  pose proof (length_filter (λ p, same_set lower p)
                (combinations2 (set_iter C))) as Hle.
  set (n := length (combinations2 (set_iter C))) in *.
  set (k := length (filter _ _)) in *.
  assert (0 < n) as Hn by nia.
  rewrite truediv_nat by done. eexists. split; [done|].
  split; [by apply ratio_bounds|].
  rewrite <- Hnested. unfold Qeq. simpl. rewrite Z.mul_1_r.
  rewrite <- (Nat2Z.inj_iff k n).
  destruct n as [|n]; [lia|].
  rewrite <- Pos.of_nat_succ, Zpos_P_of_succ_nat. lia.
Qed.

Lemma community_ratings_nested lower upper :
  pairwise_disjoint lower →
  ∃ scores,
    community_ratings set_iter lower upper = Ok scores ∧
    Forall2 (λ C score, in_unit_interval score ∧
                        ((score == 1)%Q ↔ nested_in lower C))
            (filter (λ C, 1 < size C) upper) scores.
Proof.
  intros Hdisj. induction upper as [|C upper (scores & IH & Hall)].
  - exists []. split; [done|]. constructor.
  - cbn [community_ratings]. rewrite filter_cons.
    destruct (decide (1 < size C)) as [Hsize|Hsize]; [|by exists scores].
    destruct (community_score_one lower C Hdisj Hsize)
      as (score & -> & Hscore).
    rewrite IH. exists (score :: scores). split; [done|]. by constructor.
Qed.

(** X9: against a coarser partition of pairwise disjoint sets, every
    score lies between 0 and 1, and a community scores 1 exactly when
    all of it lies inside one coarser set. *)
Theorem score_one_iff_nested (lower upper : list (gset string)) :
  pairwise_disjoint lower →
  ¬ Forall (λ s, size s = 1) upper →
  ∃ scores,
    calculate_hierarchy_coefficient set_iter lower upper
      = Ok (Ratings scores) ∧
    Forall2 (λ C score, in_unit_interval score ∧
                        ((score == 1)%Q ↔ nested_in lower C))
            (filter (λ C, 1 < size C) upper) scores.
Proof.
  intros Hdisj Hnot.
  destruct (community_ratings_nested lower upper Hdisj)
    as (scores & Heq & Hall).
  exists scores. split; [|done].
  unfold calculate_hierarchy_coefficient.
  rewrite decide_False by done. by rewrite Heq.
Qed.
End nesting.

(** One coarser set that holds the community of two lexemes. *)
Lemma score_one_iff_nested_witness :
  ∃ scores,
    calculate_hierarchy_coefficient elements
      [{["a"; "b"; "c"]}] [{["a"; "b"]}; {["c"]}] = Ok (Ratings scores) ∧
    Forall2 (λ C score, in_unit_interval score ∧
               ((score == 1)%Q ↔ nested_in [{["a"; "b"; "c"]}] C))
            (filter (λ C, 1 < size C) [{["a"; "b"]}; {["c"]}]) scores.
Proof.
  apply (score_one_iff_nested elements).
  - intros s. reflexivity.
  - apply pairwise_disjoint_cons. split; [constructor|].
    intros i j s t _ Hi. by destruct i.
  - intros Hall. apply Forall_cons in Hall as [Hsize _].
    vm_compute in Hsize. discriminate.
Defined.

(** ** The average of the scores *)

Lemma inject_Z_succ_nat (n : nat) :
  (inject_Z (Z.of_nat (S n)) == inject_Z (Z.of_nat n) + 1)%Q.
Proof. rewrite Nat2Z.inj_succ. unfold Z.succ. by rewrite inject_Z_plus. Qed.

Lemma foldl_Qplus_bounds (scores : list Q) (acc : Q) :
  Forall in_unit_interval scores →
  (acc <= foldl Qplus acc scores)%Q ∧
  (foldl Qplus acc scores <= acc + inject_Z (Z.of_nat (length scores)))%Q.
Proof.
  intros Hall. revert acc.
  induction Hall as [|x scores [Hx0 Hx1] _ IH]; intros acc.
  - simpl. split; [apply Qle_refl|]. rewrite Qplus_0_r. apply Qle_refl.
  - cbn [foldl length]. destruct (IH (acc + x)%Q) as [IH1 IH2].
    rewrite inject_Z_succ_nat. split; lra.
Qed.

Lemma mean_in_unit_interval (scores : list Q) :
  scores ≠ [] → Forall in_unit_interval scores →
  in_unit_interval
    (foldl Qplus 0 scores / inject_Z (Z.of_nat (length scores)))%Q.
Proof.
  intros Hne Hall.
  destruct (foldl_Qplus_bounds scores 0%Q Hall) as [H0 H1].
  assert (0 < inject_Z (Z.of_nat (length scores)))%Q as Hpos.
  { destruct scores; [done|]. cbn [length]. rewrite inject_Z_succ_nat.
    assert (0 <= inject_Z (Z.of_nat (length scores)))%Q; [|lra].
    change 0%Q with (inject_Z 0). rewrite <- Zle_Qle. lia. }
  split.
  - apply Qle_shift_div_l; [done|]. lra.
  - apply Qle_shift_div_r; [done|]. lra.
Qed.

Section averages.
Variable set_iter : gset string → list string.
Hypothesis set_iter_enumerates : ∀ s, set_iter s ≡ₚ elements s.

(** X10: the value stored for a pair of resolutions averages to the
    sentinel text, when the finer partition is all singletons, or to a
    number between 0 and 1; when the finer partition has no empty set
    the list of scores is not empty, and the 0 that stands for the
    average of no score is never used. *)
Theorem average_in_unit_interval (lower upper : list (gset string)) :
  ∃ r,
    calculate_hierarchy_coefficient set_iter lower upper = Ok r ∧
    match average_of r with
    | AvgStr msg =>
        msg = "Every lexeme in its own community" ∧
        Forall (λ s, size s = 1) upper
    | AvgNum q => in_unit_interval q ∧ ¬ Forall (λ s, size s = 1) upper
    end ∧
    (Forall (λ s, s ≠ ∅) upper → r ≠ Ratings []).
Proof.
  unfold calculate_hierarchy_coefficient.
  destruct (decide (Forall (λ s, size s = 1) upper)) as [Hall|Hnot].
  { eexists. split; [done|]. by split. }
  destruct (community_ratings_ok set_iter set_iter_enumerates lower upper)
    as (scores & -> & Hscores).
  exists (Ratings scores). split; [done|].
  assert (Forall in_unit_interval scores) as Hunit.
  { clear Hnot. induction Hscores as [|C q Cs qs Hq _ IH]; constructor; [|done].
    destruct Hq as (pairs & _ & _ & _ & _ & H0 & H1). by split. }
  split.
  - destruct scores as [|q scores].
    + split; [|done]. split; [apply Qle_refl|]. done.
    + split; [|done]. by apply mean_in_unit_interval.
  - intros Hne Heq. injection Heq as ->.
    apply Forall2_nil_inv_r in Hscores.
    apply Hnot. apply Forall_forall. intros C HC.
    assert (¬ 1 < size C) as Hsmall.
    { intros Hsize.
      assert (C ∈ filter (λ C, 1 < size C) upper) as Hin
        by by apply list_elem_of_filter.
      rewrite Hscores in Hin. by apply elem_of_nil in Hin. }
    assert (size C ≠ 0); [|lia].
    intros ->%size_empty_inv%leibniz_equiv.
    by eapply Forall_forall in Hne.
Qed.
End averages.

(** One community of three lexemes against two coarser sets. *)
Lemma average_in_unit_interval_witness :
  ∃ r,
    calculate_hierarchy_coefficient elements
      [{["a"]}; {["b"; "c"]}] [{["a"; "b"; "c"]}] = Ok r ∧
    match average_of r with
    | AvgStr msg =>
        msg = "Every lexeme in its own community" ∧
        Forall (λ s, size s = 1) [({["a"; "b"; "c"]} : gset string)]
    | AvgNum q =>
        in_unit_interval q ∧
        ¬ Forall (λ s, size s = 1) [({["a"; "b"; "c"]} : gset string)]
    end ∧
    (Forall (λ s, s ≠ ∅) [({["a"; "b"; "c"]} : gset string)] →
     r ≠ Ratings []).
Proof.
  apply (average_in_unit_interval elements).
  intros s. reflexivity.
Defined.

(** ** Resolutions that the communities lack *)

Lemma resolution_pairs_cons x y (r : list Qc) :
  resolution_pairs (x :: y :: r) = (x, y) :: resolution_pairs (y :: r).
Proof. done. Qed.

Lemma resolution_pairs_app (l : list Qc) a b m :
  resolution_pairs (l ++ a :: b :: m)
  = resolution_pairs (l ++ [a]) ++ (a, b) :: resolution_pairs (b :: m).
Proof.
  induction l as [|x l IH]; [done|].
  destruct l as [|y l].
  - simpl app. by rewrite !resolution_pairs_cons.
  - simpl app in *. by rewrite !resolution_pairs_cons, IH.
Qed.

Lemma elem_of_resolution_pairs (l : list Qc) a b :
  (a, b) ∈ resolution_pairs l → a ∈ l ∧ b ∈ l.
Proof.
  unfold resolution_pairs. intros Hin. split.
  - by apply elem_of_zip_l in Hin.
  - apply elem_of_zip_r in Hin. by apply elem_of_tail.
Qed.

Section missing.
Variable set_iter : gset string → list string.
Variable str_float : Qc → string.
Hypothesis set_iter_enumerates : ∀ s, set_iter s ≡ₚ elements s.

Lemma analyze_pairs_missing communities pre lower_res upper_res post acc :
  (∀ t, t ∈ pre →
     is_Some (communities !! t.1) ∧ is_Some (communities !! t.2)) →
  communities !! lower_res = None ∨ communities !! upper_res = None →
  analyze_pairs set_iter str_float communities
    (pre ++ (lower_res, upper_res) :: post) acc
  = Raise (KeyError (KeyFloat (match communities !! lower_res with
                               | None => lower_res
                               | Some _ => upper_res
                               end))).
Proof.
  intros Hpre Hmiss. revert acc.
  induction pre as [|[l u] pre IH]; intros acc.
  - cbn [app analyze_pairs]. unfold getitem.
    destruct (communities !! lower_res); [|done].
    destruct Hmiss as [?|Hu]; [done|]. by rewrite Hu.
  - destruct (Hpre (l, u)) as [[lc Hl] [uc Hu]]; [by left|].
    cbn [fst snd] in Hl, Hu.
    cbn [app analyze_pairs]. unfold getitem at 1 2. rewrite Hl, Hu.
    cbn [mbind result_bind].
    destruct (calculate_hierarchy_coefficient_total set_iter
                set_iter_enumerates lc uc) as [r ->].
    cbn [mbind result_bind]. apply IH.
    intros t Ht. apply Hpre. by right.
Qed.

(** X11: in a sweep of at least two resolutions, the first resolution
    of the list that the communities lack stops the analysis with a
    [KeyError] for it; a sweep of fewer than two resolutions gives a
    report without rows, whether its resolution is there or not. *)
Theorem analysis_missing_resolution
    (communities : gmap Qc (list (gset string)))
    (found : list Qc) (res : Qc) (rest : list Qc) :
  (∀ x, x ∈ found → is_Some (communities !! x)) →
  communities !! res = None →
  (2 ≤ length (found ++ res :: rest) →
   analyze_hierarchy set_iter str_float communities
     (Some (found ++ res :: rest)) = Raise (KeyError (KeyFloat res)) ∧
   run_hierarchy_analysis set_iter str_float communities
     (Some (found ++ res :: rest)) = Raise (KeyError (KeyFloat res))) ∧
  (length (found ++ res :: rest) < 2 →
   analyze_hierarchy set_iter str_float communities
     (Some (found ++ res :: rest)) = Ok [] ∧
   run_hierarchy_analysis set_iter str_float communities
     (Some (found ++ res :: rest)) = Ok []).
Proof.
  intros Hfound Hres. split.
  - intros Hlen.
    assert (analyze_hierarchy set_iter str_float communities
              (Some (found ++ res :: rest)) = Raise (KeyError (KeyFloat res)))
      as Hraise.
    { unfold analyze_hierarchy. cbn [default from_option id].
      destruct (decide (found = [])) as [->|Hne].
      - destruct rest as [|r rest]; [simpl in Hlen; lia|].
        cbn [app]. rewrite resolution_pairs_cons.
        pose proof (analyze_pairs_missing communities [] res r
                      (resolution_pairs (r :: rest)) []
                      ltac:(by intros ? ?%elem_of_nil) ltac:(by left)) as Hm.
        cbn [app] in Hm. by rewrite Hm, Hres.
      - destruct (proj2 (last_is_Some found)) as [f Hf].
        { by destruct found. }
        apply last_Some in Hf as [found' ->].
        rewrite <- (assoc_L (++)). cbn [app].
        rewrite resolution_pairs_app, analyze_pairs_missing.
        + destruct (Hfound f) as [fc ->];
            [apply elem_of_app; right; by left|]. done.
        + intros [a b] [Ha Hb]%elem_of_resolution_pairs.
          split; by apply Hfound.
        + by right. }
    split; [done|].
    unfold run_hierarchy_analysis. cbn [default from_option id]. by rewrite Hraise.
  - intros Hlen. destruct found as [|f found].
    + destruct rest as [|r rest]; [|simpl in Hlen; lia]. done.
    + simpl in Hlen. rewrite length_app in Hlen. simpl in Hlen. lia.
Qed.
End missing.

(** A sweep whose third resolution is not among the communities. *)
Lemma analysis_missing_resolution_witness :
  run_hierarchy_analysis elements (λ _, "") scenario_c
    (Some ([Q2Qc 0; Q2Qc 1] ++ Q2Qc 2 :: [Q2Qc 3]))
  = Raise (KeyError (KeyFloat (Q2Qc 2))).
Proof.
  destruct (analysis_missing_resolution elements (λ _, "")
              (λ s, reflexivity _) scenario_c
              [Q2Qc 0; Q2Qc 1] (Q2Qc 2) [Q2Qc 3]) as [H _].
  - intros x Hx. apply (bool_decide_unpack _).
    apply elem_of_cons in Hx as [->|Hx]; [vm_compute; reflexivity|].
    apply elem_of_cons in Hx as [->|Hx]; [vm_compute; reflexivity|].
    by apply elem_of_nil in Hx.
  - vm_compute. reflexivity.
  - apply H. simpl. lia.
Defined.

(** ** The report of a sweep *)

Lemma NoDup_zip_l {A B} (l : list A) (k : list B) : NoDup l → NoDup (zip l k).
Proof.
  intros Hl. revert k. induction Hl as [|x l Hx _ IH]; intros k; [constructor|].
  destruct k as [|y k]; [constructor|]. simpl. constructor; [|apply IH].
  intros Hin%elem_of_zip_l. done.
Qed.

Lemma lookup_resolution_pairs_iff (resolutions : list Qc) i a b :
  resolution_pairs resolutions !! i = Some (a, b) ↔
  resolutions !! i = Some a ∧ resolutions !! S i = Some b.
Proof.
  unfold resolution_pairs. rewrite lookup_zip_with_Some.
  destruct resolutions as [|x l]; simpl; [naive_solver|].
  split.
  - intros (a' & b' & [= <- <-] & Ha & Hb). done.
  - intros [Ha Hb]. by exists a, b.
Qed.

Section sweep.
Variable set_iter : gset string → list string.
Variable str_float : Qc → string.
Hypothesis set_iter_enumerates : ∀ s, set_iter s ≡ₚ elements s.
Variable communities : gmap Qc (list (gset string)).
Hypothesis str_float_inj :
  ∀ a b, is_Some (communities !! a) → is_Some (communities !! b) →
         str_float a = str_float b → a = b.
Hypothesis str_float_plain :
  ∀ a, is_Some (communities !! a) → str_contains "_" (str_float a) = false.

Lemma pair_key_NoDup (resolutions : list Qc) :
  (∀ res, res ∈ resolutions → is_Some (communities !! res)) →
  NoDup resolutions →
  NoDup (uncurry (pair_key str_float) <$> resolution_pairs resolutions).
Proof.
  intros Hpresent Hnd. apply NoDup_fmap_2_strong; [|by apply NoDup_zip_l].
  intros [a b] [a' b'] [Ha Hb]%elem_of_resolution_pairs
    [Ha' Hb']%elem_of_resolution_pairs Heq.
  apply Hpresent in Ha, Hb, Ha', Hb'.
  unfold uncurry, pair_key in Heq. simpl in Heq.
  change ("_" +:+ ?x) with (String "_" x) in Heq.
  apply app_sep_inj in Heq as [Heq1 Heq2]; [|by apply str_float_plain..].
  by rewrite (str_float_inj _ _ Ha Ha' Heq1), (str_float_inj _ _ Hb Hb' Heq2).
Qed.

Lemma report_of_rows resolutions :
  (∀ res, res ∈ resolutions → is_Some (communities !! res)) →
  NoDup resolutions →
  ∃ rows,
    run_hierarchy_analysis set_iter str_float communities (Some resolutions)
      = Ok rows ∧
    report_of set_iter str_float communities resolutions rows.
Proof.
  intros Hpresent Hnd.
  destruct (report_rows set_iter str_float set_iter_enumerates communities
              resolutions Hpresent (pair_key_NoDup resolutions Hpresent Hnd))
    as (rows & Hrun & Hlen & Hrows).
  exists rows. split; [done|]. split.
  - rewrite Hlen. apply length_resolution_pairs.
  - intros i lower_res upper_res Hi HSi.
    apply (Hrows i lower_res upper_res), lookup_resolution_pairs_iff. done.
Qed.

(** X12: when the texts of the resolutions are distinct and free of
    ["_"], a sweep over distinct resolutions that are all present gives
    a report with one row for each pair of neighbours: the key of the
    pair, the average of its value, then the number of communities at
    the first resolution of the pair and the number at the second. With
    the resolutions left out the sweep is over the sorted keys and never
    fails. *)
Theorem sweep_report :
  (∀ resolutions,
     NoDup resolutions →
     (∀ res, res ∈ resolutions → is_Some (communities !! res)) →
     ∃ rows,
       run_hierarchy_analysis set_iter str_float communities
         (Some resolutions) = Ok rows ∧
       report_of set_iter str_float communities resolutions rows) ∧
  ∃ rows,
    run_hierarchy_analysis set_iter str_float communities None = Ok rows ∧
    report_of set_iter str_float communities (sorted_keys communities) rows ∧
    length rows = size communities - 1.
Proof.
  split; [intros resolutions Hnd Hpresent; by apply report_of_rows|].
  assert (sorted_keys communities ≡ₚ elements (dom communities)) as Hperm
    by apply merge_sort_Permutation.
  destruct (report_of_rows (sorted_keys communities))
    as (rows & Hrun & Hlen & Hrows).
  - intros res Hres. rewrite Hperm in Hres.
    by apply elem_of_elements, elem_of_dom in Hres.
  - rewrite Hperm. apply NoDup_elements.
  - exists rows. split_and!; [done|by split|].
    rewrite Hlen, Hperm. by rewrite <- size_dom.
Qed.
End sweep.

(** The report for the two resolutions of scenario C. *)
Lemma sweep_report_witness :
  ∃ rows,
    run_hierarchy_analysis elements
      (λ q, if decide (q = Q2Qc 0) then "0.0" else "1.0") scenario_c None
      = Ok rows ∧
    report_of elements (λ q, if decide (q = Q2Qc 0) then "0.0" else "1.0")
      scenario_c (sorted_keys scenario_c) rows ∧
    length rows = size scenario_c - 1.
Proof.
  assert (∀ a, is_Some (scenario_c !! a) → a = Q2Qc 0 ∨ a = Q2Qc 1) as Hkeys.
  { intros a [comms Ha]. unfold scenario_c in Ha.
    apply lookup_insert_Some in Ha as [[<- _]|[_ Ha]]; [by left|].
    apply lookup_insert_Some in Ha as [[<- _]|[_ Ha]]; [by right|].
    by rewrite lookup_empty in Ha. }
  apply (sweep_report elements
           (λ q, if decide (q = Q2Qc 0) then "0.0" else "1.0")).
  - intros s. reflexivity.
  - intros a b [->| ->]%Hkeys [->| ->]%Hkeys; try done;
      vm_compute; discriminate.
  - intros a [->| ->]%Hkeys; vm_compute; reflexivity.
Defined.

(** ** Pairs of resolutions with the same key *)

Lemma foldl_dict_set_keys {T V} (k : T → string) (v : T → V) (l : list T)
    (acc : Dict V) :
  NoDup acc.*1 →
  NoDup (foldl (λ d t, dict_set d (k t) (v t)) acc l).*1 ∧
  ∀ x, x ∈ (foldl (λ d t, dict_set d (k t) (v t)) acc l).*1 ↔
       x ∈ acc.*1 ∨ x ∈ k <$> l.
Proof.
  revert acc. induction l as [|t l IH]; intros acc Hacc.
  - split; [done|]. intros x. simpl. split; [by left|].
    intros [?|[]%elem_of_nil]. done.
  - cbn [foldl]. destruct (IH (dict_set acc (k t) (v t))) as [Hnd Hin].
    { by apply dict_set_NoDup. }
    split; [done|]. intros x. rewrite Hin, dict_set_keys, fmap_cons.
    rewrite elem_of_cons.
    destruct (decide (k t ∈ acc.*1)) as [Hk|Hk].
    + naive_solver.
    + rewrite elem_of_app, list_elem_of_singleton. naive_solver.
Qed.

Lemma length_foldl_dict_set {T V} (k : T → string) (v : T → V) (l : list T) :
  ¬ NoDup (k <$> l) →
  length (foldl (λ d t, dict_set d (k t) (v t)) [] l) < length l ∧
  foldl (λ d t, dict_set d (k t) (v t)) [] l ≠ [].
Proof.
  intros Hdup.
  destruct (foldl_dict_set_keys k v l []) as [Hnd Hin]; [constructor|].
  set (d := foldl _ _ _) in *.
  assert (d.*1 ⊆+ k <$> l) as Hsub.
  { apply NoDup_submseteq; [done|]. intros x [[]%elem_of_nil|?]%Hin. done. }
  pose proof (submseteq_length _ _ Hsub) as Hle.
  rewrite !length_fmap in Hle. split.
  - destruct (decide (length d = length l)) as [Heq|]; [|lia].
    exfalso. apply Hdup.
    apply submseteq_length_Permutation in Hsub.
    + by rewrite <- Hsub.
    + rewrite !length_fmap. lia.
  - intros Hnil. apply Hdup. destruct l as [|t l]; [constructor|].
    assert (k t ∈ d.*1) as Ht by (apply Hin; right; rewrite fmap_cons; by left).
    rewrite Hnil in Ht. by apply elem_of_nil in Ht.
Qed.

Section collisions.
Variable set_iter : gset string → list string.
Variable str_float : Qc → string.
Hypothesis set_iter_enumerates : ∀ s, set_iter s ≡ₚ elements s.

Lemma analyze_pairs_present communities tuples acc :
  (∀ t, t ∈ tuples →
     is_Some (communities !! t.1) ∧ is_Some (communities !! t.2)) →
  analyze_pairs set_iter str_float communities tuples acc
  = Ok (foldl (λ d t, dict_set d (uncurry (pair_key str_float) t)
                        (rating_of set_iter communities t))
              acc tuples).
Proof.
  revert acc. induction tuples as [|[l u] tuples IH]; intros acc Hpresent;
    [done|].
  destruct (Hpresent (l, u)) as [[lc Hl] [uc Hu]]; [by left|].
  cbn [fst snd] in Hl, Hu.
  cbn [analyze_pairs foldl]. unfold getitem. rewrite Hl, Hu.
  cbn [mbind result_bind].
  destruct (calculate_hierarchy_coefficient_total set_iter
              set_iter_enumerates lc uc) as [r Hr].
  rewrite Hr. cbn [mbind result_bind].
  rewrite (rating_of_eq set_iter communities l u lc uc r) by done.
  apply IH. intros t Ht. apply Hpresent. by right.
Qed.

(** X13: when all resolutions of a sweep are present and two of its pairs
    have the same key, the later value replaces the earlier one, the
    dictionary of values has fewer entries than there are pairs, and the
    report fails with a [ValueError] when the columns of counts, one per
    pair, are attached. *)
Theorem colliding_keys_raise (communities : gmap Qc (list (gset string)))
    (resolutions : list Qc) :
  (∀ res, res ∈ resolutions → is_Some (communities !! res)) →
  ¬ NoDup (uncurry (pair_key str_float) <$> resolution_pairs resolutions) →
  (∃ hierarchy_ratings,
     analyze_hierarchy set_iter str_float communities (Some resolutions)
       = Ok hierarchy_ratings ∧
     length hierarchy_ratings < length (resolution_pairs resolutions)) ∧
  run_hierarchy_analysis set_iter str_float communities (Some resolutions)
    = Raise ValueError.
Proof.
  intros Hpresent Hdup.
  assert (analyze_hierarchy set_iter str_float communities (Some resolutions)
          = Ok (foldl (λ d t, dict_set d (uncurry (pair_key str_float) t)
                                (rating_of set_iter communities t))
                      [] (resolution_pairs resolutions))) as Hanalyze.
  { unfold analyze_hierarchy. cbn [default from_option id].
    apply analyze_pairs_present.
    intros [a b] [Ha Hb]%elem_of_resolution_pairs. split; by apply Hpresent. }
  destruct (length_foldl_dict_set (uncurry (pair_key str_float))
              (rating_of set_iter communities)
              (resolution_pairs resolutions) Hdup) as [Hlen Hne].
  destruct (foldl_dict_set_keys (uncurry (pair_key str_float))
              (rating_of set_iter communities)
              (resolution_pairs resolutions) []) as [Hnd _]; [constructor|].
  set (d := foldl _ _ _) in *.
  split; [by exists d|].
  unfold run_hierarchy_analysis. cbn [default from_option id].
  rewrite Hanalyze. cbn [mbind result_bind].
  unfold create_hierarchy_dataframe. cbn [default from_option id].
  rewrite (foldl_dict_set_NoDup average_of d Hnd).
  rewrite !community_counts_present.
  2, 3: intros x Hx; apply Hpresent;
    first [by apply elem_of_all_but_last | by apply elem_of_tail].
  cbn [mbind result_bind].
  destruct (prod_map id average_of <$> d) as [|a avgs] eqn:Havg.
  { by apply fmap_nil_inv in Havg. }
  rewrite decide_False; [done|].
  rewrite <- Havg, !length_fmap.
  destruct (length_resolution_pairs resolutions) as (Hp & Ha & _).
  lia.
Qed.
End collisions.

(** A sweep that repeats one resolution three times. *)
Lemma colliding_keys_raise_witness :
  run_hierarchy_analysis elements (λ _, "") scenario_c
    (Some [Q2Qc 0; Q2Qc 0; Q2Qc 0])
  = Raise ValueError.
Proof.
  apply (colliding_keys_raise elements (λ _, "")).
  - intros s. reflexivity.
  - intros res Hres. assert (res = Q2Qc 0) as ->.
    { repeat (apply elem_of_cons in Hres as [->|Hres]; [done|]).
      by apply elem_of_nil in Hres. }
    vm_compute. eauto.
  - intros Hnd. cbn in Hnd. apply NoDup_cons in Hnd as [Hin _].
    apply Hin. by left.
Defined.

(** ** When the standalone script fails *)

Lemma count_same_set_raise_inv upper_comms verb_pairs e :
  count_same_set upper_comms verb_pairs = Raise e →
  ∃ p, p ∈ verb_pairs ∧ ∀ s, s ∈ upper_comms → p.1 ∉ s.
Proof.
  induction verb_pairs as [|[v1 v2] rest IH]; [done|].
  cbn [count_same_set].
  destruct (find_set_containing_string upper_comms v1) as [s|] eqn:Hfind.
  - destruct (count_same_set upper_comms rest) as [n|e'] eqn:Hrest; [done|].
    cbn [mbind result_bind]. intros Heq.
    destruct (IH Heq) as (p & Hp & Hun).
    exists p. split; [by right|done].
  - intros _. exists (v1, v2). split; [by left|].
    by apply find_set_containing_string_None.
Qed.

Section script_failure.
Variable set_iter : gset string → list string.
Hypothesis set_iter_enumerates : ∀ s, set_iter s ≡ₚ elements s.

Lemma communities_ratings_pairs_covered upper_comms lower_comms :
  ¬ uncovered_pair set_iter upper_comms lower_comms →
  communities_ratings set_iter upper_comms lower_comms
  = community_ratings set_iter upper_comms lower_comms.
Proof.
  induction lower_comms as [|C rest IH]; intros Hcov; [done|].
  cbn [communities_ratings community_ratings].
  rewrite IH.
  2: { intros (C' & p & HC' & Hrest). apply Hcov.
       exists C', p. split; [by right|done]. }
  pose proof (script_guard set_iter set_iter_enumerates C) as Hguard.
  destruct (decide (1 < size C)) as [Hsize|Hsize].
  - rewrite decide_True by by apply Hguard.
    rewrite count_same_set_covered; [done|].
    intros p Hp.
    destruct (find_set_containing_string upper_comms p.1) as [s|] eqn:Hfind.
    + apply find_set_containing_string_Some in Hfind as [? ?]. by exists s.
    + exfalso. apply Hcov. exists C, p. split_and!; [by left|done..|].
      by apply find_set_containing_string_None.
  - rewrite decide_False; [done|]. by rewrite Hguard.
Qed.

Lemma communities_ratings_raise_inv upper_comms lower_comms e :
  communities_ratings set_iter upper_comms lower_comms = Raise e →
  e = TypeError ∧ uncovered_pair set_iter upper_comms lower_comms.
Proof.
  induction lower_comms as [|C rest IH]; [done|].
  cbn [communities_ratings].
  pose proof (script_guard set_iter set_iter_enumerates C) as Hguard.
  assert (uncovered_pair set_iter upper_comms rest →
          uncovered_pair set_iter upper_comms (C :: rest)) as Hrest.
  { intros (C' & p & HC' & Hp). exists C', p. split; [by right|done]. }
  destruct (decide (_ ∧ _)) as [Hsize%Hguard|_]; [|naive_solver].
  destruct (count_same_set upper_comms _) as [n|e'] eqn:Hcount.
  - cbn [mbind result_bind].
    pose proof (length_combinations2_double (set_iter C)) as Hlen.
    rewrite (set_iter_length set_iter set_iter_enumerates) in Hlen.
    rewrite truediv_nat by nia. cbn [mbind result_bind].
    destruct (communities_ratings set_iter upper_comms rest); [done|].
    cbn [mbind result_bind]. intros [= <-]. naive_solver.
  - cbn [mbind result_bind]. intros [= <-].
    split; [by eapply count_same_set_raises|].
    apply count_same_set_raise_inv in Hcount as (p & Hp & Hun).
    exists C, p. split_and!; [by left|done..].
Qed.

(** X14: the loop of the standalone script over the communities of one
    partition fails, with a [TypeError], exactly when a community of
    more than one lexeme has a pair whose first lexeme is in no set of
    the other partition; in every other case it returns the scores that
    the analyser computes. *)
Theorem script_fails_iff_uncovered
    (upper_comms lower_comms : list (gset string)) :
  (∀ e, communities_ratings set_iter upper_comms lower_comms = Raise e ↔
        e = TypeError ∧ uncovered_pair set_iter upper_comms lower_comms) ∧
  (¬ uncovered_pair set_iter upper_comms lower_comms →
   ∃ scores,
     communities_ratings set_iter upper_comms lower_comms = Ok scores ∧
     community_ratings set_iter upper_comms lower_comms = Ok scores).
Proof.
  split.
  - intros e. split; [apply communities_ratings_raise_inv|].
    intros [-> (C & p & HC & Hsize & Hp & Hun)].
    by eapply script_fails_on_uncovered_lexeme.
  - intros Hcov.
    destruct (community_ratings_ok set_iter set_iter_enumerates
                upper_comms lower_comms) as (scores & Heq & _).
    exists scores. split; [|done].
    by rewrite communities_ratings_pairs_covered.
Qed.
End script_failure.

(** Two lexemes that no set of the other partition holds. *)
Lemma script_fails_iff_uncovered_witness :
  communities_ratings elements [{["c"]}] [{["a"; "b"]}] = Raise TypeError.
Proof.
  apply (script_fails_iff_uncovered elements (λ s, reflexivity _)
           [{["c"]}] [{["a"; "b"]}]).
  split; [reflexivity|].
  exists {["a"; "b"]}, ("a", "b"). split_and!.
  - by left.
  - vm_compute. lia.
  - apply (bool_decide_unpack _). vm_compute. reflexivity.
  - intros s Hs. apply list_elem_of_singleton in Hs as ->.
    apply (bool_decide_unpack _). vm_compute. reflexivity.
Defined.

(** ** The standalone script on the partitions it detects *)

Section script_pipeline.
Variable louvain_communities : Graph → Qc → nat → list (gset string).
Variable set_iter : gset string → list string.
Variable str_float : Qc → string.
Hypothesis set_iter_enumerates : ∀ s, set_iter s ≡ₚ elements s.

(** X15: the script detects its partitions as the detector does. When
    every clustering covers the nodes of the graph, each lexeme of a
    partition is found in every other one, so that the hierarchy loop of
    the script cannot fail on them: for any two resolutions it stores
    what the analyser computes. *)
Theorem script_on_detected (graph : Graph) (resolutions : option (list Qc))
    (d : gmap Qc (list (gset string))) (res_i res_j : Qc)
    (comms_i comms_j : list (gset string)) :
  (∀ res call, dom (g_nodes graph) ⊆ ⋃ louvain_communities graph res call) →
  detect_communities_multiresolution louvain_communities graph resolutions
    = Ok d →
  d !! res_i = Some comms_i →
  d !! res_j = Some comms_j →
  ¬ uncovered_pair set_iter comms_i comms_j ∧
  ∃ r, calculate_hierarchy_coefficient set_iter comms_i comms_j = Ok r ∧
       hierarchy_entry set_iter str_float d (res_i, res_j)
       = Ok (str_float res_j +:+ "_" +:+ str_float res_i, r).
Proof.
  intros Hcover Hd Hi Hj.
  destruct (detect_lookup _ _ _ _ _ _ Hd Hi)
    as (lexemes & call_i & Hlex & _ & ->).
  destruct (detect_lookup _ _ _ _ _ _ Hd Hj)
    as (lexemes' & call_j & Hlex' & _ & ->).
  assert (lexemes' = lexemes) as -> by congruence.
  assert (lexemes ⊆ dom (g_nodes graph)) as Hdom.
  { unfold lexeme_nodes in Hlex. case_decide; [|done].
    injection Hlex as <-. apply dom_filter_subseteq. }
  set (comms_i := lexeme_only lexemes (louvain_communities graph res_i call_i))
    in *.
  set (comms_j := lexeme_only lexemes (louvain_communities graph res_j call_j))
    in *.
  assert (¬ uncovered_pair set_iter comms_i comms_j) as Hcov.
  { intros (C & [v1 v2] & HC & _ & Hp & Hun).
    apply elem_of_lexeme_only in HC as (s & _ & -> & _).
    apply elem_of_combinations2 in Hp as [Hv1 _].
    apply (elem_of_set_iter set_iter set_iter_enumerates) in Hv1.
    apply elem_of_intersection in Hv1 as [_ Hv1].
    pose proof (Hcover res_i call_i v1 (Hdom v1 Hv1)) as Hin.
    apply elem_of_union_list in Hin as (t & Ht & Hv1t).
    apply (Hun (t ∩ lexemes)); [|set_solver].
    apply elem_of_lexeme_only. exists t. split_and!; [done..|set_solver]. }
  split; [done|].
  unfold hierarchy_entry, calculate_hierarchy_coefficient, getitem.
  rewrite Hi, Hj. cbn [mbind result_bind].
  destruct (decide (Forall (λ s, size s = 1) comms_j)); [by eexists|].
  rewrite communities_ratings_pairs_covered by done.
  destruct (community_ratings_ok set_iter set_iter_enumerates comms_i comms_j)
    as (scores & -> & _).
  by eexists.
Qed.
End script_pipeline.

(** The toy graph, clustered into one community at each resolution. *)
Lemma script_on_detected_witness :
  ¬ uncovered_pair elements [{["L1"; "L2"]}] [{["L1"; "L2"]}] ∧
  ∃ r, calculate_hierarchy_coefficient elements
         [{["L1"; "L2"]}] [{["L1"; "L2"]}] = Ok r ∧
       hierarchy_entry elements (λ _, "")
         (list_to_map ((λ res, (res, [({["L1"; "L2"]} : gset string)]))
                         <$> default_resolutions))
         (Q2Qc 0, Q2Qc 1)
       = Ok ("" +:+ "_" +:+ "", r).
Proof.
  apply (script_on_detected one_cluster elements (λ _, "")
           (λ s, reflexivity _) toy_graph None).
  - intros res call. unfold one_cluster. simpl. set_solver.
  - vm_compute. reflexivity.
  - vm_compute. reflexivity.
  - vm_compute. reflexivity.
Defined.

(** ** The standalone script against the analyser, on detected partitions *)

Lemma community_ratings_order
    (set_iter1 set_iter2 : gset string → list string) lower upper :
  (∀ s, set_iter1 s ≡ₚ set_iter2 s) → pairwise_disjoint lower →
  community_ratings set_iter1 lower upper
  = community_ratings set_iter2 lower upper.
Proof.
  intros Hperm Hdisj. induction upper as [|C upper IH]; [done|].
  cbn [community_ratings]. rewrite IH.
  by rewrite (community_score_order set_iter1 set_iter2 lower C).
Qed.

Section script_and_analyser.
Variable louvain_communities : Graph → Qc → nat → list (gset string).
(** The two programs run in two interpreters: each iterates over the
    members of a set in an order of its own. *)
Variable set_iter_script set_iter_analyser : gset string → list string.
Variable str_float : Qc → string.
Hypothesis script_enumerates : ∀ s, set_iter_script s ≡ₚ elements s.
Hypothesis analyser_enumerates : ∀ s, set_iter_analyser s ≡ₚ elements s.

Lemma detected_covered graph resolutions d res_i res_j comms_i comms_j :
  (∀ res call, dom (g_nodes graph) ⊆ ⋃ louvain_communities graph res call) →
  detect_communities_multiresolution louvain_communities graph resolutions
    = Ok d →
  d !! res_i = Some comms_i →
  d !! res_j = Some comms_j →
  ¬ uncovered_pair set_iter_script comms_i comms_j.
Proof.
  intros Hcover Hd Hi Hj.
  destruct (detect_lookup _ _ _ _ _ _ Hd Hi)
    as (lexemes & call_i & Hlex & _ & ->).
  destruct (detect_lookup _ _ _ _ _ _ Hd Hj)
    as (lexemes' & call_j & Hlex' & _ & ->).
  assert (lexemes' = lexemes) as -> by congruence.
  assert (lexemes ⊆ dom (g_nodes graph)) as Hdom.
  { unfold lexeme_nodes in Hlex. case_decide; [|done].
    injection Hlex as <-. apply dom_filter_subseteq. }
  intros (C & [v1 v2] & HC & _ & Hp & Hun).
  apply elem_of_lexeme_only in HC as (s & _ & -> & _).
  apply elem_of_combinations2 in Hp as [Hv1 _].
  apply (elem_of_set_iter set_iter_script script_enumerates) in Hv1.
  apply elem_of_intersection in Hv1 as [_ Hv1].
  pose proof (Hcover res_i call_i v1 (Hdom v1 Hv1)) as Hin.
  apply elem_of_union_list in Hin as (t & Ht & Hv1t).
  apply (Hun (t ∩ lexemes)); [|set_solver].
  apply elem_of_lexeme_only. exists t. split_and!; [done..|set_solver].
Qed.

(** C5. The script computes its partitions as the detector does: each is
    a clustering of the graph cut down to the lexemes. When the
    clusterings are partitions of the nodes, then for any two
    resolutions the script stores the value that the analyser computes
    for the same two partitions: the same decision for the sentinel and
    the same scores, community by community, whatever the order in
    which each of the two programs iterates over the members of a set.
    The script iterates the partition of the second resolution and looks
    lexemes up in that of the first, as the analyser does. *)
Theorem script_agrees_with_analyser (graph : Graph)
    (resolutions : option (list Qc)) (d : gmap Qc (list (gset string)))
    (res_i res_j : Qc) (comms_i comms_j : list (gset string)) :
  (∀ res call, pairwise_disjoint (louvain_communities graph res call)) →
  (∀ res call, dom (g_nodes graph) ⊆ ⋃ louvain_communities graph res call) →
  detect_communities_multiresolution louvain_communities graph resolutions
    = Ok d →
  d !! res_i = Some comms_i →
  d !! res_j = Some comms_j →
  ∃ r, calculate_hierarchy_coefficient set_iter_analyser comms_i comms_j
         = Ok r ∧
       hierarchy_entry set_iter_script str_float d (res_i, res_j)
         = Ok (str_float res_j +:+ "_" +:+ str_float res_i, r) ∧
       ((∃ msg, r = Sentinel msg) ↔ Forall (λ s, size s = 1) comms_j).
Proof.
  intros Hdisj Hcover Hd Hi Hj.
  pose proof (detected_covered _ _ _ _ _ _ _ Hcover Hd Hi Hj) as Hcov.
  assert (pairwise_disjoint comms_i) as Hdisj_i.
  { destruct (detect_lookup _ _ _ _ _ _ Hd Hi) as (lexemes & call & _ & _ & ->).
    by apply lexeme_only_disjoint. }
  unfold hierarchy_entry, calculate_hierarchy_coefficient, getitem.
  rewrite Hi, Hj. cbn [mbind result_bind].
  destruct (decide (Forall (λ s, size s = 1) comms_j)) as [Hall|Hnot].
  { eexists. split_and!; [done..|]. split; [done|by eauto]. }
  rewrite (communities_ratings_pairs_covered set_iter_script
             script_enumerates) by done.
  rewrite (community_ratings_order set_iter_script set_iter_analyser)
    by (done || intros s; by rewrite script_enumerates, analyser_enumerates).
  destruct (community_ratings_ok set_iter_analyser analyser_enumerates
              comms_i comms_j) as (scores & -> & _).
  eexists. split_and!; [done..|]. split; [by intros [msg [=]]|done].
Qed.
End script_and_analyser.

Lemma two_levels_disjoint res call :
  pairwise_disjoint (two_levels toy_graph res call).
Proof.
  unfold two_levels. case_decide.
  - intros i j s t Hij Hi Hj. by destruct i, j.
  - repeat (apply pairwise_disjoint_cons; split;
            [repeat constructor; apply (bool_decide_unpack _);
             vm_compute; reflexivity|]).
    intros i j s t _ Hi. by destruct i.
Qed.

Lemma two_levels_cover res call :
  dom (g_nodes toy_graph) ⊆ ⋃ two_levels toy_graph res call.
Proof.
  unfold two_levels.
  case_decide; apply (bool_decide_unpack _); vm_compute; reflexivity.
Qed.

(** The toy graph clustered by [two_levels]: the script iterating the
    members of a set in one order, the analyser in the reverse order. *)
Lemma script_agrees_with_analyser_witness :
  ∃ r, calculate_hierarchy_coefficient (λ s, reverse (elements s))
         [{["L1"]}; {["L2"]}] [{["L1"; "L2"]}] = Ok r ∧
       hierarchy_entry elements (λ _, "") two_levels_comms (Q2Qc 1, Q2Qc 0)
         = Ok ("" +:+ "_" +:+ "", r) ∧
       ((∃ msg, r = Sentinel msg) ↔
        Forall (λ s, size s = 1) [({["L1"; "L2"]} : gset string)]).
Proof.
  apply (script_agrees_with_analyser two_levels elements
           (λ s, reverse (elements s)) (λ _, "")
           (λ s, reflexivity _) (λ s, reverse_Permutation _)
           toy_graph (Some [Q2Qc 0; Q2Qc 1])).
  - apply two_levels_disjoint.
  - apply two_levels_cover.
  - vm_compute. reflexivity.
  - vm_compute. reflexivity.
  - vm_compute. reflexivity.
Defined.

(** ** The number of tags of a lexeme *)

Lemma length_generate_triphones exponent :
  length (generate_triphones exponent) = triphone_count exponent.
Proof.
  unfold generate_triphones, triphone_count. fold (padded exponent).
  pose proof (length_padded exponent) as Hlen.
  destruct (decide (String.length (padded exponent) ≤ 3)).
  - simpl. lia.
  - rewrite length_fmap, length_seq. lia.
Qed.

Lemma length_cell_tagged col cell :
  length (cell_tagged col cell) = sum_list (triphone_count <$> cell).
Proof.
  unfold cell_tagged, process_cell. rewrite length_fmap.
  induction cell as [|e cell IH]; [done|].
  rewrite bind_cons, length_app, IH, length_generate_triphones. done.
Qed.

Lemma sum_list_append (l k : list nat) :
  sum_list (l ++ k) = sum_list l + sum_list k.
Proof. induction l as [|x l IH]; simpl; lia. Qed.

Lemma length_row_tags cols row :
  length (row_tags cols row) = row_triphone_count cols row.
Proof.
  unfold row_tags, row_triphone_count.
  induction cols as [|col cols IH]; [done|].
  rewrite !bind_cons, length_app, sum_list_append, IH. f_equal.
  destruct (live_cell row col) as [cell|]; [|done].
  apply length_cell_tagged.
Qed.

(** X19: on a table with distinct lexeme identifiers, indexing neither
    drops nor adds a tag: a lexeme with a cell has in the indexed
    dictionary as many tags as the exponents of its cells have
    triphones, one for each character of an exponent and one for an
    empty exponent. *)
Theorem lexeme_tag_count (df : DataFrame) (idx : string) (row : Row) :
  NoDup (df_rows df).*1 →
  (idx, row) ∈ df_rows df →
  has_cell (df_columns (drop_stem df)) row →
  ∃ tags,
    dict_get (index_duplicate_exponents (build_lexeme_dict df)) idx
      = Some tags ∧
    length tags = row_triphone_count (df_columns (drop_stem df)) row.
Proof.
  intros Hnd Hin Hcell.
  pose proof (build_lexeme_dict_NoDup df) as Hkeys.
  rewrite index_duplicate_exponents_NoDup by done.
  assert ((idx, row_tags (df_columns (drop_stem df)) row)
          ∈ build_lexeme_dict df) as Hrow.
  { unfold build_lexeme_dict. rewrite build_rows_fresh by done.
    apply list_elem_of_omap. exists (idx, row). split; [done|].
    by rewrite decide_True. }
  exists (index_exps ∅ (row_tags (df_columns (drop_stem df)) row)). split.
  - apply elem_of_dict_NoDup; [by rewrite fmap_prod_map_keys|].
    apply list_elem_of_fmap.
    by exists (idx, row_tags (df_columns (drop_stem df)) row).
  - by rewrite length_index_exps, length_row_tags.
Qed.

(** The second lexeme of scenario B: two exponents of one character. *)
Lemma lexeme_tag_count_witness :
  ∃ tags,
    dict_get (index_duplicate_exponents (build_lexeme_dict scenario_b)) "L2"
      = Some tags ∧
    length tags = row_triphone_count (df_columns (drop_stem scenario_b))
                    (list_to_map [("stem", CellList ["x"]);
                                  ("NOM.SG", CellList ["a"; "b"])]).
Proof.
  apply (lexeme_tag_count scenario_b).
  - apply (bool_decide_unpack _). vm_compute. reflexivity.
  - right. left.
  - apply (bool_decide_unpack _). vm_compute. reflexivity.
Defined.

(** ** The edges of the returned graph *)

Lemma foldl_add_edge_untouched (G : Graph) (es : list Edge) u v :
  (u, v) ∉ es.*1 → (v, u) ∉ es.*1 →
  g_adj (foldl add_edge G es) !! (u, v) = g_adj G !! (u, v).
Proof.
  revert G. induction es as [|[[a b] w] es IH]; intros G Huv Hvu; [done|].
  rewrite fmap_cons in Huv, Hvu. cbn [fst] in Huv, Hvu.
  apply not_elem_of_cons in Huv as [Hne1 Huv].
  apply not_elem_of_cons in Hvu as [Hne2 Hvu].
  cbn [foldl]. rewrite IH by done. simpl.
  rewrite !lookup_insert_ne by congruence. done.
Qed.

Lemma foldl_add_edge_lookup (G : Graph) (es : list Edge) u v w :
  NoDup es.*1 →
  (∀ a b, (a, b) ∈ es.*1 → (b, a) ∉ es.*1) →
  (u, v, w) ∈ es →
  g_adj (foldl add_edge G es) !! (u, v) = Some w ∧
  g_adj (foldl add_edge G es) !! (v, u) = Some w.
Proof.
  revert G. induction es as [|[[a b] w'] es IH]; intros G Hnd Hrev Hin;
    [by apply elem_of_nil in Hin|].
  rewrite fmap_cons in Hnd. cbn [fst] in Hnd.
  apply NoDup_cons in Hnd as [Hfresh Hnd].
  cbn [foldl]. apply elem_of_cons in Hin as [Heq|Hin].
  - injection Heq as <- <- <-.
    assert ((v, u) ∉ es.*1) as Hvu.
    { intros Hvu. apply (Hrev u v); [left|by right]. }
    assert (u ≠ v) as Hne.
    { intros ->. apply (Hrev v v); left. }
    rewrite !foldl_add_edge_untouched by done. simpl. split.
    + rewrite lookup_insert_ne by congruence. by rewrite lookup_insert_eq.
    + by rewrite lookup_insert_eq.
  - apply IH; [done| |done].
    intros a' b' Hab Hba. apply (Hrev a' b'); by right.
Qed.

Lemma NoDup_dict_to_tuple_list (d : Dict (list string)) :
  NoDup d.*1 → (∀ k v, (k, v) ∈ d → NoDup v) →
  NoDup (dict_to_tuple_list d).
Proof.
  unfold dict_to_tuple_list.
  induction d as [|[k v] d IH]; intros Hkeys Hvals; [constructor|].
  rewrite fmap_cons in Hkeys. apply NoDup_cons in Hkeys as [Hk Hkeys].
  rewrite bind_cons. apply NoDup_app. split_and!.
  - apply NoDup_fmap_2_strong; [congruence|]. apply (Hvals k v). by left.
  - intros [k' tag] (tag' & [= -> ->] & _)%list_elem_of_fmap Hin.
    apply Hk. apply list_elem_of_bind in Hin as ([k'' v''] & Hin & Hd).
    apply list_elem_of_fmap in Hin as (? & [= -> ->] & _).
    apply list_elem_of_fmap. by exists (k'', v'').
  - apply IH; [done|]. intros k' v' Hin. apply (Hvals k' v'). by right.
Qed.

(** X20: when no lexeme identifier contains ["-"] and no lexeme has a
    tag twice after the indexing, the adjacencies of the returned graph
    are the weighted edges and their reverses: every edge is kept with
    its weight, and there is no other adjacency. *)
Theorem built_graph_edges (df : DataFrame) (B : Graph)
    (log : list log_entry) :
  create_bipartite_graph df = (Ok B, log) →
  (∀ idx, idx ∈ (df_rows df).*1 → str_contains "-" idx = false) →
  (∀ lex tags,
     (lex, tags) ∈ index_duplicate_exponents (build_lexeme_dict df) →
     NoDup tags) →
  ∃ edges,
    calculate_edge_weights df
      (index_duplicate_exponents (build_lexeme_dict df)) = (Ok edges, log) ∧
    edges.*1 = dict_to_tuple_list
                 (index_duplicate_exponents (build_lexeme_dict df)) ∧
    ∀ u v w, g_adj B !! (u, v) = Some w ↔
             (u, v, w) ∈ edges ∨ (v, u, w) ∈ edges.
Proof.
  unfold create_bipartite_graph, calculate_edge_weights,
    calculate_edge_weights_on.
  set (indexed := index_duplicate_exponents (build_lexeme_dict df)).
  destruct (weights_table df) as [weights_dict|e0]; [|done].
  destruct (weights_loop _ _ _) as [es|[[e lst] [cell|]]] eqn:Hloop;
    [|done..].
  intros [= <- <-] Hids Htags.
  apply weights_loop_inl in Hloop as (Hedges & _).
  exists es. split_and!; [done..|].
  assert (NoDup indexed.*1) as Hkeys.
  { unfold indexed.
    rewrite index_duplicate_exponents_NoDup by apply build_lexeme_dict_NoDup.
    rewrite fmap_prod_map_keys. apply build_lexeme_dict_NoDup. }
  assert (NoDup es.*1) as Hnd.
  { rewrite Hedges. by apply NoDup_dict_to_tuple_list. }
  assert (∀ a b, (a, b) ∈ es.*1 → (b, a) ∉ es.*1) as Hrev.
  { rewrite Hedges. intros a b Hab Hba.
    apply indexed_tag_hyphen in Hba.
    apply elem_of_dict_to_tuple_list in Hab as (tags & Hab & _).
    assert (a ∈ indexed.*1) as Ha
      by (apply list_elem_of_fmap; by exists (a, tags)).
    apply indexed_lexeme_row, Hids in Ha. congruence. }
  intros u v w. split.
  - intros [Hw|Hw]%foldl_add_edge_adj; [done|done].
  - intros [Hin|Hin].
    + by apply (foldl_add_edge_lookup _ es u v w).
    + by apply (foldl_add_edge_lookup _ es v u w).
Qed.

(** The graph of scenario B: two lexemes, three tags in all. *)
Lemma built_graph_edges_witness :
  ∃ edges,
    calculate_edge_weights scenario_b
      (index_duplicate_exponents (build_lexeme_dict scenario_b))
      = (Ok edges, []) ∧
    edges.*1 = dict_to_tuple_list
                 (index_duplicate_exponents (build_lexeme_dict scenario_b)) ∧
    ∀ u v w, g_adj scenario_b_graph !! (u, v) = Some w ↔
             (u, v, w) ∈ edges ∨ (v, u, w) ∈ edges.
Proof.
  apply (built_graph_edges scenario_b scenario_b_graph []).
  - vm_compute. reflexivity.
  - intros idx Hin. simpl in Hin.
    apply elem_of_cons in Hin as [->|Hin]; [reflexivity|].
    apply elem_of_cons in Hin as [->|Hin]; [reflexivity|].
    by apply elem_of_nil in Hin.
  - intros lex tags Hin.
    assert (index_duplicate_exponents (build_lexeme_dict scenario_b)
            = [("L1", ["#a#-NOM.SG"]); ("L2", ["#a#-NOM.SG"; "#b#-NOM.SG"])])
      as Heq by (vm_compute; reflexivity).
    rewrite Heq in Hin.
    apply elem_of_cons in Hin as [[= -> ->]|Hin];
      [apply (bool_decide_unpack _); vm_compute; reflexivity|].
    apply elem_of_cons in Hin as [[= -> ->]|Hin];
      [apply (bool_decide_unpack _); vm_compute; reflexivity|].
    by apply elem_of_nil in Hin.
Defined.
